(** * faktory_worker_node: the Connection protocol layer and the Worker engine

    A shallow embedding of [connection.ts] (class [Connection]) and
    [worker.ts] (class [Worker]) together with the properties the
    specification states about them.  JavaScript objects become records,
    promises become entries of an explicit promise store, event emitters
    and the console become logs, and the collaborators that live outside
    the two classes (socket, parser, client, user middleware, job
    functions) become inputs of the model. *)

From Corelib Require Import PrimFloat.
From Stdlib Require Import QArith Qround.
From stdpp Require Import base option list strings pretty gmap.

Local Open Scope string_scope.
Local Open Scope list_scope.

(** ** JavaScript-level data shared by both classes *)

(** An [Error] object: its constructor name and its message. *)
Inductive JsError := MkError (name message : string).

#[global] Instance JsError_eq_dec : EqDecision JsError.
Proof. solve_decision. Defined.

Definition CRLF : string :=
  String (Ascii.ascii_of_nat 13) (String (Ascii.ascii_of_nat 10) EmptyString).

(** The number of elements of a list that pass a test. *)
Definition count {A} (P : A → bool) (l : list A) : nat :=
  length (filter P l).

(** ** Connection *)

Module Connection.

Section WithGreeting.

(** [JSON.parse(response.split(' ')[1])] of the handler installed by
    [open]: the parsed greeting, or the error the expression throws. *)
Context {Greeting : Type} (parseGreeting : string → JsError + Greeting).

(** What a promise of this class is fulfilled with: the server's response
    ([send]) or the greeting ([open]). *)
Inductive Value :=
| VResponse (response : option string)
| VGreeting (greeting : Greeting).

Inductive PromiseState :=
| Pending
| Resolved (v : Value)
| Rejected (e : JsError).

(** The closures pushed on [this.pending].  Each one closes over the
    [resolve]/[reject] pair of one promise, named here by its index in the
    promise store. *)
Inductive Handler :=
| HOpen (p : nat)
| HSend (p : nat) (commandString : string).

Definition promiseOf (h : Handler) : nat :=
  match h with HOpen p => p | HSend p _ => p end.

Inductive Emitted :=
| EmConnect
| EmGreeting (g : Greeting)
| EmTimeout
| EmError (e : JsError)
| EmClose.

(** One call of a pending handler: the closure and its two arguments. *)
Definition Invocation : Type := Handler * option JsError * option string.

Record Conn := mkConn {
  connected : bool;
  closing : option bool;
  lastError : option JsError;
  (** [this.pending]: [None] until [open] assigns the array. *)
  pending : option (list Handler);
  (** listener [onceErrored] of [open], while it is attached *)
  onceErrored : option nat;
  promises : list PromiseState;
  (** [socket.write] calls *)
  written : list string;
  (** [this.emit] calls *)
  emitted : list Emitted;
  (** [console.warn] calls *)
  warnings : list string;
  (** every call of a pending handler, oldest first *)
  invoked : list Invocation;
  (** the ['error'] listeners the connection's user has attached to it;
      the class attaches none *)
  listeners : nat;
}.

Definition constructor : Conn :=
  mkConn false None None None None [] [] [] [] [] 0.

Definition set_pending (q : option (list Handler)) (c : Conn) : Conn :=
  mkConn (connected c) (closing c) (lastError c) q (onceErrored c)
         (promises c) (written c) (emitted c) (warnings c) (invoked c) (listeners c).

Definition set_promises (ps : list PromiseState) (c : Conn) : Conn :=
  mkConn (connected c) (closing c) (lastError c) (pending c) (onceErrored c)
         ps (written c) (emitted c) (warnings c) (invoked c) (listeners c).

Definition set_onceErrored (o : option nat) (c : Conn) : Conn :=
  mkConn (connected c) (closing c) (lastError c) (pending c) o
         (promises c) (written c) (emitted c) (warnings c) (invoked c) (listeners c).

Definition emit (e : Emitted) (c : Conn) : Conn :=
  mkConn (connected c) (closing c) (lastError c) (pending c) (onceErrored c)
         (promises c) (written c) (emitted c ++ [e]) (warnings c) (invoked c) (listeners c).

Definition warn (s : string) (c : Conn) : Conn :=
  mkConn (connected c) (closing c) (lastError c) (pending c) (onceErrored c)
         (promises c) (written c) (emitted c) (warnings c ++ [s]) (invoked c) (listeners c).

Definition write (s : string) (c : Conn) : Conn :=
  mkConn (connected c) (closing c) (lastError c) (pending c) (onceErrored c)
         (promises c) (written c ++ [s]) (emitted c) (warnings c) (invoked c) (listeners c).

Definition record (i : Invocation) (c : Conn) : Conn :=
  mkConn (connected c) (closing c) (lastError c) (pending c) (onceErrored c)
         (promises c) (written c) (emitted c) (warnings c) (invoked c ++ [i]) (listeners c).

(** [resolve]/[reject] of a promise: only the first call has an effect. *)
Definition settle (p : nat) (s : PromiseState) (c : Conn) : Conn :=
  match promises c !! p with
  | Some Pending => set_promises (<[p := s]> (promises c)) c
  | _ => c
  end.

Definition resolve (p : nat) (v : Value) : Conn → Conn := settle p (Resolved v).
Definition reject (p : nat) (e : JsError) : Conn → Conn := settle p (Rejected e).

(** [new Promise(...)]: a fresh pending promise and its index. *)
Definition newPromise (c : Conn) : nat * Conn :=
  (length (promises c), set_promises (promises c ++ [Pending]) c).

Definition undefinedProperty (prop : string) : JsError :=
  MkError "TypeError" ("Cannot read properties of undefined (reading '" +:+ prop +:+ "')").

(** [callback(err, response)] for a handler taken from [this.pending].
    The second component is the exception the call throws, if any. *)
Definition invoke (h : Handler) (err : option JsError) (response : option string)
    (c : Conn) : Conn * option JsError :=
  let c := record (h, err, response) c in
  match h, err with
  | HSend p _, Some e => (reject p e c, None)
  | HSend p _, None => (resolve p (VResponse response) c, None)
  | HOpen p, Some e => (reject p e c, None)
  | HOpen p, None =>
      match response with
      | None => (c, Some (undefinedProperty "split"))
      | Some r =>
          match parseGreeting r with
          | inl e => (c, Some e)
          | inr g => (resolve p (VGreeting g) (emit (EmGreeting g) c), None)
          end
      end
  end.

(** [Array.prototype.forEach]: calls in index order, stops at a throw. *)
Fixpoint forEach (hs : list Handler) (f : Handler → Conn → Conn * option JsError)
    (c : Conn) : Conn * option JsError :=
  match hs with
  | [] => (c, None)
  | h :: hs' =>
      match f h c with
      | (c', None) => forEach hs' f c'
      | thrown => thrown
      end
  end.

(** [open()]: returns the promise of the greeting. *)
Definition open (c : Conn) : nat * Conn :=
  let '(p, c) := newPromise c in
  (p, set_onceErrored (Some p) (set_pending (Some [HOpen p]) c)).

(** The socket's ['connect'] listeners: [onConnect], then the callback
    given to [connect] by [open], which detaches [onceErrored]. *)
Definition onConnect (c : Conn) : Conn :=
  let c := mkConn true (closing c) (lastError c) (pending c) None
                  (promises c) (written c) (emitted c) (warnings c) (invoked c) (listeners c) in
  emit EmConnect c.

Definition clearPending (err : JsError) (c : Conn) : Conn * option JsError :=
  match pending c with
  | None => (c, Some (undefinedProperty "forEach"))
  | Some q => forEach q (λ callback, invoke callback (Some err) None) c
  end.

(** [this.lastError || new Error('Connection closed')] *)
Definition closeError (c : Conn) : JsError :=
  default (MkError "Error" "Connection closed") (lastError c).

Definition onClose (c : Conn) : Conn * option JsError :=
  let c := mkConn false (Some false) (lastError c) (pending c) (onceErrored c)
                  (promises c) (written c) (emitted c) (warnings c) (invoked c) (listeners c) in
  let c := emit EmClose c in
  clearPending (closeError c) c.

Definition onTimeout (c : Conn) : Conn := emit EmTimeout c.

(** [command.join(' ')] *)
Definition join (command : list string) : string := String.concat " " command.

(** [send(command)]: returns the promise of the response.  The executor
    runs at once; an exception in it rejects the promise. *)
Definition send (command : list string) (c : Conn) : nat * Conn :=
  let commandString := join command in
  let '(p, c) := newPromise c in
  let c := write (commandString +:+ CRLF) c in
  match pending c with
  | None => (p, reject p (undefinedProperty "push") c)
  | Some q => (p, set_pending (Some (q ++ [HSend p commandString])) c)
  end.

Definition onMessage (err : option JsError) (message : option string)
    (c : Conn) : Conn * option JsError :=
  match pending c with
  | None => (c, Some (undefinedProperty "shift"))
  | Some [] => (warn ("Dropped response: " +:+ default "undefined" message) c, None)
  | Some (callback :: q) => invoke callback err message (set_pending (Some q) c)
  end.

(** [onError(err)].  The connection is an [EventEmitter]: its
    [emit('error', err)] calls the listeners its user has attached, and
    throws [err] when there is none. *)
Definition onError (err : JsError) (c : Conn) : Conn * option JsError :=
  let c := mkConn (connected c) (closing c) (Some err) (pending c) (onceErrored c)
                  (promises c) (written c) (emitted c) (warnings c) (invoked c) (listeners c) in
  let c := emit (EmError err) c in
  match listeners c with
  | 0 => (c, Some err)
  | S _ => (c, None)
  end.

(** The socket emits ['error']: [onError], registered by [listen], runs
    first; unless it throws, [onceErrored] follows while [open] has it
    attached. *)
Definition socketError (err : JsError) (c : Conn) : Conn * option JsError :=
  match onError err c with
  | (c, Some x) => (c, Some x)
  | (c, None) =>
      match onceErrored c with
      | Some p => (set_onceErrored None (reject p err c), None)
      | None => (c, None)
      end
  end.

(** The user attaches an ['error'] listener to the connection, or removes
    one. *)
Definition on (c : Conn) : Conn :=
  mkConn (connected c) (closing c) (lastError c) (pending c) (onceErrored c)
         (promises c) (written c) (emitted c) (warnings c) (invoked c) (S (listeners c)).

Definition off (c : Conn) : Conn :=
  mkConn (connected c) (closing c) (lastError c) (pending c) (onceErrored c)
         (promises c) (written c) (emitted c) (warnings c) (invoked c) (pred (listeners c)).

(** What the socket and the parser do to a connection, and what its user
    does with it. *)
Inductive Event :=
| EvSend (command : list string)
| EvMessage (message : string)
| EvParserError (err : JsError)
| EvSocketError (err : JsError)
| EvClose
| EvOn
| EvOff.

Definition step (ev : Event) (c : Conn) : Conn * option nat * option JsError :=
  match ev with
  | EvSend command => let '(p, c') := send command c in (c', Some p, None)
  | EvMessage m => let '(c', x) := onMessage None (Some m) c in (c', None, x)
  | EvParserError e => let '(c', x) := onMessage (Some e) None c in (c', None, x)
  | EvSocketError e => let '(c', x) := socketError e c in (c', None, x)
  | EvClose => let '(c', x) := onClose c in (c', None, x)
  | EvOn => (on c, None, None)
  | EvOff => (off c, None, None)
  end.

(** Runs a trace; the promises returned by its [send]s, in order; stops at
    an exception that escapes a listener. *)
Fixpoint run (tr : list Event) (c : Conn) : Conn * list nat * option JsError :=
  match tr with
  | [] => (c, [], None)
  | ev :: tr' =>
      match step ev c with
      | (c', p, None) =>
          let '(c'', ps, x) := run tr' c' in (c'', option_list p ++ ps, x)
      | (c', p, Some x) => (c', option_list p, Some x)
      end
  end.

(** *** Vocabulary of the statements about traces *)

(** The command strings of the [send]s of a trace, in order. *)
Fixpoint commands (tr : list Event) : list string :=
  match tr with
  | [] => []
  | EvSend command :: tr' => join command :: commands tr'
  | _ :: tr' => commands tr'
  end.

(** The parsed messages of a trace, in arrival order. *)
Fixpoint messages (tr : list Event) : list string :=
  match tr with
  | [] => []
  | EvMessage m :: tr' => m :: messages tr'
  | _ :: tr' => messages tr'
  end.

(** A request/response exchange in which every message arrives while a
    handler is outstanding, [k] of them being outstanding at first. *)
Fixpoint exchange (k : nat) (tr : list Event) : bool :=
  match tr with
  | [] => true
  | EvSend _ :: tr' => exchange (S k) tr'
  | EvMessage _ :: tr' =>
      match k with
      | 0 => false
      | S k' => exchange k' tr'
      end
  | _ :: _ => false
  end.

(** The handlers [send] pushes for the given promises and commands. *)
Definition sendHandlers (ps : list nat) (cmds : list string) : list Handler :=
  zip_with HSend ps cmds.

(** The calls in which the handlers receive the messages, pairwise. *)
Definition answered (hs : list Handler) (ms : list string) : list Invocation :=
  zip_with (λ h m, (h, None, Some m)) hs ms.

(** The calls in which every handler receives the error [e]. *)
Definition flushed (e : JsError) (hs : list Handler) : list Invocation :=
  (λ h, (h, Some e, None)) <$> hs.

(** Every promise settled in [c] is in [c'] as it was in [c]. *)
Definition stable (c c' : Conn) : Prop :=
  ∀ p st, promises c !! p = Some st → st ≠ Pending → promises c' !! p = Some st.

(** Sends the commands one after the other; the promises returned. *)
Fixpoint sendAll (cmds : list (list string)) (c : Conn) : list nat * Conn :=
  match cmds with
  | [] => ([], c)
  | command :: cmds' =>
      let '(p, c) := send command c in
      let '(ps, c) := sendAll cmds' c in
      (p :: ps, c)
  end.

End WithGreeting.

(** *** Sample inputs *)

(** A parser that reads protocol version 2 from every greeting. *)
Definition sampleParse (response : string) : JsError + nat := inr 2.

(** A connection opened and greeted: nothing is outstanding. *)
Definition sampleReady : @Conn nat :=
  (onMessage sampleParse None (Some "HI") (open constructor).2).1.

Definition sampleCommands : list (list string) :=
  [["FETCH"; "default"]; ["BEAT"]].

(** Two commands, then their two responses. *)
Definition sampleExchange : list Event :=
  [EvSend ["FETCH"; "default"]; EvSend ["BEAT"]; EvMessage "$-1"; EvMessage "+OK"].

End Connection.

(** ** Worker *)

Module Worker.

(** A thrown value: an [Error] object, or any other value, by the text
    [String] gives of it and the one [util.inspect] gives. *)
Inductive Thrown :=
| ThrownError (e : JsError)
| ThrownValue (text inspected : string).

(** How a call (or an awaited promise) ends. *)
Inductive Completion (A : Type) :=
| Normal (a : A)
| Throw (e : Thrown).
Arguments Normal {A} a.
Arguments Throw {A} e.

(** Modelled from the spec: [wrapNonErrors] of [./wrap-non-errors], which
    is not among the sources; it "normalizes any raised value into a proper
    error object if it is not already one". *)
Definition wrapNonErrors (e : Thrown) : JsError :=
  match e with
  | ThrownError err => err
  | ThrownValue text _ => MkError "Error" text
  end.

Record JobPayload := mkJob {
  jid : string;
  jobtype : string;
  args : list string;
}.

(** What [await fn(...args)] yields: it throws (or the promise rejects), it
    gives a value that is not a function, or it gives a thunk.  The thunk
    is called with the context, of which it sees the job. *)
Inductive JobResult :=
| JobThrows (e : Thrown)
| JobValue
| JobThunk (thunk : JobPayload → option Thrown).

(** A truthy value read from the registry, by what [await fn(...args)]
    does with it.  Under a value that is not a function the call itself
    throws a [TypeError]. *)
Definition JobFunction : Type := list string → JobResult.

(** The registry object, read by [registry[jobtype]] and written by
    [registry[name] = fn]: its own properties, which hold a truthy value;
    what the lookup finds along its prototype chain under a name that is
    none of them ([None]: nothing, or a falsy value); and the names, none
    of them its own, that the chain keeps from being assigned through the
    object — it holds them read-only, or behind a setter that throws —
    with the [TypeError] the assignment throws.  Own properties are data
    properties, and so are those of the chain but for [__proto__] and the
    names it refuses; they are read without running code: an object with
    a getter that throws under a jobtype is not among these. *)
Record Registry := mkRegistry {
  own : gmap string JobFunction;
  inherited : string → option JobFunction;
  refuses : string → option JsError;
}.

(** [registry[key]], when it is truthy. *)
#[global] Instance registry_lookup : Lookup string JobFunction Registry :=
  λ key registry,
    match own registry !! key with
    | Some f => Some f
    | None => inherited registry key
    end.

(** What the realm the code runs in provides and the model reads. *)
Class Realm := {
  (** what a lookup finds in [Object.prototype]: the prototype of [{}] *)
  objectPrototype : string → option JobFunction;
  (** the names [Object.prototype] keeps an object from being assigned,
      [__proto__] apart: none, unless it was frozen *)
  objectRefuses : string → option JsError;
  (** what a lookup finds through a function that is the prototype of an
      object, under a name other than [__proto__]: along the function,
      [Function.prototype] and [Object.prototype] *)
  functionPrototype : JobFunction → string → option JobFunction;
  (** the names that chain keeps an object from being assigned, [__proto__]
      apart: the [name] and [length] of the function, which are read-only,
      and those behind an accessor that throws, on reads too ([caller] and
      [arguments] under a strict function), which [functionPrototype] is
      not to be asked for *)
  functionRefuses : JobFunction → string → option JsError;
  (** the message [assert] generates for a failed assertion given none *)
  generatedMessage : string;
}.

(** [{}] *)
Definition plainObject `{realm : Realm} : Registry :=
  mkRegistry ∅ objectPrototype objectRefuses.

Record MiddlewareContext := mkCtx {
  job : JobPayload;
  fn : option JobFunction;
}.

(** What an observer of one execution sees, in order. *)
Inductive Observed :=
| OUser (label : string)
| OLookup (jobtype : string)
| OCall (args : list string)
| OThunk.

(** One call of the composed executor: the context object every stage
    shares, the [index] variable of koa-compose's closure, and the
    observations so far. *)
Record Exec := mkExec {
  ctx : MiddlewareContext;
  index : Z;
  observed : list Observed;
}.

Definition M (A : Type) : Type := Exec → Completion A * Exec.

Definition ret {A} (a : A) : M A := λ x, (Normal a, x).

Definition throw {A} (e : Thrown) : M A := λ x, (Throw e, x).

Definition bind {A B} (m : M A) (k : A → M B) : M B :=
  λ x, match m x with
       | (Normal a, x') => k a x'
       | (Throw e, x') => (Throw e, x')
       end.

Notation "m >> k" := (bind m (λ _, k)) (at level 65, right associativity).

Definition observe (os : list Observed) : M unit :=
  λ x, (Normal tt, mkExec (ctx x) (index x) (observed x ++ os)).

(** A middleware function [(ctx, next) => ...]; [ctx] is the shared object
    of the execution state, [next] the continuation it may await. *)
Definition MiddlewareFunction : Type := M unit → M unit.

(** The onion-style user middleware: code, [await next()], code. *)
Definition onion (pre post : list string) : MiddlewareFunction :=
  λ next, observe (OUser <$> pre) >> next >> observe (OUser <$> post).

(** koa-compose's [dispatch(i)] over the stages from [i] on. *)
Fixpoint dispatch (middleware : list MiddlewareFunction) (i : Z) : M unit :=
  λ x,
    if (i <=? index x)%Z
    then (Throw (ThrownError (MkError "Error" "next() called multiple times")), x)
    else
      let x := mkExec (ctx x) i (observed x) in
      match middleware with
      | [] => (Normal tt, x)
      | f :: rest => f (dispatch rest (i + 1)) x
      end.

(** koa-compose's [compose(middleware)], called without an outer [next]. *)
Definition compose (middleware : list MiddlewareFunction) : M unit :=
  λ x, dispatch middleware 0 (mkExec (ctx x) (-1) (observed x)).

(** [new Error(`No jobtype registered: ${jobtype}`)] *)
Definition registryError (jobtype : string) : JsError :=
  MkError "Error" ("No jobtype registered: " +:+ jobtype).

Definition getJobFnFromRegistry (registry : Registry) : MiddlewareFunction :=
  λ next x,
    let jobtype := jobtype (job (ctx x)) in
    let x := mkExec (mkCtx (job (ctx x)) (registry !! jobtype)) (index x)
                    (observed x ++ [OLookup jobtype]) in
    match fn (ctx x) with
    | None => (Throw (ThrownError (registryError jobtype)), x)
    | Some _ => next x
    end.

Definition callJobFn : MiddlewareFunction :=
  λ next x,
    match fn (ctx x) with
    | None => (Throw (ThrownError (MkError "TypeError" "fn is not a function")), x)
    | Some fn =>
        let args := args (job (ctx x)) in
        let x := mkExec (ctx x) (index x) (observed x ++ [OCall args]) in
        match fn args with
        | JobThrows e => (Throw e, x)
        | JobValue => next x
        | JobThunk thunkOrPromise =>
            let x := mkExec (ctx x) (index x) (observed x ++ [OThunk]) in
            match thunkOrPromise (job (ctx x)) with
            | Some e => (Throw e, x)
            | None => next x
            end
        end
    end.

Definition createExecutor (registry : Registry)
    (middleware : list MiddlewareFunction) : M unit :=
  compose (middleware ++ [getJobFnFromRegistry registry; callJobFn]).

(** [this.execute({ job })]: the executor on a fresh context. *)
Definition execute (registry : Registry) (middleware : list MiddlewareFunction)
    (j : JobPayload) : Completion unit * Exec :=
  createExecutor registry middleware (mkExec (mkCtx j None) (-1) []).

(** *** Vocabulary of the statements about one execution *)

(** How the call of a job function on a job ends: the value it throws
    (itself, its promise or its thunk), or [None]. *)
Definition jobOutcome (f : JobFunction) (j : JobPayload) : option Thrown :=
  match f (args j) with
  | JobThrows e => Some e
  | JobValue => None
  | JobThunk thunk => thunk j
  end.

(** What is observed of the call of a job function: the call, and the call
    of the thunk when it returns one. *)
Definition invocation (f : JobFunction) (j : JobPayload) : list Observed :=
  OCall (args j) ::
  match f (args j) with
  | JobThunk _ => [OThunk]
  | _ => []
  end.

(** User middleware given by the labels of their code before and after
    [await next()]. *)
Definition onions (specs : list (list string * list string))
    : list MiddlewareFunction :=
  (λ spec, onion spec.1 spec.2) <$> specs.

(** The code before the continuation, first middleware first. *)
Definition entered (specs : list (list string * list string)) : list Observed :=
  OUser <$> concat (fst <$> specs).

(** The code after the continuation, last middleware first. *)
Definition exited_ (specs : list (list string * list string)) : list Observed :=
  OUser <$> concat (snd <$> reverse specs).

(** How the two built-in stages end on a job, and what is observed of
    them. *)
Definition executorOutcome (registry : Registry) (j : JobPayload)
    : Completion unit :=
  match registry !! jobtype j with
  | None => Throw (ThrownError (registryError (jobtype j)))
  | Some f =>
      match jobOutcome f j with
      | Some e => Throw e
      | None => Normal tt
      end
  end.

Definition builtinObserved (registry : Registry) (j : JobPayload)
    : list Observed :=
  OLookup (jobtype j) ::
  match registry !! jobtype j with
  | None => []
  | Some f => invocation f j
  end.

(** *** The client, as the worker sees it *)

Inductive ClientCall :=
| CFetch (queues : list string)
| CAck (jid : string)
| CFail (jid : string) (error : JsError)
| CBeat
| CClose.

#[global] Instance ClientCall_eq_dec : EqDecision ClientCall.
Proof. solve_decision. Defined.

(** The client is outside the worker: what each of its promises settles
    with is an input, which may depend on the calls made up to then. *)
Record Client := mkClient {
  fetch_ : list ClientCall → list string → Completion (option JobPayload);
  ack_ : list ClientCall → string → Completion unit;
  fail_ : list ClientCall → string → JsError → Completion unit;
  beat_ : list ClientCall → Completion string;
  close_ : list ClientCall → Completion unit;
}.

Inductive Emitted :=
| EmError (e : Thrown)
| EmFail (job : JobPayload) (error : Thrown).

(** *** The worker object *)

(** A promise returned by [tick(pid)]: where the call is suspended, or
    that it has returned. *)
Inductive Task :=
| AwaitFetch (pid : string)
| AwaitHandle (pid : string) (job : JobPayload)
| AwaitSleep (pid : string)
| Settled.

(** The promise executor of [stop]. *)
Inductive Shutdown :=
| NotStopping
| Draining (awaited : list nat)
| Closing
| Stopped
| Warned (e : Thrown).

Record State := mkState {
  (** [this.quieted], unset at first *)
  quieted : bool;
  (** [this.stopped] *)
  stopped : bool;
  (** the [setInterval] timer of [work] is active *)
  heartbeat : bool;
  (** the signal handlers are installed *)
  trapped : bool;
  (** slots the loop of [work] has yet to start *)
  starting : list string;
  (** every promise a call of [tick] returned, by index *)
  tasks : list Task;
  (** [this.processors]: slot label to its latest tick promise *)
  processors : gmap string nat;
  (** [setImmediate] callbacks not yet run, oldest first; each is [setTick(pid)] *)
  immediates : list string;
  (** every call of [tick], by slot, oldest first *)
  ticked : list string;
  (** calls on [this.client], oldest first *)
  calls : list ClientCall;
  (** [this.emit] calls *)
  emitted : list Emitted;
  (** where the promise executor of [stop] stands *)
  shutdown : Shutdown;
  (** the shutdown timer of [stop] is armed *)
  timeout : bool;
  (** the promise returned by [stop] is resolved *)
  resolved : bool;
  (** status given to [process.exit] *)
  exited : option Z;
  (** [console.warn] calls *)
  warnings : list Thrown;
  (** the ['error'] listeners the worker's user has attached to it; the
      class attaches none *)
  listeners : nat;
  (** the promises of [tick] that were rejected, by index, with the value *)
  rejections : gmap nat Thrown;
  (** what the [Promise.all] of [stop] is rejected with: the first
      rejection it has seen among the promises it awaits *)
  failure : option Thrown;
}.

Definition set_quieted (v : bool) (w : State) : State :=
  mkState v (stopped w) (heartbeat w) (trapped w) (starting w) (tasks w)
          (processors w) (immediates w) (ticked w) (calls w) (emitted w)
          (shutdown w) (timeout w) (resolved w) (exited w) (warnings w)
          (listeners w) (rejections w) (failure w).

Definition set_stopped (v : bool) (w : State) : State :=
  mkState (quieted w) v (heartbeat w) (trapped w) (starting w) (tasks w)
          (processors w) (immediates w) (ticked w) (calls w) (emitted w)
          (shutdown w) (timeout w) (resolved w) (exited w) (warnings w)
          (listeners w) (rejections w) (failure w).

Definition set_heartbeat (v : bool) (w : State) : State :=
  mkState (quieted w) (stopped w) v (trapped w) (starting w) (tasks w)
          (processors w) (immediates w) (ticked w) (calls w) (emitted w)
          (shutdown w) (timeout w) (resolved w) (exited w) (warnings w)
          (listeners w) (rejections w) (failure w).

Definition set_trapped (v : bool) (w : State) : State :=
  mkState (quieted w) (stopped w) (heartbeat w) v (starting w) (tasks w)
          (processors w) (immediates w) (ticked w) (calls w) (emitted w)
          (shutdown w) (timeout w) (resolved w) (exited w) (warnings w)
          (listeners w) (rejections w) (failure w).

Definition set_starting (v : list string) (w : State) : State :=
  mkState (quieted w) (stopped w) (heartbeat w) (trapped w) v (tasks w)
          (processors w) (immediates w) (ticked w) (calls w) (emitted w)
          (shutdown w) (timeout w) (resolved w) (exited w) (warnings w)
          (listeners w) (rejections w) (failure w).

Definition set_tasks (v : list Task) (w : State) : State :=
  mkState (quieted w) (stopped w) (heartbeat w) (trapped w) (starting w) v
          (processors w) (immediates w) (ticked w) (calls w) (emitted w)
          (shutdown w) (timeout w) (resolved w) (exited w) (warnings w)
          (listeners w) (rejections w) (failure w).

Definition set_processors (v : gmap string nat) (w : State) : State :=
  mkState (quieted w) (stopped w) (heartbeat w) (trapped w) (starting w)
          (tasks w) v (immediates w) (ticked w) (calls w) (emitted w)
          (shutdown w) (timeout w) (resolved w) (exited w) (warnings w)
          (listeners w) (rejections w) (failure w).

Definition set_immediates (v : list string) (w : State) : State :=
  mkState (quieted w) (stopped w) (heartbeat w) (trapped w) (starting w)
          (tasks w) (processors w) v (ticked w) (calls w) (emitted w)
          (shutdown w) (timeout w) (resolved w) (exited w) (warnings w)
          (listeners w) (rejections w) (failure w).

Definition set_ticked (v : list string) (w : State) : State :=
  mkState (quieted w) (stopped w) (heartbeat w) (trapped w) (starting w)
          (tasks w) (processors w) (immediates w) v (calls w) (emitted w)
          (shutdown w) (timeout w) (resolved w) (exited w) (warnings w)
          (listeners w) (rejections w) (failure w).

Definition set_calls (v : list ClientCall) (w : State) : State :=
  mkState (quieted w) (stopped w) (heartbeat w) (trapped w) (starting w)
          (tasks w) (processors w) (immediates w) (ticked w) v (emitted w)
          (shutdown w) (timeout w) (resolved w) (exited w) (warnings w)
          (listeners w) (rejections w) (failure w).

Definition set_emitted (v : list Emitted) (w : State) : State :=
  mkState (quieted w) (stopped w) (heartbeat w) (trapped w) (starting w)
          (tasks w) (processors w) (immediates w) (ticked w) (calls w) v
          (shutdown w) (timeout w) (resolved w) (exited w) (warnings w)
          (listeners w) (rejections w) (failure w).

Definition set_shutdown (v : Shutdown) (w : State) : State :=
  mkState (quieted w) (stopped w) (heartbeat w) (trapped w) (starting w)
          (tasks w) (processors w) (immediates w) (ticked w) (calls w)
          (emitted w) v (timeout w) (resolved w) (exited w) (warnings w)
          (listeners w) (rejections w) (failure w).

Definition set_timeout (v : bool) (w : State) : State :=
  mkState (quieted w) (stopped w) (heartbeat w) (trapped w) (starting w)
          (tasks w) (processors w) (immediates w) (ticked w) (calls w)
          (emitted w) (shutdown w) v (resolved w) (exited w) (warnings w)
          (listeners w) (rejections w) (failure w).

Definition set_resolved (v : bool) (w : State) : State :=
  mkState (quieted w) (stopped w) (heartbeat w) (trapped w) (starting w)
          (tasks w) (processors w) (immediates w) (ticked w) (calls w)
          (emitted w) (shutdown w) (timeout w) v (exited w) (warnings w)
          (listeners w) (rejections w) (failure w).

Definition set_exited (v : option Z) (w : State) : State :=
  mkState (quieted w) (stopped w) (heartbeat w) (trapped w) (starting w)
          (tasks w) (processors w) (immediates w) (ticked w) (calls w)
          (emitted w) (shutdown w) (timeout w) (resolved w) v (warnings w)
          (listeners w) (rejections w) (failure w).

Definition set_warnings (v : list Thrown) (w : State) : State :=
  mkState (quieted w) (stopped w) (heartbeat w) (trapped w) (starting w)
          (tasks w) (processors w) (immediates w) (ticked w) (calls w)
          (emitted w) (shutdown w) (timeout w) (resolved w) (exited w) v
          (listeners w) (rejections w) (failure w).

Definition set_listeners (v : nat) (w : State) : State :=
  mkState (quieted w) (stopped w) (heartbeat w) (trapped w) (starting w)
          (tasks w) (processors w) (immediates w) (ticked w) (calls w)
          (emitted w) (shutdown w) (timeout w) (resolved w) (exited w)
          (warnings w) v (rejections w) (failure w).

Definition set_rejections (v : gmap nat Thrown) (w : State) : State :=
  mkState (quieted w) (stopped w) (heartbeat w) (trapped w) (starting w)
          (tasks w) (processors w) (immediates w) (ticked w) (calls w)
          (emitted w) (shutdown w) (timeout w) (resolved w) (exited w)
          (warnings w) (listeners w) v (failure w).

Definition set_failure (v : option Thrown) (w : State) : State :=
  mkState (quieted w) (stopped w) (heartbeat w) (trapped w) (starting w)
          (tasks w) (processors w) (immediates w) (ticked w) (calls w)
          (emitted w) (shutdown w) (timeout w) (resolved w) (exited w)
          (warnings w) (listeners w) (rejections w) v.

(** The options of the constructor, and the fields it derives from them.
    Numbers: [concurrency] is only compared with the index of a loop, and
    is a rational here, as every finite number is (a [NaN] is falsy, as
    [0] is; under an infinite concurrency the loop of [work] does not
    end, and there is no worker to speak of); the two delays are
    multiplied, and are doubles. *)
Record WorkerOptions := mkOptions {
  opt_concurrency : option Q;
  opt_timeout : option float;
  opt_beatInterval : option float;
  opt_queues : option (list string);
  opt_middleware : option (list MiddlewareFunction);
  opt_registry : option Registry;
}.

Record Config := mkConfig {
  concurrency : Q;
  shutdownTimeout : float;
  beatInterval : float;
  queues : list string;
  middleware : list MiddlewareFunction;
  registry : Registry;
}.

(** [x || d] on an optional number: [undefined], [0], [-0] and [NaN]
    give [d]. *)
Definition orNumber (x : option float) (d : float) : float :=
  match x with
  | Some x => if (is_zero x || is_nan x)%bool then d else x
  | None => d
  end.

(** The same on a rational: [undefined] and [0] give [d]. *)
Definition orCount (c : option Q) (d : Q) : Q :=
  match c with
  | Some c => if Qeq_bool c 0 then d else c
  | None => d
  end.

Definition constructor `{realm : Realm} (options : WorkerOptions) : Config :=
  let queues := default [] (opt_queues options) in
  mkConfig (orCount (opt_concurrency options) 20)
           (orNumber (opt_timeout options) 8 * 1000)%float
           (orNumber (opt_beatInterval options) 15 * 1000)%float
           (if decide (length queues = 0) then ["default"] else queues)
           (default [] (opt_middleware options))
           (default plainObject (opt_registry options)).

(** The number of indices [0], [1], ... below [this.concurrency]: the
    iterations of the loop of [work], for a concurrency its index can
    count up to. *)
Definition slots (this : Config) : nat := Z.to_nat (Qceiling (concurrency this)).

(** The fields of a fresh worker object. *)
Definition initial : State :=
  mkState false false false false [] [] ∅ [] [] [] [] NotStopping false
          false None [] 0 ∅ None.

Definition call (c : ClientCall) (w : State) : State :=
  set_calls (calls w ++ [c]) w.

(** [this.emit]: listeners are outside the worker and are taken to
    return; the call is logged. *)
Definition emit (e : Emitted) (w : State) : State :=
  set_emitted (emitted w ++ [e]) w.

Section Methods.

Context (this : Config) (client : Client).

(** The [catch] block of [handle]. *)
Definition handle_catch (j : JobPayload) (e : Thrown) (w : State)
    : Completion string * State :=
  let error := wrapNonErrors e in
  let settled := fail_ client (calls w) (jid j) error in
  let w := call (CFail (jid j) error) w in
  match settled with
  | Throw e' => (Throw e', w)
  | Normal _ => (Normal "fail", emit (EmFail j e) w)
  end.

Definition handle (j : JobPayload) (w : State) : Completion string * State :=
  match fst (execute (registry this) (middleware this) j) with
  | Throw e => handle_catch j e w
  | Normal _ =>
      let settled := ack_ client (calls w) (jid j) in
      let w := call (CAck (jid j)) w in
      match settled with
      | Throw e => handle_catch j e w
      | Normal _ => (Normal "ack", w)
      end
  end.

(** [tick(pid)] up to its first suspension: the state of the promise it
    returns.  The [fetch] is issued here and settles in a later step. *)
Definition tick (pid : string) (w : State) : Task * State :=
  let w := set_ticked (ticked w ++ [pid]) w in
  if quieted w then (Settled, w)
  else (AwaitFetch pid, call (CFetch (queues this)) w).

Definition setTick (pid : string) (w : State) : State :=
  let '(t, w) := tick pid w in
  set_processors (<[pid := length (tasks w)]> (processors w))
                 (set_tasks (tasks w ++ [t]) w).

(** The [finally] block of [tick], after which the call returns. *)
Definition tick_finally (t : nat) (pid : string) (w : State) : State :=
  set_tasks (<[t := Settled]> (tasks w))
            (set_immediates (immediates w ++ [pid]) w).

(** What [emit('error', e)] throws on an emitter without an ['error']
    listener: [e] itself when it is an [Error], and else an [Error] that
    quotes what [util.inspect] gives of it. *)
Definition unhandled (e : Thrown) : Thrown :=
  match e with
  | ThrownError _ => e
  | ThrownValue _ inspected =>
      ThrownError (MkError "Error" ("Unhandled error. (" +:+ inspected +:+ ")"))
  end.

(** The promise of task [t] is rejected.  When the [Promise.all] of [stop]
    awaits it and has seen no rejection yet, this is the one it is
    rejected with. *)
Definition rejectTick (t : nat) (e : Thrown) (w : State) : State :=
  let w := set_rejections (<[t := e]> (rejections w)) w in
  match shutdown w, failure w with
  | Draining ts, None => if bool_decide (t ∈ ts) then set_failure (Some e) w else w
  | _, _ => w
  end.

(** The [catch] block of [tick].  With an ['error'] listener on the
    worker: the error is emitted, up to the [await sleep(1000)].  With
    none, [this.emit("error", e)] throws: the [finally] block runs and the
    promise of the call is rejected.  (What the runtime does about a
    rejection that nothing handles is not part of the worker.) *)
Definition tick_catch (t : nat) (pid : string) (e : Thrown) (w : State) : State :=
  let w := emit (EmError e) w in
  match listeners w with
  | S _ => set_tasks (<[t := AwaitSleep pid]> (tasks w)) w
  | 0 => rejectTick t (unhandled e) (tick_finally t pid w)
  end.

Definition quiet (w : State) : State := set_quieted true w.

(** [this.inProgress] *)
Definition inProgress (w : State) : list nat := (map_to_list (processors w)).*2.

(** The rejection [Promise.all(this.inProgress)] sees first when it is
    called: that of the first promise of [this.processors] that is
    rejected by then.  [Object.values] lists them by slot, in the order
    the slots were first given a promise, which is that of their first
    call of [tick]. *)
Definition awaitedFailure (w : State) : option Thrown :=
  head (omap (λ pid, processors w !! pid ≫= λ t, rejections w !! t) (ticked w)).

(** [stop()] up to the first suspension of its promise executor.  One
    executor is modelled: the runs considered below call [stop] once. *)
Definition stop (w : State) : State :=
  let w := set_trapped false w in
  let w := quiet w in
  let w := set_stopped true w in
  let w := set_heartbeat false w in
  let w := set_timeout true w in
  set_failure (awaitedFailure w) (set_shutdown (Draining (inProgress w)) w).

(** [beat()], the response already there. *)
Definition beat (w : State) : Completion unit * State :=
  let response := beat_ client (calls w) in
  let w := call CBeat w in
  match response with
  | Throw e => (Throw e, w)
  | Normal response =>
      if decide (response = "quiet") then (Normal tt, quiet w)
      else if decide (response = "terminate") then (Normal tt, stop w)
      else (Normal tt, w)
  end.

(** The slot labels of [work]: [p1] to [pN]. *)
Definition labels (n : nat) : list string :=
  (λ index, "p" +:+ pretty (index + 1)) <$> seq 0 n.

(** [work()] from the first heartbeat to the entry of its loop, whose
    iterations are the [LStart] steps below. *)
Definition work (w : State) : Completion unit * State :=
  match beat w with
  | (Throw e, w) => (Throw e, w)
  | (Normal _, w) =>
      let w := set_heartbeat true w in
      let w := set_trapped true w in
      (Normal tt, set_starting (labels (slots this)) w)
  end.

(** What can happen next to a working worker: the loop of [work] starts
    its next slot; the oldest [setImmediate] callback runs; the [fetch], the
    [handle] or the [sleep] that task [t] awaits settles; [quiet()] is
    called; the heartbeat timer calls [beat()]; [stop()] is called; the
    [Promise.all] of [stop] fulfils; the [close] its drain path awaits
    settles; the shutdown timer fires; the [Promise.all] of [stop] is
    rejected; the user attaches an ['error'] listener to the worker, or
    removes one. *)
Inductive Label :=
| LStart
| LImmediate
| LFetch (t : nat)
| LHandle (t : nat)
| LSleep (t : nat)
| LQuiet
| LBeat
| LStop
| LDrained
| LClosed
| LTimeout
| LDrainFailed
| LOn
| LOff.

Definition allSettled (ts : list nat) (w : State) : bool :=
  forallb (λ t, match tasks w !! t with Some Settled => true | _ => false end) ts.

Definition noneRejected (ts : list nat) (w : State) : bool :=
  forallb (λ t, match rejections w !! t with None => true | Some _ => false end) ts.

(** One step; [None] when the step cannot happen in this state.  Nothing
    happens after [process.exit]. *)
Definition step (l : Label) (w : State) : option State :=
  match exited w with Some _ => None | None =>
  match l with
  | LStart =>
      match starting w with
      | pid :: rest => Some (setTick pid (set_starting rest w))
      | [] => None
      end
  | LImmediate =>
      match immediates w with
      | pid :: rest => Some (setTick pid (set_immediates rest w))
      | [] => None
      end
  | LFetch t =>
      match tasks w !! t with
      | Some (AwaitFetch pid) =>
          match fetch_ client (calls w) (queues this) with
          | Normal (Some j) => Some (set_tasks (<[t := AwaitHandle pid j]> (tasks w)) w)
          | Normal None => Some (tick_finally t pid w)
          | Throw e => Some (tick_catch t pid e w)
          end
      | _ => None
      end
  | LHandle t =>
      match tasks w !! t with
      | Some (AwaitHandle pid j) =>
          match handle j w with
          | (Normal _, w') => Some (tick_finally t pid w')
          | (Throw e, w') => Some (tick_catch t pid e w')
          end
      | _ => None
      end
  | LSleep t =>
      match tasks w !! t with
      | Some (AwaitSleep pid) => Some (tick_finally t pid w)
      | _ => None
      end
  | LQuiet => Some (quiet w)
  | LBeat => if heartbeat w then Some (snd (beat w)) else None
  | LStop =>
      match shutdown w with
      | NotStopping => Some (stop w)
      | _ => None
      end
  | LDrained =>
      match shutdown w with
      | Draining ts =>
          if (allSettled ts w && noneRejected ts w)%bool
          then Some (set_shutdown Closing (call CClose w))
          else None
      | _ => None
      end
  | LClosed =>
      match shutdown w with
      | Closing =>
          match close_ client (calls w) with
          | Normal _ =>
              Some (set_shutdown Stopped (set_resolved true (set_timeout false w)))
          | Throw e =>
              Some (set_shutdown (Warned e) (set_warnings (warnings w ++ [e]) w))
          end
      | _ => None
      end
  | LTimeout =>
      if timeout w
      then Some (set_exited (Some 1%Z)
                   (set_resolved true (call CClose (set_timeout false w))))
      else None
  | LDrainFailed =>
      match shutdown w, failure w with
      | Draining _, Some e =>
          Some (set_shutdown (Warned e) (set_warnings (warnings w ++ [e]) w))
      | _, _ => None
      end
  | LOn => Some (set_listeners (S (listeners w)) w)
  | LOff => Some (set_listeners (pred (listeners w)) w)
  end end.

Fixpoint steps (ls : list Label) (w : State) : option State :=
  match ls with
  | [] => Some w
  | l :: ls' =>
      match step l w with
      | Some w' => steps ls' w'
      | None => None
      end
  end.

End Methods.

(** *** Vocabulary of the statements about runs *)

Definition isFetch (c : ClientCall) : bool :=
  match c with CFetch _ => true | _ => false end.

Definition isClose (c : ClientCall) : bool :=
  match c with CClose => true | _ => false end.

(** The number of [fetch] calls, and of [close] calls, made so far. *)
Definition fetchCount (cs : list ClientCall) : nat := count isFetch cs.
Definition fetches (w : State) : nat := fetchCount (calls w).
Definition closes (w : State) : nat := count isClose (calls w).

(** A call of [tick] for the slot is suspended in this task. *)
Definition running (pid : string) (t : Task) : bool :=
  match t with
  | AwaitFetch p | AwaitHandle p _ | AwaitSleep p => bool_decide (p = pid)
  | Settled => false
  end.

Definition occurrences (pid : string) (l : list string) : nat :=
  count (λ p, bool_decide (p = pid)) l.

(** The calls of [tick] made for a slot so far. *)
Definition ticks (pid : string) (w : State) : nat := occurrences pid (ticked w).

(** The calls of [tick] a slot still has coming: it is yet to be started,
    a [setImmediate] callback for it is queued, or its current call is
    suspended and will reschedule it. *)
Definition due (pid : string) (w : State) : nat :=
  occurrences pid (starting w) + occurrences pid (immediates w)
  + count (running pid) (tasks w).

(** All the tasks [ts] are settled, none by a rejection. *)
Definition fulfilled (ts : list nat) (w : State) : Prop :=
  allSettled ts w = true ∧ noneRejected ts w = true.

(** Where a worker stands between its one call of [stop] and the firing
    of the shutdown timer, [base] being the [close] calls made before the
    call, [res] whether its promise was resolved then and [ts] the tasks
    its [Promise.all] awaits: the timer stays armed until the drain path
    has closed the client, which it does once, when the awaited tasks are
    fulfilled; when one of them is rejected, or the close is, the error is
    logged and nothing else is done. *)
Definition stopping (base : nat) (res : bool) (ts : list nat) (w : State) : Prop :=
  heartbeat w = false ∧ exited w = None ∧
  match shutdown w with
  | NotStopping => False
  | Draining ts' =>
      ts' = ts ∧ closes w = base ∧ timeout w = true ∧ resolved w = res
      ∧ (is_Some (failure w) → noneRejected ts w = false)
  | Closing =>
      closes w = S base ∧ timeout w = true ∧ resolved w = res ∧ fulfilled ts w
  | Warned e =>
      timeout w = true ∧ resolved w = res ∧ e ∈ warnings w
      ∧ ((closes w = base ∧ noneRejected ts w = false)
         ∨ (closes w = S base ∧ fulfilled ts w))
  | Stopped =>
      closes w = S base ∧ timeout w = false ∧ resolved w = true ∧ fulfilled ts w
  end.

(** *** Sample inputs *)

Definition sampleJob : JobPayload := mkJob "abc" "Noop" [].

(** A job whose function throws a string, and one of no registered type. *)
Definition failingJob : JobPayload := mkJob "def" "Boom" [].
Definition strayJob : JobPayload := mkJob "ghi" "Missing" [].

(** A job whose type, [toString], names a method every plain object
    inherits. *)
Definition inheritedJob : JobPayload := mkJob "jkl" "toString" [].

(** A realm, by what the samples read of it: [Object.prototype] has the
    method [toString], which called as [fn(...args)] returns a string,
    gives itself under [__proto__], which is no function, and refuses
    nothing; a function has its method [call], which called that way
    throws, and keeps its [name] read-only. *)
Definition sampleRealm : Realm :=
  {| objectPrototype key :=
       if decide (key = "toString") then Some (λ _, JobValue)
       else if decide (key = "__proto__")
       then Some (λ _, JobThrows (ThrownError (MkError "TypeError" "fn is not a function")))
       else None;
     objectRefuses _ := None;
     functionPrototype _ key :=
       if decide (key = "call")
       then Some (λ _, JobThrows (ThrownError (MkError "TypeError"
                    "Function.prototype.call was called on undefined, which is undefined and not a function")))
       else None;
     functionRefuses _ key :=
       if decide (key = "name")
       then Some (MkError "TypeError"
                    "Cannot assign to read only property 'name' of object '#<Object>'")
       else None;
     generatedMessage := "The expression evaluated to a falsy value" |}.

(** A plain object on which two job functions are registered. *)
Definition sampleRegistry : Registry :=
  mkRegistry
    (<["Noop" := λ _, JobValue]> {["Boom" := λ _, JobThrows (ThrownValue "boom" "'boom'")]})
    (objectPrototype (Realm := sampleRealm))
    (objectRefuses (Realm := sampleRealm)).

(** A middleware that returns without calling [next]. *)
Definition shortCircuit : MiddlewareFunction := λ _, ret tt.

Definition sampleError : Thrown :=
  ThrownError (MkError "Error" "Connection closed").

(** A client whose first [fetch] gives the sample job and whose later ones
    give none; [ack] and [fail] resolve or reject as told. *)
Definition sampleClient (ackOk failOk : bool) : Client :=
  mkClient
    (λ cs _, if decide (fetchCount cs = 1) then Normal (Some sampleJob) else Normal None)
    (λ _ _, if ackOk then Normal tt else Throw sampleError)
    (λ _ _ _, if failOk then Normal tt else Throw sampleError)
    (λ _, Normal "")
    (λ _, Normal tt).

(** A worker with one slot and the sample registry. *)
Definition sampleWorker (middleware : list MiddlewareFunction) : Config :=
  mkConfig 1%Q 8000%float 15000%float ["default"] middleware sampleRegistry.

(** That worker after [work()], its slot started and the sample job
    fetched: the slot is inside [handle]. *)
Definition sampleMidJob : State :=
  default initial
    (steps (sampleWorker []) (sampleClient true true) [LStart; LFetch 0]
       (work (sampleWorker []) (sampleClient true true) initial).2).

End Worker.

(** ** Connection: the rest of its interface *)

Module ConnectionApi.

Import Connection.

Section WithGreeting.

Context {Greeting : Type} (parseGreeting : string → JsError + Greeting).

(** The [AssertionError] of [assert.strictEqual] with the message
    [sendWithAssert] gives it. *)
Definition assertionError (expectedResponse : string) (response : option string)
    : JsError :=
  MkError "AssertionError"
    ("expected " +:+ expectedResponse +:+ " response, but got "
     +:+ default "undefined" response).

(** [sendWithAssert(command, expectedResponse)] up to its [await]: the
    command is sent; the call is known by the promise of that [send] and
    the response it expects. *)
Definition sendWithAssert (command : list string) (expectedResponse : string)
    (c : @Conn Greeting) : (nat * string) * @Conn Greeting :=
  let '(p, c) := send command c in ((p, expectedResponse), c).

(** The promise [sendWithAssert] returned, read off the promise it awaits:
    a rejection is passed on, a response is compared with [===].  (The
    promise of a [send] is never resolved with a greeting.) *)
Definition asserted (call : nat * string) (c : @Conn Greeting)
    : @PromiseState Greeting :=
  match promises c !! call.1 with
  | Some (Resolved (VResponse response)) =>
      if decide (response = Some call.2) then Resolved (VResponse response)
      else Rejected (assertionError call.2 response)
  | Some (Rejected e) => Rejected e
  | _ => Pending
  end.

(** A connection with the listeners that [close] has put on the socket's
    ['close'] event, oldest first; each resolves one promise. *)
Record Socket := mkSocket {
  conn : @Conn Greeting;
  closeListeners : list nat;
}.

(** [close()]: returns the promise resolved when the socket has closed. *)
Definition close (s : Socket) : nat * Socket :=
  let c := conn s in
  let c := mkConn (connected c) (Some true) (lastError c) (pending c) (onceErrored c)
                  (promises c) (written c) (emitted c) (warnings c) (invoked c)
                  (listeners c) in
  let '(p, c) := newPromise c in
  (p, mkSocket (write ("END" +:+ CRLF) c) (closeListeners s ++ [p])).

(** The socket emits ['close']: [onClose], registered by [listen], runs
    first, then the listeners of [close], which are then gone.  A listener
    that throws keeps the later ones from running. *)
Definition socketClose (s : Socket) : Socket * option JsError :=
  match onClose parseGreeting (conn s) with
  | (c, Some x) => (mkSocket c (closeListeners s), Some x)
  | (c, None) =>
      (mkSocket (foldl (λ c p, resolve p (VResponse None) c) c (closeListeners s)) [],
       None)
  end.

(** The frames [send] writes for the given command strings. *)
Definition frames (cmds : list string) : list string :=
  (λ commandString, commandString +:+ CRLF) <$> cmds.

(** The messages and parser errors of a trace: what [onMessage] gets. *)
Fixpoint inbound (tr : list Event) : nat :=
  match tr with
  | [] => 0
  | (EvMessage _ | EvParserError _) :: tr' => S (inbound tr')
  | _ :: tr' => inbound tr'
  end.

(** The socket does not close in this trace. *)
Definition staysOpen (tr : list Event) : bool :=
  forallb (λ ev, match ev with EvClose => false | _ => true end) tr.

End WithGreeting.

End ConnectionApi.

(** ** Mutation *)

Module Mutation.

Inductive Verb := CLEAR | KILL | DISCARD | REQUEUE.

Inductive Target := RETRIES | SCHEDULED | DEAD.

Definition verbText (v : Verb) : string :=
  match v with
  | CLEAR => "clear"
  | KILL => "kill"
  | DISCARD => "discard"
  | REQUEUE => "requeue"
  end.

Definition targetText (t : Target) : string :=
  match t with
  | RETRIES => "retries"
  | SCHEDULED => "scheduled"
  | DEAD => "dead"
  end.

(** A value given to a method: a string, an array, or anything else. *)
#[warnings="-register-all"]
Inductive JsArg :=
| JString (s : string)
| JArray (items : list JsArg)
| JOther.

Record Filter := mkFilter {
  jobtype : option string;
  pattern : option string;
  jids : option (list JsArg);
  regexp : option string;
}.

(** The fields of a [Mutation]; [target] is set by whoever constructs it. *)
Record Mutation := mkMutation {
  target : option Target;
  filter : Filter;
  cmd : option Verb;
}.

(** The fields after the constructor: [filter = {}]. *)
Definition constructor : Mutation :=
  mkMutation None (mkFilter None None None None) None.

Definition ofType (jobtype : JsArg) (m : Mutation) : JsError + Mutation :=
  match jobtype with
  | JString s =>
      inr (mkMutation (target m)
             (mkFilter (Some s) (pattern (filter m)) (jids (filter m)) (regexp (filter m)))
             (cmd m))
  | _ => inl (MkError "Error" "jobtype given to ofType must be a string")
  end.

(** [withJids(...jids)]: a first argument that is an array stands for the
    whole list. *)
Definition withJids (jids : list JsArg) (m : Mutation) : Mutation :=
  let ids := match jids with
             | JArray items :: _ => items
             | _ => jids
             end in
  mkMutation (target m)
    (mkFilter (jobtype (filter m)) (pattern (filter m)) (Some ids) (regexp (filter m)))
    (cmd m).

(** The message of the error [matching] throws, after [trim()]. *)
Definition matchingMessage : string :=
  "Argument given to matching() must be a redis SCAN compatible pattern string,"
  +:+ String (Ascii.ascii_of_nat 10)
        ("other object types cannot be translated."
  +:+ String (Ascii.ascii_of_nat 10)
        ("See the Redis SCAN documentation for pattern matching examples."
  +:+ String (Ascii.ascii_of_nat 10) "https://redis.io/commands/scan")).

Definition matching (pattern_ : JsArg) (m : Mutation) : JsError + Mutation :=
  match pattern_ with
  | JString s =>
      inr (mkMutation (target m)
             (mkFilter (jobtype (filter m)) (pattern (filter m)) (jids (filter m)) (Some s))
             (cmd m))
  | _ => inl (MkError "Error" matchingMessage)
  end.

(** [toJSON()]: the object [{ cmd, target, filter }]. *)
Definition toJSON (m : Mutation) : option Verb * option Target * Filter :=
  (cmd m, target m, filter m).

Section WithEncode.

(** [encode] of [./encode], which is not among the sources. *)
Context (encode : option Verb * option Target * Filter → string).

(** [send()]: the arguments of [this.client.sendWithAssert]. *)
Definition send (m : Mutation) : list string * string :=
  (["MUTATE"; encode (toJSON m)], "OK").

(** [clear()], [kill()], [discard()], [requeue()]: the mutation afterwards
    and the call made on the client. *)
Definition execute (v : Verb) (m : Mutation) : Mutation * (list string * string) :=
  let m := mkMutation (target m) (filter m) (Some v) in
  (m, send m).

(** A call on a mutation. *)
Inductive Call :=
| OfType (jobtype : JsArg)
| WithJids (jids : list JsArg)
| Matching (pattern_ : JsArg)
| Execute (v : Verb).

(** A chain of calls on one mutation: the mutation at the end, the calls
    made on the client, and the error that broke the chain off, if any. *)
Fixpoint chain (calls : list Call) (m : Mutation)
    : Mutation * list (list string * string) * option JsError :=
  match calls with
  | [] => (m, [], None)
  | call :: rest =>
      match call with
      | OfType a =>
          match ofType a m with
          | inl e => (m, [], Some e)
          | inr m' => chain rest m'
          end
      | WithJids l => chain rest (withJids l m)
      | Matching a =>
          match matching a m with
          | inl e => (m, [], Some e)
          | inr m' => chain rest m'
          end
      | Execute v =>
          let '(m', sent) := execute v m in
          let '(m'', more, x) := chain rest m' in
          (m'', sent :: more, x)
      end
  end.

End WithEncode.

(** *** Vocabulary of the statements about chains *)

(** What a call sets, when it sets it. *)
Definition jobtypeOf (c : Call) : option string :=
  match c with OfType (JString s) => Some s | _ => None end.

Definition jidsOf (c : Call) : option (list JsArg) :=
  match c with
  | WithJids (JArray items :: _) => Some items
  | WithJids l => Some l
  | _ => None
  end.

Definition regexpOf (c : Call) : option string :=
  match c with Matching (JString s) => Some s | _ => None end.

Definition verbOf (c : Call) : option Verb :=
  match c with Execute v => Some v | _ => None end.

(** The value the last call of a kind has set, or else the one that was
    there. *)
Definition latest {A} (f : Call → option A) (calls : list Call) (d : option A)
    : option A :=
  match last (omap f calls) with
  | Some a => Some a
  | None => d
  end.

(** The call is refused: its argument is not a string. *)
Definition refused (c : Call) : bool :=
  match c with
  | OfType (JString _) | Matching (JString _) | WithJids _ | Execute _ => false
  | OfType _ | Matching _ => true
  end.

(** A sample chain: [ofType('SendEmail').withJids(['a', 'b']).kill()]. *)
Definition sampleChain : list Call :=
  [OfType (JString "SendEmail");
   WithJids [JArray [JString "a"; JString "b"]];
   Execute KILL].

(** A sample [encode]: the texts of the verb and of the target. *)
Definition sampleEncode (json : option Verb * option Target * Filter) : string :=
  default "-" (verbText <$> json.1.1) +:+ " " +:+ default "-" (targetText <$> json.1.2).

End Mutation.

(** ** The faktory singleton *)

Module Faktory.

Import Worker.

(** The closure of [faktory()]: the two shared objects and the worker.  A
    worker is kept with the fields its constructor derived, the middleware
    being those its executor was composed of, and with its state; the
    registry it reads is the shared object itself. *)
Record Singleton := mkSingleton {
  middleware_ : list MiddlewareFunction;
  registry_ : Registry;
  worker : option (Config * State);
}.

Section WithRealm.

Context `{realm : Realm}.

(** [faktory()]: [middleware = []], [registry = {}], no worker. *)
Definition faktory : Singleton := mkSingleton [] plainObject None.

Definition assertion (message : string) : JsError :=
  MkError "AssertionError" message.

(** [use(fn)]; [None] stands for a value that is not a function. *)
Definition use (fn : option MiddlewareFunction) (f : Singleton)
    : JsError + Singleton :=
  match fn with
  | None => inl (assertion generatedMessage)
  | Some fn => inr (mkSingleton (middleware_ f ++ [fn]) (registry_ f) (worker f))
  end.

(** [registry[name] = fn] in strict code, [fn] a function, on the [{}] of
    [faktory()] as the assignments before have left it.  A property of its
    own is overwritten.  Else, under [__proto__] the object inherits the
    accessor of [Object.prototype], whose setter makes [fn] its prototype:
    [registry.__proto__] is [fn] from then on, and the other names that
    are not its own are looked up, and refused, along [fn].  Else, a name
    that the prototype chain refuses makes the assignment throw.  Else the
    assignment writes a property of its own. *)
Definition setProperty (name : string) (fn : JobFunction) (registry : Registry)
    : JsError + Registry :=
  match own registry !! name with
  | Some _ =>
      inr (mkRegistry (<[name := fn]> (own registry)) (inherited registry)
             (refuses registry))
  | None =>
      if decide (name = "__proto__")
      then inr (mkRegistry (own registry)
                  (λ key, if decide (key = "__proto__") then Some fn
                          else functionPrototype fn key)
                  (functionRefuses fn))
      else match refuses registry name with
           | Some e => inl e
           | None =>
               inr (mkRegistry (<[name := fn]> (own registry))
                      (inherited registry) (refuses registry))
           end
  end.

Definition register (name : string) (fn : option JobFunction) (f : Singleton)
    : JsError + Singleton :=
  match fn with
  | None => inl (assertion "a registered job must be a function")
  | Some fn =>
      match setProperty name fn (registry_ f) with
      | inl e => inl e
      | inr registry => inr (mkSingleton (middleware_ f) registry (worker f))
      end
  end.

(** [Object.assign({}, options, { registry, middleware })] *)
Definition assign (options : WorkerOptions) (f : Singleton) : WorkerOptions :=
  mkOptions (opt_concurrency options) (opt_timeout options)
            (opt_beatInterval options) (opt_queues options)
            (Some (middleware_ f)) (Some (registry_ f)).

(** [work(options)]: how the call ends, and the singleton afterwards.  The
    client of the new worker is an input. *)
Definition work (client : Client) (options : WorkerOptions) (f : Singleton)
    : Completion unit * Singleton :=
  match worker f with
  | Some _ =>
      (Throw (ThrownError (MkError "Error" "can only call .work once per singleton")), f)
  | None =>
      let this := Worker.constructor (assign options f) in
      let '(r, w) := Worker.work this client initial in
      (r, mkSingleton (middleware_ f) (registry_ f) (Some (this, w)))
  end.

(** [stop()]: the singleton afterwards and, when a worker was there, that
    worker after its [stop()] was called. *)
Definition stop (f : Singleton) : Singleton * option State :=
  match worker f with
  | Some (this, w) =>
      (mkSingleton (middleware_ f) (registry_ f) None, Some (Worker.stop w))
  | None => (f, None)
  end.

End WithRealm.

(** The worker as it runs now: its executor reads the shared registry. *)
Definition running (f : Singleton) : option (Config * State) :=
  (λ '(this, w),
     (mkConfig (concurrency this) (shutdownTimeout this) (beatInterval this)
               (queues this) (middleware this) (registry_ f), w))
  <$> worker f.

End Faktory.

(** ** Worker: vocabulary of further statements *)

Module WorkerRuns.

Import Worker.

(** The step belongs to a slot's loop. *)
Definition slotStep (l : Label) : bool :=
  match l with
  | LStart | LImmediate | LFetch _ | LHandle _ | LSleep _ => true
  | _ => false
  end.

(** The steps a call of [tick] has before it, counted generously, once the
    worker is quieted. *)
Definition weight (t : Task) : nat :=
  match t with
  | AwaitFetch _ => 4
  | AwaitHandle _ _ => 3
  | AwaitSleep _ => 2
  | Settled => 0
  end.

Definition backlog (w : State) : nat :=
  length (starting w) + length (immediates w) + sum_list_with weight (tasks w).

(** Every slot has at most one call of [tick] coming or suspended, and
    [this.processors] names the suspended one. *)
Definition slotsSound (w : State) : Prop :=
  (∀ pid, due pid w ≤ 1)%nat
  ∧ ∀ t task pid, tasks w !! t = Some task → running pid task = true →
      processors w !! pid = Some t.

(** After [stop()]: the flag is set, the heartbeat is off, and the tasks
    the drain awaits include every suspended call of [tick]. *)
Definition draining (w : State) : Prop :=
  quieted w = true ∧ heartbeat w = false ∧ shutdown w ≠ NotStopping
  ∧ ∀ ts, shutdown w = Draining ts →
      ∀ t task, tasks w !! t = Some task → task ≠ Settled → t ∈ ts.

(** No call of [tick] is suspended: no fetch is outstanding, no job is
    being handled and no slot sleeps. *)
Definition idle (w : State) : Prop :=
  ∀ t task, tasks w !! t = Some task → task = Settled.

(** The lifecycle flags only go forward from [w] to [w']. *)
Definition forward (w w' : State) : Prop :=
  (quieted w = true → quieted w' = true)
  ∧ (stopped w = true → stopped w' = true)
  ∧ (∀ status, exited w = Some status → exited w' = Some status)
  ∧ (shutdown w ≠ NotStopping → shutdown w' ≠ NotStopping).

(** *** Sample inputs *)

(** A client whose [fetch] always rejects. *)
Definition failingFetchClient : Client :=
  mkClient (λ _ _, Throw sampleError) (λ _ _, Normal tt) (λ _ _ _, Normal tt)
           (λ _, Normal EmptyString) (λ _, Normal tt).

(** A client whose heartbeat is answered with "terminate". *)
Definition terminatingClient : Client :=
  mkClient (λ _ _, Normal None) (λ _ _, Normal tt) (λ _ _ _, Normal tt)
           (λ _, Normal "terminate") (λ _, Normal tt).

(** A client whose heartbeat rejects. *)
Definition unreachableClient : Client :=
  mkClient (λ _ _, Throw sampleError) (λ _ _, Throw sampleError)
           (λ _ _ _, Throw sampleError) (λ _, Throw sampleError) (λ _, Normal tt).

(** The sample worker on the client whose fetch rejects, its slot started. *)
Definition sampleStarted : State :=
  default initial
    (steps (sampleWorker []) failingFetchClient [LStart]
       (work (sampleWorker []) failingFetchClient initial).2).

(** The same with an ["error"] listener on the worker. *)
Definition sampleListening : State := set_listeners 1 sampleStarted.

End WorkerRuns.

(** * Counting *)

Lemma count_nil {A} (P : A → bool) : count P [] = 0.
Proof. reflexivity. Qed.

Lemma count_cons {A} (P : A → bool) x l :
  count P (x :: l) = (if P x then 1 else 0) + count P l.
Proof.
  unfold count. rewrite filter_cons.
  by destruct (P x).
Qed.

Lemma count_app {A} (P : A → bool) l1 l2 :
  count P (l1 ++ l2) = count P l1 + count P l2.
Proof. unfold count. by rewrite filter_app, length_app. Qed.

Lemma count_snoc {A} (P : A → bool) l x :
  count P (l ++ [x]) = count P l + (if P x then 1 else 0).
Proof. rewrite count_app, count_cons, count_nil. lia. Qed.

(** Overwriting one element moves the count by what that element and its
    replacement contribute. *)
Lemma count_insert {A} (P : A → bool) l i old new :
  l !! i = Some old →
  count P (<[i := new]> l) + (if P old then 1 else 0)
  = count P l + (if P new then 1 else 0).
Proof.
  revert i. induction l as [|x l IH]; intros [|i] Hi; simpl in Hi;
    simplify_eq; simpl.
  - rewrite !count_cons. destruct (P old), (P new); lia.
  - rewrite !count_cons. specialize (IH i Hi).
    destruct (P x), (P old), (P new); lia.
Qed.

(** * Properties of the Connection *)

Module ConnectionSpec.

Import Connection.

Section WithGreeting.

Context {Greeting : Type} (parseGreeting : string → JsError + Greeting).

Implicit Types (c : @Conn Greeting) (h : Handler) (q : list Handler).
Implicit Types (s st : @PromiseState Greeting) (p : nat) (e : JsError).

(** *** Promises settle once *)

Lemma settle_frame p s c :
  pending (settle p s c) = pending c ∧ invoked (settle p s c) = invoked c ∧
  lastError (settle p s c) = lastError c ∧ warnings (settle p s c) = warnings c ∧
  written (settle p s c) = written c ∧ emitted (settle p s c) = emitted c ∧
  length (promises (settle p s c)) = length (promises c).
Proof.
  unfold settle. destruct (promises c !! p) as [[]|]; simpl; repeat split; auto.
  apply length_insert.
Qed.

Lemma settle_lookup_pending p s c :
  promises c !! p = Some Pending → promises (settle p s c) !! p = Some s.
Proof.
  intros Hp. unfold settle. rewrite Hp. simpl.
  apply list_lookup_insert_eq. by eapply lookup_lt_Some.
Qed.

Lemma settle_lookup_ne p p' s c :
  p ≠ p' → promises (settle p s c) !! p' = promises c !! p'.
Proof.
  intros Hne. unfold settle. destruct (promises c !! p) as [[]|]; simpl; auto.
  by apply list_lookup_insert_ne.
Qed.

Lemma settle_stable p p' s st c :
  promises c !! p' = Some st → st ≠ Pending →
  promises (settle p s c) !! p' = Some st.
Proof.
  intros Hst Hne. destruct (decide (p = p')) as [->|Hpp].
  - unfold settle. rewrite Hst. destruct st; simpl; congruence.
  - by rewrite settle_lookup_ne.
Qed.

(** A handler called with an error rejects its promise and throws nothing. *)
Lemma invoke_error h e c :
  invoke parseGreeting h (Some e) None c
  = (reject (promiseOf h) e (record (h, Some e, None) c), None).
Proof. by destruct h. Qed.

(** A [send] handler called with a message resolves its promise with it. *)
Lemma invoke_message p cmd m c :
  invoke parseGreeting (HSend p cmd) None (Some m) c
  = (resolve p (VResponse (Some m)) (record (HSend p cmd, None, Some m) c), None).
Proof. reflexivity. Qed.

(** *** The flush of [clearPending] *)

(** What the [forEach] of [clearPending] does to a queue [q]: every
    handler is called once with the error, in queue order, nothing is
    thrown, and the queue itself is not touched. *)
Lemma flush_spec q e c :
  ∃ c', forEach q (λ callback, invoke parseGreeting callback (Some e) None) c = (c', None)
    ∧ pending c' = pending c
    ∧ invoked c' = invoked c ++ flushed e q
    ∧ length (promises c') = length (promises c)
    ∧ (∀ h, h ∈ q → promises c !! promiseOf h = Some Pending →
         promises c' !! promiseOf h = Some (Rejected e))
    ∧ (∀ p st, promises c !! p = Some st → st ≠ Pending →
         promises c' !! p = Some st)
    ∧ warnings c' = warnings c.
Proof.
  revert c. induction q as [|h0 q IH]; intros c.
  - exists c. simpl. rewrite app_nil_r. repeat split; auto.
    intros h Hh. by apply elem_of_nil in Hh.
  - simpl. rewrite invoke_error.
    set (c1 := reject (promiseOf h0) e (record (h0, Some e, None) c)).
    destruct (settle_frame (promiseOf h0) (Rejected e) (record (h0, Some e, None) c))
      as (Hpend & Hinv & _ & Hwarn & _ & _ & Hlen).
    destruct (IH c1) as (c' & Hrun & Hp' & Hi' & Hl' & Hrej & Hst & Hw').
    exists c'. split; [exact Hrun|].
    split; [by rewrite Hp'|].
    split.
    { rewrite Hi'. unfold c1, reject. rewrite Hinv. simpl.
      by rewrite <- app_assoc. }
    split; [by rewrite Hl'|].
    split.
    { intros h Hh Hpen.
      destruct (decide (promiseOf h = promiseOf h0)) as [Heq|Hne].
      - apply (Hst _ (Rejected e)); [|done].
        rewrite Heq. apply settle_lookup_pending. simpl. by rewrite <- Heq.
      - apply elem_of_cons in Hh as [->|Hh]; [done|].
        apply Hrej; [done|].
        unfold c1, reject. rewrite settle_lookup_ne; auto. }
    split.
    { intros p st Hp Hne. apply Hst; [|done].
      by apply settle_stable. }
    by rewrite Hw'.
Qed.

(** *** [send] *)

Lemma send_spec command c q :
  pending c = Some q →
  ∃ c', send command c = (length (promises c), c')
    ∧ pending c' = Some (q ++ [HSend (length (promises c)) (join command)])
    ∧ promises c' = promises c ++ [Pending]
    ∧ invoked c' = invoked c
    ∧ lastError c' = lastError c
    ∧ warnings c' = warnings c
    ∧ written c' = written c ++ [join command +:+ CRLF].
Proof.
  intros Hq. unfold send. simpl. rewrite Hq. eexists. split; [reflexivity|].
  simpl. auto 10.
Qed.

Lemma sendAll_spec cmds c q :
  pending c = Some q →
  ∃ c', sendAll cmds c = (seq (length (promises c)) (length cmds), c')
    ∧ pending c'
      = Some (q ++ sendHandlers (seq (length (promises c)) (length cmds)) (join <$> cmds))
    ∧ promises c' = promises c ++ replicate (length cmds) Pending
    ∧ invoked c' = invoked c
    ∧ lastError c' = lastError c
    ∧ written c' = written c ++ ((λ command, join command +:+ CRLF) <$> cmds).
Proof.
  revert c q. induction cmds as [|command cmds IH]; intros c q Hq.
  - exists c. simpl. rewrite !app_nil_r. auto 10.
  - destruct (send_spec command c q Hq)
      as (c1 & Hsend & Hq1 & Hps1 & Hinv1 & Herr1 & _ & Hwr1).
    destruct (IH c1 _ Hq1) as (c' & Hall & Hq' & Hps' & Hinv' & Herr' & Hwr').
    exists c'. simpl. rewrite Hsend, Hall.
    rewrite Hps1, length_app in *. simpl in *.
    replace (length (promises c) + 1) with (S (length (promises c))) in * by lia.
    split; [reflexivity|].
    split; [by rewrite Hq', <- app_assoc|].
    split; [by rewrite Hps', <- app_assoc|].
    split; [congruence|].
    split; [congruence|].
    by rewrite Hwr', Hwr1, <- app_assoc.
Qed.

Lemma promiseOf_sendHandlers ps cmds :
  length ps = length cmds → promiseOf <$> sendHandlers ps cmds = ps.
Proof.
  revert cmds. induction ps as [|p ps IH]; intros [|cmd cmds] Hlen;
    simpl in *; try done. f_equal. apply IH. lia.
Qed.

(** *** A settled promise stays as it is *)

Lemma stable_refl c : stable c c.
Proof. by intros p st. Qed.

Lemma stable_trans c1 c2 c3 : stable c1 c2 → stable c2 c3 → stable c1 c3.
Proof. intros H12 H23 p st Hp Hne. eauto. Qed.

Lemma settle_is_stable p s c : stable c (settle p s c).
Proof. intros p' st. apply settle_stable. Qed.

Lemma invoke_stable h err r c c' x :
  invoke parseGreeting h err r c = (c', x) → stable c c'.
Proof.
  unfold invoke. intros Hinv p st Hp Hne.
  destruct h as [p0|p0 cmd], err as [e|]; simplify_eq;
    try (by apply settle_stable).
  destruct r as [r|]; [|by simplify_eq].
  destruct (parseGreeting r); simplify_eq; [done|].
  by apply settle_stable.
Qed.

(** [onClose] on an opened connection. *)
Lemma onClose_spec c q :
  pending c = Some q →
  ∃ c', onClose parseGreeting c = (c', None)
    ∧ pending c' = Some q
    ∧ invoked c' = invoked c ++ flushed (closeError c) q
    ∧ length (promises c') = length (promises c)
    ∧ (∀ h, h ∈ q → promises c !! promiseOf h = Some Pending →
         promises c' !! promiseOf h = Some (Rejected (closeError c)))
    ∧ stable c c'
    ∧ warnings c' = warnings c.
Proof.
  intros Hq. unfold onClose, clearPending. simpl. rewrite Hq.
  match goal with |- context [forEach q ?f ?c0] =>
    destruct (flush_spec q (closeError c) c0)
      as (c1 & Hrun & Hp & Hi & Hl & Hrej & Hst & Hw) end.
  exists c1. split; [exact Hrun|]. simpl in *. auto 10.
Qed.

Lemma step_stable ev c c' r x :
  step parseGreeting ev c = (c', r, x) → stable c c'.
Proof.
  destruct ev as [command|m|e|e| | |]; simpl.
  - unfold send. simpl. intros Hs p st Hp Hne.
    assert (Happ : (promises c ++ [Pending]) !! p = Some st)
      by (by apply lookup_app_l_Some).
    destruct (pending c); simplify_eq; simpl; [done|].
    by apply settle_stable.
  - unfold onMessage. destruct (pending c) as [[|h q]|] eqn:Hq.
    + intros; simplify_eq. by intros p st.
    + destruct (invoke _ _ _ _ _) as [c1 x1] eqn:Hinv. intros; simplify_eq.
      by apply invoke_stable in Hinv.
    + intros; simplify_eq. apply stable_refl.
  - unfold onMessage. destruct (pending c) as [[|h q]|] eqn:Hq.
    + intros; simplify_eq. by intros p st.
    + destruct (invoke _ _ _ _ _) as [c1 x1] eqn:Hinv. intros; simplify_eq.
      by apply invoke_stable in Hinv.
    + intros; simplify_eq. apply stable_refl.
  - unfold socketError, onError. simpl.
    destruct (listeners c); simpl; [intros; simplify_eq; by intros p st|].
    destruct (onceErrored c); intros; simplify_eq; [|by intros p st].
    intros p st Hp Hne. simpl. by apply settle_stable.
  - destruct (pending c) as [q|] eqn:Hq.
    + destruct (onClose_spec c q Hq) as (c1 & Hrun & _ & _ & _ & _ & Hst & _).
      rewrite Hrun. intros; simplify_eq. exact Hst.
    + unfold onClose, clearPending. simpl. rewrite Hq.
      intros; simplify_eq. by intros p st.
  - intros; simplify_eq. by intros p st.
  - intros; simplify_eq. by intros p st.
Qed.

Lemma run_stable tr c c' ps x :
  run parseGreeting tr c = (c', ps, x) → stable c c'.
Proof.
  revert c c' ps x. induction tr as [|ev tr IH]; intros c c' ps x; simpl.
  - intros; simplify_eq. apply stable_refl.
  - destruct (step parseGreeting ev c) as [[c1 r] [x1|]] eqn:Hstep.
    + intros; simplify_eq. by eapply step_stable.
    + destruct (run parseGreeting tr c1) as [[c2 ps2] x2] eqn:Hrun.
      intros; simplify_eq. eapply stable_trans; [by eapply step_stable|by eapply IH].
Qed.

(** *** Request/response exchanges *)

(** The invariant behind FIFO correlation: with a queue [q] of [send]
    handlers outstanding, all on distinct pending promises, an exchange
    calls the handlers of [q] and then those of its own [send]s, each with
    the message of the same rank. *)
Lemma run_exchange tr : ∀ c q,
  pending c = Some q →
  (∀ h, h ∈ q → ∃ p cmd, h = HSend p cmd) →
  NoDup (promiseOf <$> q) →
  (∀ h, h ∈ q → promises c !! promiseOf h = Some Pending) →
  exchange (length q) tr = true →
  ∃ c', run parseGreeting tr c
        = (c', seq (length (promises c)) (length (commands tr)), None)
    ∧ pending c'
      = Some (drop (length (messages tr))
                (q ++ sendHandlers (seq (length (promises c)) (length (commands tr)))
                                   (commands tr)))
    ∧ invoked c'
      = invoked c
        ++ answered (q ++ sendHandlers (seq (length (promises c)) (length (commands tr)))
                                       (commands tr))
                    (messages tr)
    ∧ warnings c' = warnings c
    ∧ (∀ j h m,
         (q ++ sendHandlers (seq (length (promises c)) (length (commands tr)))
                            (commands tr)) !! j = Some h →
         messages tr !! j = Some m →
         promises c' !! promiseOf h = Some (Resolved (VResponse (Some m)))).
Proof.
  induction tr as [|ev tr IH]; intros c q Hq Hsend Hdup Hpen Hex.
  - exists c. simpl. unfold answered. rewrite !app_nil_r.
    split; [done|]. split; [done|].
    split; [destruct q; simpl; by rewrite app_nil_r|]. split; [done|].
    intros j h m _ Hm. by rewrite lookup_nil in Hm.
  - destruct ev as [command|m|e|e| | |]; simpl in Hex; try done.
    + (* a command is sent *)
      destruct (send_spec command c q Hq)
        as (c1 & Hs & Hq1 & Hps1 & Hinv1 & _ & Hw1 & _).
      destruct (IH c1 (q ++ [HSend (length (promises c)) (join command)]))
        as (c' & Hrun & Hq' & Hinv' & Hw' & Hres); auto.
      * intros h Hh. apply elem_of_app in Hh as [Hh|Hh]; [by apply Hsend|].
        apply list_elem_of_singleton in Hh. eauto.
      * rewrite fmap_app. simpl. apply NoDup_app. split; [done|].
        split; [|apply NoDup_singleton].
        intros p Hp Hp'. apply list_elem_of_singleton in Hp'. subst p.
        apply list_elem_of_fmap in Hp as (h & Hph & Hh).
        apply Hpen in Hh. apply lookup_lt_Some in Hh. lia.
      * intros h Hh. rewrite Hps1.
        apply elem_of_app in Hh as [Hh|Hh].
        -- apply lookup_app_l_Some. by apply Hpen.
        -- apply list_elem_of_singleton in Hh. subst h. simpl.
           by rewrite lookup_app_r, Nat.sub_diag.
      * by rewrite length_app, Nat.add_comm.
      * rewrite Hps1, length_app in *. simpl in *.
        replace (length (promises c) + 1) with (S (length (promises c))) in * by lia.
        rewrite <- app_assoc in *. simpl in *.
        exists c'. rewrite Hs, Hrun. simpl.
        split; [done|]. split; [done|]. split; [congruence|].
        split; [congruence|]. exact Hres.
    + (* a message arrives *)
      destruct q as [|h q]; [done|]. simpl in Hex.
      destruct (Hsend h) as (p & cmd & ->); [by left|].
      cbn [run step]. unfold onMessage. rewrite Hq, invoke_message.
      unfold resolve.
      destruct (settle_frame p (Resolved (VResponse (Some m)))
                  (record (HSend p cmd, None, Some m) (set_pending (Some q) c)))
        as (Hp1 & Hi1 & _ & Hw1 & _ & _ & Hl1).
      pose proof (settle_lookup_pending p (Resolved (VResponse (Some m)))
                  (record (HSend p cmd, None, Some m) (set_pending (Some q) c))) as Hp.
      pose proof (λ p', settle_lookup_ne p p' (Resolved (VResponse (Some m)))
                  (record (HSend p cmd, None, Some m) (set_pending (Some q) c))) as Hother.
      set (c1 := settle p (Resolved (VResponse (Some m)))
                   (record (HSend p cmd, None, Some m) (set_pending (Some q) c))) in *.
      simpl in Hp1, Hi1, Hw1, Hl1, Hp, Hother.
      specialize (Hp (Hpen (HSend p cmd) ltac:(by left))).
      apply NoDup_cons in Hdup as [Hnotin Hdup]. simpl in Hnotin.
      destruct (IH c1 q) as (c' & Hrun & Hq' & Hinv' & Hw' & Hres); auto.
      * intros h Hh. apply Hsend. by right.
      * intros h Hh. rewrite Hother.
        -- apply Hpen. by right.
        -- intros ->. apply Hnotin. apply list_elem_of_fmap. eauto.
      * rewrite Hl1 in *. exists c'. rewrite Hrun. simpl.
        split; [done|]. split; [done|].
        split; [by rewrite Hinv', Hi1, <- app_assoc|].
        split; [congruence|].
        intros [|j] h m' Hh Hm; simpl in *; simplify_eq.
        -- simpl. eapply run_stable; eauto.
        -- eauto.
Qed.

Lemma invoke_frame h err r c c' x :
  invoke parseGreeting h err r c = (c', x) →
  pending c' = pending c ∧ warnings c' = warnings c
  ∧ invoked c' = invoked c ++ [(h, err, r)].
Proof.
  unfold invoke, resolve, reject. intros Hinv.
  destruct h as [p|p cmd], err as [e|]; simplify_eq;
    try match goal with |- context [settle ?p ?s ?c0] =>
      by destruct (settle_frame p s c0) as (-> & -> & _ & -> & _) end.
  destruct r as [r|]; [|by simplify_eq].
  destruct (parseGreeting r); simplify_eq; [done|].
  match goal with |- context [settle ?p ?s ?c0] =>
    by destruct (settle_frame p s c0) as (-> & -> & _ & -> & _) end.
Qed.

(** *** The statements of the specification *)

(** C1 — FIFO correlation.  On a connection with no handler outstanding,
    let commands be sent with [send] and parsed messages arrive, each
    message while a handler is outstanding.  Then the handlers are called
    in the order of the sends, the i-th with the i-th message, nothing is
    dropped, and the i-th message resolves exactly the promise (a fresh
    one) that the i-th [send] returned. *)
Theorem fifo_correlation tr c :
  pending c = Some [] →
  exchange 0 tr = true →
  ∃ c' ps, run parseGreeting tr c = (c', ps, None)
    ∧ length ps = length (commands tr)
    ∧ NoDup ps
    ∧ invoked c' = invoked c ++ answered (sendHandlers ps (commands tr)) (messages tr)
    ∧ pending c' = Some (drop (length (messages tr)) (sendHandlers ps (commands tr)))
    ∧ warnings c' = warnings c
    ∧ (∀ i p m, ps !! i = Some p → messages tr !! i = Some m →
         promises c !! p = None
         ∧ promises c' !! p = Some (Resolved (VResponse (Some m)))).
Proof.
  intros Hq Hex.
  destruct (run_exchange tr c [] Hq) as (c' & Hrun & Hq' & Hinv & Hw & Hres); auto.
  { intros h Hh. by apply elem_of_nil in Hh. }
  { apply NoDup_nil_2. }
  { intros h Hh. by apply elem_of_nil in Hh. }
  simpl in *.
  exists c', (seq (length (promises c)) (length (commands tr))).
  split; [done|]. split; [by rewrite length_seq|]. split; [apply NoDup_seq|].
  split; [done|]. split; [done|]. split; [done|].
  intros i p m Hp Hm.
  apply lookup_seq in Hp as [-> Hi]. split.
  - apply lookup_ge_None. lia.
  - destruct (lookup_lt_is_Some_2 (commands tr) i Hi) as [cmd Hcmd].
    apply (Hres i (HSend (length (promises c) + i) cmd) m); [|done].
    unfold sendHandlers. apply lookup_zip_with_Some.
    exists (length (promises c) + i), cmd. split; [done|].
    split; [|done]. by apply lookup_seq.
Qed.

(** C2 — close flushes all pending.  On an opened connection let N
    commands be sent and no response arrive.  When the socket closes,
    every pending handler is called exactly once, with the socket's last
    error or else the generic "Connection closed" error, and every one of
    the N promises is rejected with it: none is left pending. *)
Theorem close_flushes_pending cmds c0 q0 :
  pending c0 = Some q0 →
  ∃ ps c c', sendAll cmds c0 = (ps, c)
    ∧ onClose parseGreeting c = (c', None)
    ∧ length ps = length cmds
    ∧ NoDup ps
    ∧ closeError c = default (MkError "Error" "Connection closed") (lastError c0)
    ∧ invoked c'
      = invoked c0 ++ flushed (closeError c) (q0 ++ sendHandlers ps (join <$> cmds))
    ∧ (∀ p, p ∈ ps →
         promises c !! p = Some Pending
         ∧ promises c' !! p = Some (Rejected (closeError c)))
    ∧ (∀ h, h ∈ q0 ++ sendHandlers ps (join <$> cmds) →
         is_Some (promises c !! promiseOf h) →
         promises c' !! promiseOf h ≠ Some Pending).
Proof.
  intros Hq0.
  destruct (sendAll_spec cmds c0 q0 Hq0) as (c & Hall & Hq & Hps & Hinv & Herr & _).
  destruct (onClose_spec c _ Hq) as (c' & Hclose & _ & Hinv' & _ & Hrej & Hst & _).
  exists (seq (length (promises c0)) (length cmds)), c, c'.
  split; [done|]. split; [done|]. split; [by rewrite length_seq|].
  split; [apply NoDup_seq|].
  split; [unfold closeError; by rewrite Herr|].
  split; [by rewrite Hinv', Hinv|].
  split.
  - intros p Hp.
    assert (Hpen : promises c !! p = Some Pending).
    { apply elem_of_seq in Hp. rewrite Hps, lookup_app_r by lia.
      apply lookup_replicate_2. lia. }
    split; [done|].
    assert (Hin : p ∈ promiseOf <$> sendHandlers (seq (length (promises c0)) (length cmds))
                                                  (join <$> cmds)).
    { rewrite promiseOf_sendHandlers; [done|]. by rewrite length_seq, length_fmap. }
    apply list_elem_of_fmap in Hin as (h & -> & Hh).
    apply Hrej; [|done]. apply elem_of_app. by right.
  - intros h Hh [st Hsome].
    destruct st as [|v|e].
    + rewrite (Hrej h Hh Hsome). congruence.
    + rewrite (Hst _ _ Hsome); congruence.
    + rewrite (Hst _ _ Hsome); congruence.
Qed.

(** C9 — [clearPending] calls every pending handler and leaves the queue
    as it was.  So after the flush of [onClose] the flushed handlers are
    still queued, and a message or parser error that arrives then is not
    dropped: it shifts the oldest flushed handler and calls it a second
    time. *)
Theorem clearPending_keeps_queue c q e :
  pending c = Some q →
  (∃ c', clearPending parseGreeting e c = (c', None)
     ∧ pending c' = Some q
     ∧ invoked c' = invoked c ++ flushed e q)
  ∧ (∃ c1, onClose parseGreeting c = (c1, None)
       ∧ pending c1 = Some q
       ∧ ∀ h q' err m, q = h :: q' →
           ∃ c2 x, onMessage parseGreeting err m c1 = (c2, x)
             ∧ pending c2 = Some q'
             ∧ invoked c2 = invoked c ++ flushed (closeError c) q ++ [(h, err, m)]
             ∧ warnings c2 = warnings c).
Proof.
  intros Hq. split.
  - unfold clearPending. rewrite Hq.
    destruct (flush_spec q e c) as (c' & Hrun & Hp & Hi & _).
    exists c'. by rewrite Hp.
  - destruct (onClose_spec c q Hq) as (c1 & Hclose & Hq1 & Hinv1 & _ & _ & _ & Hw1).
    exists c1. split; [done|]. split; [done|].
    intros h q' err m ->. unfold onMessage. rewrite Hq1.
    destruct (invoke parseGreeting h err m (set_pending (Some q') c1))
      as [c2 x] eqn:Hinvoke.
    apply invoke_frame in Hinvoke as (Hp2 & Hw2 & Hi2).
    exists c2, x. split; [done|]. simpl in *.
    split; [done|]. split; [by rewrite Hi2, Hinv1, <- app_assoc|]. congruence.
Qed.

End WithGreeting.

(** *** The statements at the sample inputs *)

Lemma fifo_correlation_witness :
  pending sampleReady = Some []
  ∧ exchange 0 sampleExchange = true
  ∧ ∃ c' ps, run sampleParse sampleExchange sampleReady = (c', ps, None)
      ∧ ps !! 0 = Some 1 ∧ ps !! 1 = Some 2
      ∧ promises c' !! 1 = Some (Resolved (VResponse (Some "$-1")))
      ∧ promises c' !! 2 = Some (Resolved (VResponse (Some "+OK"))).
Proof.
  split; [reflexivity|]. split; [reflexivity|].
  destruct (fifo_correlation sampleParse sampleExchange sampleReady eq_refl eq_refl)
    as (c' & ps & Hrun & _ & _ & _ & _ & _ & Hres).
  exists c', ps. split; [exact Hrun|].
  assert (Hps : ps = [1; 2]) by (vm_compute in Hrun; congruence).
  subst ps. split; [reflexivity|]. split; [reflexivity|].
  split.
  - exact (proj2 (Hres 0 1 "$-1" eq_refl eq_refl)).
  - exact (proj2 (Hres 1 2 "+OK" eq_refl eq_refl)).
Defined.

Lemma close_flushes_pending_witness :
  pending sampleReady = Some []
  ∧ ∃ ps c c', sendAll sampleCommands sampleReady = (ps, c)
      ∧ onClose sampleParse c = (c', None)
      ∧ length ps = 2
      ∧ invoked c'
        = invoked sampleReady
          ++ flushed (closeError c) (sendHandlers ps (join <$> sampleCommands)).
Proof.
  split; [reflexivity|].
  destruct (close_flushes_pending sampleParse sampleCommands sampleReady [] eq_refl)
    as (ps & c & c' & Hall & Hclose & Hlen & _ & _ & Hinv & _).
  exists ps, c, c'. split; [exact Hall|]. split; [exact Hclose|].
  split; [exact Hlen|exact Hinv].
Defined.

Lemma clearPending_keeps_queue_witness :
  pending (sendAll sampleCommands sampleReady).2
  = Some [HSend 1 "FETCH default"; HSend 2 "BEAT"]
  ∧ ∃ c1, onClose sampleParse (sendAll sampleCommands sampleReady).2 = (c1, None)
      ∧ pending c1 = Some [HSend 1 "FETCH default"; HSend 2 "BEAT"].
Proof.
  split; [reflexivity|].
  destruct (clearPending_keeps_queue sampleParse
              (sendAll sampleCommands sampleReady).2
              [HSend 1 "FETCH default"; HSend 2 "BEAT"]
              (MkError "Error" "Connection closed") eq_refl)
    as (_ & c1 & Hclose & Hq & _).
  exists c1. split; [exact Hclose|exact Hq].
Defined.

End ConnectionSpec.

(** * Properties of the Worker *)

Module WorkerSpec.

Import Worker.

(** *** The executor *)

Lemma dispatch_unfold ms i x :
  (index x < i)%Z →
  dispatch ms i x
  = match ms with
    | [] => (Normal tt, mkExec (ctx x) i (observed x))
    | f :: rest => f (dispatch rest (i + 1)) (mkExec (ctx x) i (observed x))
    end.
Proof.
  intros Hlt. apply Z.leb_gt in Hlt. destruct ms; simpl; by rewrite Hlt.
Qed.

#[local] Arguments dispatch : simpl never.

(** Brings a list built with [++] and [::] to its right-nested form. *)
Ltac norm_app := repeat (rewrite <- app_assoc || rewrite <- app_comm_cons).

(** The two built-in stages, entered at position [i]. *)
Lemma builtin_spec registry i x :
  (index x < i)%Z →
  ∃ x', dispatch [getJobFnFromRegistry registry; callJobFn] i x
        = (executorOutcome registry (job (ctx x)), x')
    ∧ observed x' = observed x ++ builtinObserved registry (job (ctx x))
    ∧ job (ctx x') = job (ctx x).
Proof.
  intros Hlt. rewrite dispatch_unfold by done.
  unfold getJobFnFromRegistry, executorOutcome, builtinObserved. simpl.
  destruct (registry !! jobtype (job (ctx x))) as [f|] eqn:Hf; simpl.
  - rewrite dispatch_unfold by (simpl; lia).
    unfold callJobFn, jobOutcome, invocation. simpl.
    destruct (f (args (job (ctx x)))) as [e| |thunk] eqn:Hres; simpl.
    + eexists. split; [reflexivity|]. simpl. by rewrite <- app_assoc.
    + rewrite dispatch_unfold by (simpl; lia). simpl.
      eexists. split; [reflexivity|]. simpl. by rewrite <- app_assoc.
    + destruct (thunk (job (ctx x))) as [e|] eqn:Hth.
      * eexists. split; [reflexivity|]. simpl. by rewrite <- !app_assoc.
      * rewrite dispatch_unfold by (simpl; lia). simpl.
        eexists. split; [reflexivity|]. simpl. by rewrite <- !app_assoc.
  - eexists. split; [reflexivity|]. done.
Qed.

Lemma entered_cons pre post specs :
  entered ((pre, post) :: specs) = (OUser <$> pre) ++ entered specs.
Proof. unfold entered. simpl. by rewrite fmap_app. Qed.

Lemma exited_cons pre post specs :
  exited_ ((pre, post) :: specs) = exited_ specs ++ (OUser <$> post).
Proof.
  unfold exited_. rewrite reverse_cons, fmap_app, concat_app, fmap_app.
  simpl. by rewrite app_nil_r.
Qed.

(** Onion-style middleware around the built-in stages: their code before
    the continuation runs in declared order, then the built-in stages, then
    (unless these throw) their code after it in reverse order. *)
Lemma onions_spec registry specs : ∀ i x,
  (index x < i)%Z →
  ∃ x', dispatch (onions specs ++ [getJobFnFromRegistry registry; callJobFn]) i x
        = (executorOutcome registry (job (ctx x)), x')
    ∧ observed x'
      = observed x ++ entered specs ++ builtinObserved registry (job (ctx x))
        ++ match executorOutcome registry (job (ctx x)) with
           | Normal _ => exited_ specs
           | Throw _ => []
           end
    ∧ job (ctx x') = job (ctx x).
Proof.
  induction specs as [|[pre post] specs IH]; intros i x Hlt.
  - destruct (builtin_spec registry i x Hlt) as (x' & Hrun & Hobs & Hjob).
    exists x'. simpl. split; [done|]. split; [|done].
    rewrite Hobs. unfold entered, exited_. simpl.
    destruct (executorOutcome _ _); by rewrite app_nil_r.
  - simpl. rewrite dispatch_unfold by done. unfold onion at 1, bind, observe. simpl.
    set (x1 := mkExec (ctx x) i (observed x ++ (OUser <$> pre))).
    destruct (IH (i + 1)%Z x1) as (x2 & Hrun & Hobs & Hjob); [simpl; lia|].
    fold (onions specs). rewrite Hrun. simpl in *.
    rewrite entered_cons, exited_cons.
    destruct (executorOutcome registry (job (ctx x))) as [[]|e].
    + eexists. split; [reflexivity|]. simpl. rewrite Hobs. by norm_app.
    + eexists. split; [reflexivity|]. rewrite Hobs. norm_app.
      by rewrite !app_nil_r.
Qed.

Lemma execute_onions registry specs j :
  ∃ x, execute registry (onions specs) j = (executorOutcome registry j, x)
    ∧ observed x
      = entered specs ++ builtinObserved registry j
        ++ match executorOutcome registry j with
           | Normal _ => exited_ specs
           | Throw _ => []
           end.
Proof.
  unfold execute, createExecutor, compose. simpl.
  destruct (onions_spec registry specs 0 (mkExec (mkCtx j None) (-1) []))
    as (x & Hrun & Hobs & _); [simpl; lia|].
  exists x. split; [exact Hrun|exact Hobs].
Qed.

(** C5 — middleware onion order.  For every job run through the
    executor built over the user middleware [m1; m2], what is observed is,
    in this order: the code of m1 before its continuation, that of m2, the
    registry lookup of the job's jobtype, the call of the resolved job
    function, the code of m2 after its continuation, that of m1 — the
    whole of it when the function (and its thunk) completes, and cut off
    behind the stage that throws otherwise.  With any number of user
    middleware the two built-in stages come after the code all of them run
    before their continuation, the lookup first. *)
Theorem middleware_onion_order registry j pre1 post1 pre2 post2 :
  (∃ x, execute registry [onion pre1 post1; onion pre2 post2] j
        = (executorOutcome registry j, x)
     ∧ match registry !! jobtype j with
       | Some f =>
           match jobOutcome f j with
           | None =>
               executorOutcome registry j = Normal tt
               ∧ observed x
                 = (OUser <$> pre1) ++ (OUser <$> pre2)
                   ++ [OLookup (jobtype j)] ++ invocation f j
                   ++ (OUser <$> post2) ++ (OUser <$> post1)
           | Some e =>
               executorOutcome registry j = Throw e
               ∧ observed x
                 = (OUser <$> pre1) ++ (OUser <$> pre2)
                   ++ [OLookup (jobtype j)] ++ invocation f j
           end
       | None =>
           executorOutcome registry j = Throw (ThrownError (registryError (jobtype j)))
           ∧ observed x
             = (OUser <$> pre1) ++ (OUser <$> pre2) ++ [OLookup (jobtype j)]
       end)
  ∧ (∀ specs,
       ∃ x, execute registry (onions specs) j = (executorOutcome registry j, x)
         ∧ observed x
           = entered specs ++ builtinObserved registry j
             ++ match executorOutcome registry j with
                | Normal _ => exited_ specs
                | Throw _ => []
                end).
Proof.
  split; [|intros specs; apply execute_onions].
  destruct (execute_onions registry [(pre1, post1); (pre2, post2)] j)
    as (x & Hrun & Hobs).
  exists x. split; [exact Hrun|]. rewrite Hobs.
  unfold executorOutcome, builtinObserved, entered, exited_. simpl.
  destruct (registry !! jobtype j) as [f|]; [destruct (jobOutcome f j)|];
    (split; [done|]); rewrite ?app_nil_r, ?fmap_app; by norm_app.
Qed.

(** *** [handle] *)

(** [handle] touches the client and the emitter only. *)
Lemma handle_catch_frame client j e w :
  ∀ r w', handle_catch client j e w = (r, w') →
  quieted w' = quieted w ∧ tasks w' = tasks w ∧ immediates w' = immediates w
  ∧ ticked w' = ticked w ∧ starting w' = starting w ∧ exited w' = exited w
  ∧ shutdown w' = shutdown w ∧ timeout w' = timeout w ∧ heartbeat w' = heartbeat w
  ∧ resolved w' = resolved w ∧ processors w' = processors w
  ∧ fetches w' = fetches w ∧ closes w' = closes w
  ∧ listeners w' = listeners w ∧ rejections w' = rejections w
  ∧ failure w' = failure w ∧ warnings w' = warnings w.
Proof.
  intros r w'. unfold handle_catch, fetches, closes, fetchCount.
  destruct (fail_ _ _ _ _); intros; simplify_eq; simpl;
    rewrite !count_snoc; simpl; rewrite !Nat.add_0_r; auto 20.
Qed.

Lemma handle_frame this client j w :
  ∀ r w', handle this client j w = (r, w') →
  quieted w' = quieted w ∧ tasks w' = tasks w ∧ immediates w' = immediates w
  ∧ ticked w' = ticked w ∧ starting w' = starting w ∧ exited w' = exited w
  ∧ shutdown w' = shutdown w ∧ timeout w' = timeout w ∧ heartbeat w' = heartbeat w
  ∧ resolved w' = resolved w ∧ processors w' = processors w
  ∧ fetches w' = fetches w ∧ closes w' = closes w
  ∧ listeners w' = listeners w ∧ rejections w' = rejections w
  ∧ failure w' = failure w ∧ warnings w' = warnings w.
Proof.
  intros r w'. unfold handle.
  destruct (execute _ _ _).1; [|apply handle_catch_frame].
  destruct (ack_ _ _ _).
  - intros; simplify_eq. unfold fetches, closes, fetchCount. simpl.
    rewrite !count_snoc. simpl. rewrite !Nat.add_0_r. auto 20.
  - intros Hc. apply handle_catch_frame in Hc. simpl in Hc.
    unfold fetches, closes, fetchCount in *. simpl in Hc.
    rewrite !count_snoc in Hc. simpl in Hc. rewrite !Nat.add_0_r in Hc. exact Hc.
Qed.

(** *** The [catch] block of [tick] *)

Lemma rejectTick_frame t e w :
  quieted (rejectTick t e w) = quieted w ∧ tasks (rejectTick t e w) = tasks w
  ∧ immediates (rejectTick t e w) = immediates w
  ∧ ticked (rejectTick t e w) = ticked w ∧ starting (rejectTick t e w) = starting w
  ∧ exited (rejectTick t e w) = exited w ∧ shutdown (rejectTick t e w) = shutdown w
  ∧ timeout (rejectTick t e w) = timeout w ∧ heartbeat (rejectTick t e w) = heartbeat w
  ∧ resolved (rejectTick t e w) = resolved w
  ∧ processors (rejectTick t e w) = processors w
  ∧ calls (rejectTick t e w) = calls w ∧ emitted (rejectTick t e w) = emitted w
  ∧ listeners (rejectTick t e w) = listeners w
  ∧ warnings (rejectTick t e w) = warnings w
  ∧ stopped (rejectTick t e w) = stopped w
  ∧ rejections (rejectTick t e w) = <[t := e]> (rejections w).
Proof.
  unfold rejectTick.
  destruct (shutdown (set_rejections (<[t := e]> (rejections w)) w))
    as [|ts| | |]; try (repeat split; done).
  destruct (failure (set_rejections (<[t := e]> (rejections w)) w));
    [repeat split; done|].
  case_bool_decide; repeat split; done.
Qed.

(** With a listener the error is emitted and the call sleeps; with none
    the call is over: the slot is rescheduled and the promise rejected. *)
Lemma tick_catch_frame t pid e w :
  quieted (tick_catch t pid e w) = quieted w
  ∧ ticked (tick_catch t pid e w) = ticked w
  ∧ starting (tick_catch t pid e w) = starting w
  ∧ exited (tick_catch t pid e w) = exited w
  ∧ shutdown (tick_catch t pid e w) = shutdown w
  ∧ timeout (tick_catch t pid e w) = timeout w
  ∧ heartbeat (tick_catch t pid e w) = heartbeat w
  ∧ resolved (tick_catch t pid e w) = resolved w
  ∧ processors (tick_catch t pid e w) = processors w
  ∧ calls (tick_catch t pid e w) = calls w
  ∧ emitted (tick_catch t pid e w) = emitted w ++ [EmError e]
  ∧ listeners (tick_catch t pid e w) = listeners w
  ∧ warnings (tick_catch t pid e w) = warnings w
  ∧ stopped (tick_catch t pid e w) = stopped w
  ∧ ((listeners w ≠ 0
      ∧ tasks (tick_catch t pid e w) = <[t := AwaitSleep pid]> (tasks w)
      ∧ immediates (tick_catch t pid e w) = immediates w
      ∧ rejections (tick_catch t pid e w) = rejections w
      ∧ failure (tick_catch t pid e w) = failure w)
     ∨ (listeners w = 0
        ∧ tasks (tick_catch t pid e w) = <[t := Settled]> (tasks w)
        ∧ immediates (tick_catch t pid e w) = immediates w ++ [pid]
        ∧ rejections (tick_catch t pid e w) = <[t := unhandled e]> (rejections w))).
Proof.
  unfold tick_catch. simpl. destruct (listeners w) as [|n] eqn:Hn; simpl.
  - match goal with |- context [rejectTick ?t0 ?e0 ?w0] =>
      destruct (rejectTick_frame t0 e0 w0)
        as (-> & -> & -> & -> & -> & -> & -> & -> & -> & -> & -> & -> & ->
            & -> & -> & -> & ->) end.
    simpl. repeat (split; [done|]). right. repeat split; done.
  - repeat (split; [done|]). left. repeat split; done.
Qed.

(** A value thrown out of the executor takes the [catch] block. *)
Lemma handle_throw this client j e w :
  (execute (registry this) (middleware this) j).1 = Throw e →
  handle this client j w = handle_catch client j e w.
Proof. intros He. unfold handle. by rewrite He. Qed.

(** C7 — successful job (as amended).  For every job whose execution
    through the middleware chain completes without throwing, [handle]
    sends exactly one ack for the job's id; when that ack call resolves it
    sends nothing else, emits nothing and returns the success marker
    ["ack"]. *)
Theorem handle_acks_completed_job this client j w :
  (execute (registry this) (middleware this) j).1 = Normal tt →
  (∃ more, calls (handle this client j w).2 = calls w ++ CAck (jid j) :: more
     ∧ ∀ c, c ∈ more → ∃ error, c = CFail (jid j) error)
  ∧ (ack_ client (calls w) (jid j) = Normal tt →
     handle this client j w = (Normal "ack", call (CAck (jid j)) w)).
Proof.
  intros Hok. unfold handle. rewrite Hok. split.
  - destruct (ack_ client (calls w) (jid j)) as [[]|e]; simpl.
    + exists []. split; [done|]. intros c Hc. by apply elem_of_nil in Hc.
    + unfold handle_catch. simpl.
      exists [CFail (jid j) (wrapNonErrors e)].
      split.
      * destruct (fail_ _ _ _ _); simpl; by rewrite <- app_assoc.
      * intros c Hc. apply list_elem_of_singleton in Hc. eauto.
  - by intros ->.
Qed.

(** C8 — job errors (as amended).  For every job and every value [e]
    thrown out of the executor (by the job function, a thunk or a
    middleware stage), [handle] catches it, normalizes it into an error
    object (an [Error] is kept as it is) and reports the failure for the
    job's id.  When that report resolves, [handle] emits ["fail"] with the
    job and the raw value and returns ["fail"], and the tick that awaits
    it goes on to its [finally] block: its promise is not rejected.  When
    the report itself rejects, [handle] rejects with the report's error,
    which the [catch] block of the tick passes to [emit("error")]: with an
    ['error'] listener on the worker it is emitted and the tick sleeps;
    with none the [emit] throws, the tick does not sleep, its [finally]
    block reschedules the slot and its promise is rejected. *)
Theorem handle_catches_job_errors this client j w e :
  (execute (registry this) (middleware this) j).1 = Throw e →
  calls (handle this client j w).2 = calls w ++ [CFail (jid j) (wrapNonErrors e)]
  ∧ (∀ err, wrapNonErrors (ThrownError err) = err)
  ∧ (fail_ client (calls w) (jid j) (wrapNonErrors e) = Normal tt →
     handle this client j w
     = (Normal "fail", emit (EmFail j e) (call (CFail (jid j) (wrapNonErrors e)) w))
     ∧ ∀ t pid, tasks w !! t = Some (AwaitHandle pid j) → exited w = None →
         ∃ w', step this client (LHandle t) w = Some w'
           ∧ emitted w' = emitted w ++ [EmFail j e]
           ∧ tasks w' !! t = Some Settled
           ∧ rejections w' = rejections w
           ∧ immediates w' = immediates w ++ [pid])
  ∧ (∀ e', fail_ client (calls w) (jid j) (wrapNonErrors e) = Throw e' →
     handle this client j w = (Throw e', call (CFail (jid j) (wrapNonErrors e)) w)
     ∧ ∀ t pid, tasks w !! t = Some (AwaitHandle pid j) → exited w = None →
         ∃ w', step this client (LHandle t) w = Some w'
           ∧ emitted w' = emitted w ++ [EmError e']
           ∧ (listeners w ≠ 0 →
              tasks w' !! t = Some (AwaitSleep pid)
              ∧ rejections w' = rejections w
              ∧ immediates w' = immediates w)
           ∧ (listeners w = 0 →
              tasks w' !! t = Some Settled
              ∧ rejections w' !! t = Some (unhandled e')
              ∧ immediates w' = immediates w ++ [pid])).
Proof.
  intros He. rewrite (handle_throw _ _ _ _ _ He). unfold handle_catch.
  split; [by destruct (fail_ _ _ _ _)|]. split; [done|]. split.
  - intros Hf. rewrite Hf. split; [done|]. intros t pid Ht Hex.
    unfold step. rewrite Hex, Ht, (handle_throw _ _ _ _ _ He).
    unfold handle_catch. rewrite Hf. eexists. split; [reflexivity|]. simpl.
    split; [done|]. split; [|done].
    apply list_lookup_insert_eq. by eapply lookup_lt_Some.
  - intros e' Hf. rewrite Hf. split; [done|]. intros t pid Ht Hex.
    pose proof (lookup_lt_Some _ _ _ Ht) as Hlt.
    unfold step. rewrite Hex, Ht, (handle_throw _ _ _ _ _ He).
    unfold handle_catch. rewrite Hf. eexists. split; [reflexivity|].
    match goal with |- context [tick_catch ?t0 ?p0 ?e0 ?w0] =>
      destruct (tick_catch_frame t0 p0 e0 w0)
        as (_ & _ & _ & _ & _ & _ & _ & _ & _ & _ & Hem & _ & _ & _ & Hcase) end.
    simpl in Hem, Hcase. split; [exact Hem|].
    destruct Hcase as [(Hl & Hts & Him & Hrj & _)|(Hl & Hts & Him & Hrj)].
    + split; [|done]. intros _. rewrite Hts, Him, Hrj.
      split; [by apply list_lookup_insert_eq|done].
    + split; [done|]. intros _. rewrite Hts, Him, Hrj.
      split; [by apply list_lookup_insert_eq|]. split; [|done].
      by rewrite lookup_insert_eq.
Qed.

(** C10 — rejected ack (as amended).  For every job whose execution
    through the middleware chain succeeds but whose ack call rejects,
    [handle] sends a FAIL for the id of that completed job, with the
    normalized rejection of the ack; when that report resolves it emits
    ["fail"] and returns ["fail"] instead of the success marker; when the
    report rejects too, [handle] rejects. *)
Theorem handle_fails_job_when_ack_rejects this client j w e :
  (execute (registry this) (middleware this) j).1 = Normal tt →
  ack_ client (calls w) (jid j) = Throw e →
  calls (handle this client j w).2
  = calls w ++ [CAck (jid j); CFail (jid j) (wrapNonErrors e)]
  ∧ (fail_ client (calls w ++ [CAck (jid j)]) (jid j) (wrapNonErrors e) = Normal tt →
     handle this client j w
     = (Normal "fail",
        emit (EmFail j e)
          (call (CFail (jid j) (wrapNonErrors e)) (call (CAck (jid j)) w))))
  ∧ (∀ e', fail_ client (calls w ++ [CAck (jid j)]) (jid j) (wrapNonErrors e) = Throw e' →
     handle this client j w
     = (Throw e', call (CFail (jid j) (wrapNonErrors e)) (call (CAck (jid j)) w))).
Proof.
  intros Hok Hack. unfold handle. rewrite Hok, Hack. unfold handle_catch. simpl.
  split; [destruct (fail_ _ _ _ _); simpl; by rewrite <- app_assoc|].
  split; [by intros ->|]. by intros e' ->.
Qed.

(** C6 — unregistered jobtype (as amended).  On a worker whose user
    middleware (if any) are onion-style, for every job whose jobtype
    names nothing in the registry — no property of its own and nothing
    truthy along its prototype chain — the executor throws the error that
    names the jobtype, [handle] takes the [catch] block with it as with
    any error of the execution, and sends a fail report for the job's id
    with that error; when the report resolves it emits ["fail"] and
    returns the failure marker ["fail"]. *)
Theorem handle_unregistered_jobtype this client j w specs :
  middleware this = onions specs →
  own (registry this) !! jobtype j = None →
  inherited (registry this) (jobtype j) = None →
  (execute (registry this) (middleware this) j).1
  = Throw (ThrownError (MkError "Error" ("No jobtype registered: " +:+ jobtype j)))
  ∧ handle this client j w
    = handle_catch client j (ThrownError (registryError (jobtype j))) w
  ∧ calls (handle this client j w).2
    = calls w ++ [CFail (jid j) (registryError (jobtype j))]
  ∧ (fail_ client (calls w) (jid j) (registryError (jobtype j)) = Normal tt →
     handle this client j w
     = (Normal "fail",
        emit (EmFail j (ThrownError (registryError (jobtype j))))
          (call (CFail (jid j) (registryError (jobtype j))) w))).
Proof.
  intros Hmw Hown Hinherited.
  assert (Hreg : registry this !! jobtype j = None).
  { change (match own (registry this) !! jobtype j with
            | Some f => Some f
            | None => inherited (registry this) (jobtype j)
            end = None).
    by rewrite Hown. }
  assert (He : (execute (registry this) (middleware this) j).1
               = Throw (ThrownError (registryError (jobtype j)))).
  { rewrite Hmw. destruct (execute_onions (registry this) specs j) as (x & -> & _).
    unfold executorOutcome. by rewrite Hreg. }
  split; [exact He|]. rewrite (handle_throw _ _ _ _ _ He).
  split; [done|]. unfold handle_catch. simpl.
  split; [by destruct (fail_ _ _ _ _)|]. by intros ->.
Qed.

(** *** After [quiet] *)

Lemma setTick_quieted this pid w :
  quieted w = true →
  setTick this pid w
  = set_processors (<[pid := length (tasks w)]> (processors w))
      (set_tasks (tasks w ++ [Settled]) (set_ticked (ticked w ++ [pid]) w)).
Proof. intros Hq. unfold setTick, tick. simpl. by rewrite Hq. Qed.

(** Closes an equation between the counters of two states, given the
    facts [count_insert] provides about an overwritten task. *)
Ltac counters :=
  unfold ticks, due, occurrences, fetches, closes, fetchCount in *; simpl in *;
  rewrite ?count_snoc, ?count_cons in *; simpl in *;
  repeat case_bool_decide; simplify_eq; lia.

(** The [catch] block leaves the slot one call of [tick] due: the
    suspended call that sleeps, or the one its [finally] block asks for. *)
Lemma tick_catch_due t p e v pid task :
  tasks v !! t = Some task →
  running pid task = bool_decide (p = pid) →
  ticks pid (tick_catch t p e v) = ticks pid v
  ∧ due pid (tick_catch t p e v) = due pid v.
Proof.
  intros Ht Hr.
  destruct (tick_catch_frame t p e v)
    as (_ & Htk & Hs & _ & _ & _ & _ & _ & _ & _ & _ & _ & _ & _ & Hcase).
  unfold ticks, due. rewrite Htk, Hs. split; [done|].
  destruct Hcase as [(_ & Hts & Him & _)|(_ & Hts & Him & _)]; rewrite Hts, Him.
  - pose proof (count_insert (running pid) _ _ _ (AwaitSleep p) Ht) as Hc.
    rewrite Hr in Hc. simpl in Hc. lia.
  - pose proof (count_insert (running pid) _ _ _ Settled Ht) as Hc.
    rewrite Hr in Hc. simpl in Hc. unfold occurrences. rewrite count_snoc.
    destruct (bool_decide (p = pid)); lia.
Qed.

(** Once the flag is set, no step resets it or issues a [fetch], and every
    call of [tick] for a slot is one that was due. *)
Lemma step_after_quiet this client l w w' :
  step this client l w = Some w' →
  quieted w = true →
  quieted w' = true ∧ fetches w' = fetches w
  ∧ ∀ pid, ticks pid w' + due pid w' = ticks pid w + due pid w.
Proof.
  unfold step. destruct (exited w); [done|]. intros Hstep Hq.
  destruct l as [| |t|t|t| | | | | | | | |].
  - destruct (starting w) as [|p0 rest] eqn:Hs; simplify_eq.
    rewrite setTick_quieted by done. simpl.
    split; [done|split; [done|]]. intros pid. unfold due. rewrite Hs. counters.
  - destruct (immediates w) as [|p0 rest] eqn:Hs; simplify_eq.
    rewrite setTick_quieted by done. simpl.
    split; [done|split; [done|]]. intros pid. unfold due. rewrite Hs. counters.
  - destruct (tasks w !! t) as [[p|p j|p|]|] eqn:Ht; simplify_eq.
    destruct (fetch_ client (calls w) (queues this)) as [[j|]|e]; simplify_eq.
    + simpl. (split; [done|split; [done|]]); intros pid.
      pose proof (count_insert (running pid) _ _ _ (AwaitHandle p j) Ht). counters.
    + simpl. (split; [done|split; [done|]]); intros pid.
      pose proof (count_insert (running pid) _ _ _ Settled Ht). counters.
    + destruct (tick_catch_frame t p e w)
        as (Hq1 & _ & _ & _ & _ & _ & _ & _ & _ & Hc1 & _).
      split; [congruence|]. split; [unfold fetches; by rewrite Hc1|].
      intros pid. by destruct (tick_catch_due t p e w pid _ Ht eq_refl) as [-> ->].
  - destruct (tasks w !! t) as [[p|p j|p|]|] eqn:Ht; simplify_eq.
    destruct (handle this client j w) as [r w1] eqn:Hh.
    destruct (handle_frame _ _ _ _ _ _ Hh)
      as (Hq1 & Ht1 & Hi1 & Htk1 & Hs1 & _ & _ & _ & _ & _ & _ & Hf1 & _).
    rewrite <- Ht1 in Ht.
    assert (Hsame : ∀ pid, ticks pid w1 + due pid w1 = ticks pid w + due pid w).
    { intros pid. unfold ticks, due. by rewrite Hi1, Htk1, Hs1, Ht1. }
    destruct r as [marker|e]; simplify_eq.
    + simpl. (split; [congruence|split; [done|]]); intros pid.
      pose proof (count_insert (running pid) _ _ _ Settled Ht).
      unfold ticks, due in *. simpl. rewrite Hi1, Htk1, Hs1, <- Ht1. counters.
    + destruct (tick_catch_frame t p e w1)
        as (Hq2 & _ & _ & _ & _ & _ & _ & _ & _ & Hc2 & _).
      split; [congruence|]. split; [unfold fetches in *; by rewrite Hc2|].
      intros pid. rewrite <- Hsame.
      by destruct (tick_catch_due t p e w1 pid _ Ht eq_refl) as [-> ->].
  - destruct (tasks w !! t) as [[p|p j|p|]|] eqn:Ht; simplify_eq. simpl.
    split; [done|split; [done|]]. intros pid.
    pose proof (count_insert (running pid) _ _ _ Settled Ht). counters.
  - simplify_eq. by split; [|split].
  - destruct (heartbeat w); simplify_eq. unfold beat.
    destruct (beat_ client (calls w)) as [response|e]; simpl.
    + repeat case_decide; simpl;
        (split; [done|split; [counters|intros pid; counters]]).
    + split; [done|split; [counters|intros pid; counters]].
  - destruct (shutdown w); simplify_eq. simpl. by split; [|split].
  - destruct (shutdown w) as [|ts| | |]; simplify_eq.
    destruct (allSettled ts w && noneRejected ts w); simplify_eq. simpl.
    split; [done|split; [counters|intros pid; counters]].
  - destruct (shutdown w); simplify_eq.
    destruct (close_ client (calls w)); simplify_eq; simpl; by split; [|split].
  - destruct (timeout w); simplify_eq. simpl.
    split; [done|split; [counters|intros pid; counters]].
  - destruct (shutdown w), (failure w); simplify_eq. simpl. by split; [|split].
  - simplify_eq. by split; [|split].
  - simplify_eq. by split; [|split].
Qed.

Lemma steps_after_quiet this client ls : ∀ w w',
  steps this client ls w = Some w' →
  quieted w = true →
  quieted w' = true ∧ fetches w' = fetches w
  ∧ ∀ pid, ticks pid w' + due pid w' = ticks pid w + due pid w.
Proof.
  induction ls as [|l ls IH]; intros w w' Hrun Hq; simpl in Hrun.
  - by simplify_eq.
  - destruct (step this client l w) as [w1|] eqn:Hstep; [|done].
    destruct (step_after_quiet _ _ _ _ _ Hstep Hq) as (Hq1 & Hf1 & Hd1).
    destruct (IH _ _ Hrun Hq1) as (Hq' & Hf' & Hd').
    split; [done|]. split; [congruence|]. intros pid. rewrite Hd'. apply Hd1.
Qed.

(** The first call [handle] makes on the client is the ack or the fail of
    its job. *)
Lemma handle_reports this client j w :
  ∃ c more, calls (handle this client j w).2 = calls w ++ c :: more
    ∧ (c = CAck (jid j) ∨ ∃ error, c = CFail (jid j) error).
Proof.
  unfold handle. destruct (execute _ _ _).1 as [[]|e].
  - exists (CAck (jid j)). destruct (ack_ _ _ _) as [[]|e]; simpl.
    + exists []. auto.
    + unfold handle_catch. simpl. eexists. split; [|by left].
      destruct (fail_ _ _ _ _); simpl; by rewrite <- app_assoc.
  - unfold handle_catch. exists (CFail (jid j) (wrapNonErrors e)), [].
    split; [by destruct (fail_ _ _ _ _)|]. right. eauto.
Qed.

(** C3 — quiet halts acquisition (as amended).  Once [quiet()] has been
    called: a tick that observes the flag issues no fetch and does not
    reschedule its slot; whatever happens next, no slot issues a fetch and
    the flag stays set; and every call of [tick] made from then on is one
    of those that were due at the time.  A slot that was past the check
    completes its cycle.  Its fetch settles: with a job, which the call
    goes on to handle; with none, and the call is over; or with an error,
    which takes the [catch] block.  The job it has fetched is handled:
    [handle] runs as it does on any worker, its ack or fail is sent, and
    the call is over unless [handle] rejects, which takes the [catch]
    block.  The [catch] block emits the error, and then sleeps or, the
    worker having no ['error'] listener, ends the call with its promise
    rejected.  A call that is over has rescheduled its slot once, through
    its [finally] block; the rescheduled tick is one further call of
    [tick], which observes the flag. *)
Theorem quiet_halts_acquisition this client w :
  quieted w = true →
  exited w = None →
  (∀ pid, tick this pid w = (Settled, set_ticked (ticked w ++ [pid]) w)
     ∧ calls (setTick this pid w) = calls w
     ∧ immediates (setTick this pid w) = immediates w
     ∧ starting (setTick this pid w) = starting w)
  ∧ (∀ ls w', steps this client ls w = Some w' →
       quieted w' = true ∧ fetches w' = fetches w
       ∧ ∀ pid, ticks pid w' + due pid w' = ticks pid w + due pid w)
  ∧ (∀ t pid, tasks w !! t = Some (AwaitFetch pid) →
       ∃ w1, step this client (LFetch t) w = Some w1
         ∧ calls w1 = calls w
         ∧ match fetch_ client (calls w) (queues this) with
           | Normal (Some j) =>
               tasks w1 = <[t := AwaitHandle pid j]> (tasks w)
               ∧ immediates w1 = immediates w
               ∧ emitted w1 = emitted w ∧ rejections w1 = rejections w
           | Normal None =>
               tasks w1 = <[t := Settled]> (tasks w)
               ∧ immediates w1 = immediates w ++ [pid]
               ∧ emitted w1 = emitted w ∧ rejections w1 = rejections w
           | Throw e => w1 = tick_catch t pid e w
           end)
  ∧ (∀ t pid j, tasks w !! t = Some (AwaitHandle pid j) →
       ∃ w1, step this client (LHandle t) w = Some w1
         ∧ (∃ c more, calls w1 = calls w ++ c :: more
              ∧ (c = CAck (jid j) ∨ ∃ error, c = CFail (jid j) error))
         ∧ calls w1 = calls (handle this client j w).2
         ∧ match (handle this client j w).1 with
           | Normal _ =>
               tasks w1 = <[t := Settled]> (tasks w)
               ∧ immediates w1 = immediates w ++ [pid]
               ∧ emitted w1 = emitted (handle this client j w).2
               ∧ rejections w1 = rejections w
           | Throw e => w1 = tick_catch t pid e (handle this client j w).2
           end)
  ∧ (∀ t pid e v, tasks v !! t = Some (AwaitFetch pid)
                  ∨ (∃ j, tasks v !! t = Some (AwaitHandle pid j)) →
       emitted (tick_catch t pid e v) = emitted v ++ [EmError e]
       ∧ calls (tick_catch t pid e v) = calls v
       ∧ quieted (tick_catch t pid e v) = quieted v
       ∧ (listeners v ≠ 0 →
          tasks (tick_catch t pid e v) = <[t := AwaitSleep pid]> (tasks v)
          ∧ immediates (tick_catch t pid e v) = immediates v
          ∧ rejections (tick_catch t pid e v) = rejections v)
       ∧ (listeners v = 0 →
          tasks (tick_catch t pid e v) = <[t := Settled]> (tasks v)
          ∧ immediates (tick_catch t pid e v) = immediates v ++ [pid]
          ∧ rejections (tick_catch t pid e v) !! t = Some (unhandled e)))
  ∧ (∀ t pid, tasks w !! t = Some (AwaitSleep pid) →
       ∃ w1, step this client (LSleep t) w = Some w1
         ∧ calls w1 = calls w
         ∧ tasks w1 !! t = Some Settled
         ∧ immediates w1 = immediates w ++ [pid])
  ∧ (∀ pid rest, immediates w = pid :: rest →
       ∃ w1, step this client LImmediate w = Some w1
         ∧ calls w1 = calls w
         ∧ immediates w1 = rest
         ∧ ticked w1 = ticked w ++ [pid]
         ∧ tasks w1 = tasks w ++ [Settled]).
Proof.
  intros Hq Hex.
  split.
  { intros pid. rewrite setTick_quieted by done. unfold tick. simpl.
    by rewrite Hq. }
  split.
  { intros ls w' Hrun. by eapply steps_after_quiet. }
  split.
  { intros t pid Ht. unfold step. rewrite Hex, Ht.
    destruct (fetch_ client (calls w) (queues this)) as [[j|]|e];
      (eexists; split; [reflexivity|]); simpl; [by split..|].
    split; [|done].
    by destruct (tick_catch_frame t pid e w)
      as (_ & _ & _ & _ & _ & _ & _ & _ & _ & -> & _). }
  split.
  { intros t pid j Ht. unfold step. rewrite Hex, Ht.
    destruct (handle_reports this client j w) as (c & more & Hcalls & Hc).
    destruct (handle this client j w) as [r w1] eqn:Hh.
    destruct (handle_frame _ _ _ _ _ _ Hh)
      as (_ & Ht1 & Hi1 & _ & _ & _ & _ & _ & _ & _ & _ & _ & _ & _ & Hr1 & _).
    simpl in Hcalls. cbn [fst snd].
    destruct r as [marker|e]; (eexists; split; [reflexivity|]).
    - simpl. split; [by exists c, more|]. by rewrite Ht1, Hi1, Hr1.
    - destruct (tick_catch_frame t pid e w1)
        as (_ & _ & _ & _ & _ & _ & _ & _ & _ & Hc1 & _).
      rewrite Hc1. split; [by exists c, more|]. done. }
  split.
  { intros t pid e v _.
    destruct (tick_catch_frame t pid e v)
      as (Hq1 & _ & _ & _ & _ & _ & _ & _ & _ & Hc1 & Hem & _ & _ & _ & Hcase).
    split; [done|]. split; [done|]. split; [done|].
    destruct Hcase as [(Hl & Hts & Him & Hrj & _)|(Hl & Hts & Him & Hrj)].
    - split; [done|]. intros Hz. by rewrite Hz in Hl.
    - split; [intros Hnz; by rewrite Hl in Hnz|]. intros _.
      split; [done|]. split; [done|]. rewrite Hrj. by rewrite lookup_insert_eq. }
  split.
  { intros t pid Ht. unfold step. rewrite Hex, Ht.
    pose proof (lookup_lt_Some _ _ _ Ht) as Hlt.
    eexists. split; [reflexivity|]. simpl.
    split; [done|]. split; [by apply list_lookup_insert_eq|done]. }
  intros pid rest Him. unfold step. rewrite Hex, Him.
  eexists. split; [reflexivity|]. rewrite setTick_quieted by done. by simpl.
Qed.

(** *** [stop] *)

(** A promise of [tick] that is settled stays as it is, and a rejection
    is never taken back. *)
Lemma setTick_settled this p0 w t :
  (tasks w !! t = Some Settled → tasks (setTick this p0 w) !! t = Some Settled)
  ∧ rejections (setTick this p0 w) = rejections w
  ∧ shutdown (setTick this p0 w) = shutdown w
  ∧ closes (setTick this p0 w) = closes w
  ∧ timeout (setTick this p0 w) = timeout w
  ∧ resolved (setTick this p0 w) = resolved w
  ∧ heartbeat (setTick this p0 w) = heartbeat w
  ∧ exited (setTick this p0 w) = exited w
  ∧ warnings (setTick this p0 w) = warnings w
  ∧ failure (setTick this p0 w) = failure w.
Proof.
  unfold setTick, tick, closes. simpl.
  destruct (quieted w); simpl; rewrite ?count_snoc; simpl; rewrite ?Nat.add_0_r;
    (split; [by apply lookup_app_l_Some|done]).
Qed.

Lemma insert_settled (l : list Task) t t' old new :
  l !! t = Some old → old ≠ Settled →
  l !! t' = Some Settled → <[t := new]> l !! t' = Some Settled.
Proof.
  intros Ht Hold Ht'. rewrite list_lookup_insert_ne; [done|]. intros ->. congruence.
Qed.

Lemma tick_catch_settled t pid e v old t' :
  tasks v !! t = Some old → old ≠ Settled →
  (tasks v !! t' = Some Settled →
     tasks (tick_catch t pid e v) !! t' = Some Settled
     ∧ rejections (tick_catch t pid e v) !! t' = rejections v !! t')
  ∧ (is_Some (rejections v !! t') → is_Some (rejections (tick_catch t pid e v) !! t')).
Proof.
  intros Ht Hold.
  destruct (tick_catch_frame t pid e v)
    as (_ & _ & _ & _ & _ & _ & _ & _ & _ & _ & _ & _ & _ & _ & Hcase).
  destruct Hcase as [(_ & -> & _ & -> & _)|(_ & -> & _ & ->)].
  - split; [|done]. intros Ht'. split; [by eapply insert_settled|done].
  - split.
    + intros Ht'. split; [by eapply insert_settled|].
      rewrite lookup_insert_ne; [done|]. intros ->. congruence.
    + intros Hs. destruct (decide (t = t')) as [->|Hne].
      * rewrite lookup_insert_eq. eauto.
      * by rewrite lookup_insert_ne.
Qed.

Lemma step_settled this client l w w' :
  step this client l w = Some w' →
  ∀ t, (tasks w !! t = Some Settled →
          tasks w' !! t = Some Settled ∧ rejections w' !! t = rejections w !! t)
       ∧ (is_Some (rejections w !! t) → is_Some (rejections w' !! t)).
Proof.
  unfold step. destruct (exited w); [done|]. intros Hstep t'.
  destruct l as [| |t|t|t| | | | | | | | |].
  - destruct (starting w) as [|p0 rest]; simplify_eq.
    destruct (setTick_settled this p0 (set_starting rest w) t') as (Hs & -> & _).
    split; [|done]. intros Ht. split; [by apply Hs|done].
  - destruct (immediates w) as [|p0 rest]; simplify_eq.
    destruct (setTick_settled this p0 (set_immediates rest w) t') as (Hs & -> & _).
    split; [|done]. intros Ht. split; [by apply Hs|done].
  - destruct (tasks w !! t) as [[p|p j|p|]|] eqn:Ht; simplify_eq.
    destruct (fetch_ client (calls w) (queues this)) as [[j|]|e]; simplify_eq; simpl.
    + split; [|done]. intros Ht'. split; [by eapply insert_settled|done].
    + split; [|done]. intros Ht'. split; [by eapply insert_settled|done].
    + by apply (tick_catch_settled t p e w (AwaitFetch p)).
  - destruct (tasks w !! t) as [[p|p j|p|]|] eqn:Ht; simplify_eq.
    destruct (handle this client j w) as [r w1] eqn:Hh.
    destruct (handle_frame _ _ _ _ _ _ Hh)
      as (_ & Ht1 & _ & _ & _ & _ & _ & _ & _ & _ & _ & _ & _ & _ & Hr1 & _).
    destruct r as [marker|e]; simplify_eq.
    + simpl. rewrite Ht1, Hr1. split; [|done].
      intros Ht'. split; [by eapply insert_settled|done].
    + rewrite <- Ht1, <- Hr1. apply (tick_catch_settled t p e w1 (AwaitHandle p j)); [|done].
      by rewrite Ht1.
  - destruct (tasks w !! t) as [[p|p j|p|]|] eqn:Ht; simplify_eq. simpl.
    split; [|done]. intros Ht'. split; [by eapply insert_settled|done].
  - by simplify_eq.
  - destruct (heartbeat w); simplify_eq. unfold beat.
    destruct (beat_ client (calls w)) as [response|e]; simpl;
      repeat case_decide; done.
  - destruct (shutdown w); by simplify_eq.
  - destruct (shutdown w) as [|ts| | |]; simplify_eq.
    destruct (allSettled ts w && noneRejected ts w); by simplify_eq.
  - destruct (shutdown w); simplify_eq.
    destruct (close_ client (calls w)); by simplify_eq.
  - destruct (timeout w); by simplify_eq.
  - destruct (shutdown w), (failure w); by simplify_eq.
  - by simplify_eq.
  - by simplify_eq.
Qed.

Lemma allSettled_spec ts w :
  allSettled ts w = true ↔ ∀ t, In t ts → tasks w !! t = Some Settled.
Proof.
  unfold allSettled. rewrite forallb_forall. split; intros Hall t Hin.
  - specialize (Hall t Hin). by destruct (tasks w !! t) as [[]|].
  - by rewrite (Hall t Hin).
Qed.

Lemma noneRejected_spec ts w :
  noneRejected ts w = true ↔ ∀ t, In t ts → rejections w !! t = None.
Proof.
  unfold noneRejected. rewrite forallb_forall. split; intros Hall t Hin.
  - specialize (Hall t Hin). by destruct (rejections w !! t).
  - by rewrite (Hall t Hin).
Qed.

Lemma fulfilled_preserved ts w w' :
  (∀ t, tasks w !! t = Some Settled →
        tasks w' !! t = Some Settled ∧ rejections w' !! t = rejections w !! t) →
  fulfilled ts w → fulfilled ts w'.
Proof.
  intros Hs [Hall Hnone]. rewrite allSettled_spec in Hall.
  rewrite noneRejected_spec in Hnone. split.
  - apply allSettled_spec. intros t Hin. by apply Hs, Hall.
  - apply noneRejected_spec. intros t Hin.
    destruct (Hs t (Hall t Hin)) as [_ ->]. by apply Hnone.
Qed.

Lemma rejected_preserved ts w w' :
  (∀ t, is_Some (rejections w !! t) → is_Some (rejections w' !! t)) →
  noneRejected ts w = false → noneRejected ts w' = false.
Proof.
  intros Hs Hfalse. apply not_true_iff_false. apply not_true_iff_false in Hfalse.
  intros Hall. apply Hfalse. rewrite noneRejected_spec in Hall.
  apply noneRejected_spec. intros t Hin.
  destruct (rejections w !! t) as [e|] eqn:Hr; [|done].
  destruct (Hs t) as [e' He']; [by rewrite Hr; eauto|].
  by rewrite (Hall t Hin) in He'.
Qed.

Lemma step_fulfilled this client l w w' ts :
  step this client l w = Some w' →
  (fulfilled ts w → fulfilled ts w')
  ∧ (noneRejected ts w = false → noneRejected ts w' = false).
Proof.
  intros Hstep. pose proof (step_settled _ _ _ _ _ Hstep) as Hs. split.
  - apply fulfilled_preserved. intros t. apply Hs.
  - apply rejected_preserved. intros t. apply Hs.
Qed.

(** The value [stop] finds is the rejection of a promise it awaits. *)
Lemma awaitedFailure_rejected w :
  is_Some (awaitedFailure w) → noneRejected (inProgress w) w = false.
Proof.
  unfold awaitedFailure. intros [e He].
  apply head_Some_elem_of in He. apply list_elem_of_omap in He as (pid & _ & Hpid).
  destruct (processors w !! pid) as [t|] eqn:Hp; [|done]. simpl in Hpid.
  apply not_true_iff_false. rewrite noneRejected_spec.
  intros Hall. specialize (Hall t). rewrite Hpid in Hall.
  assert (Hin : In t (inProgress w)); [|by specialize (Hall Hin)].
  apply list_elem_of_In. unfold inProgress. apply list_elem_of_fmap.
  exists (pid, t). split; [done|]. by apply elem_of_map_to_list.
Qed.

(** What the [catch] block does to a shutdown under way. *)
Lemma tick_catch_stopping base res ts t pid e v old :
  tasks v !! t = Some old → old ≠ Settled →
  stopping base res ts v →
  stopping base res ts (tick_catch t pid e v).
Proof.
  intros Ht Hold (Hhb & Hex & Hphase).
  assert (Hstep : ∀ t', (tasks v !! t' = Some Settled →
      tasks (tick_catch t pid e v) !! t' = Some Settled
      ∧ rejections (tick_catch t pid e v) !! t' = rejections v !! t')
    ∧ (is_Some (rejections v !! t')
       → is_Some (rejections (tick_catch t pid e v) !! t'))).
  { intros t'. by eapply tick_catch_settled. }
  assert (Hful : fulfilled ts v → fulfilled ts (tick_catch t pid e v)).
  { apply fulfilled_preserved. intros t'. apply Hstep. }
  assert (Hrej : noneRejected ts v = false →
                 noneRejected ts (tick_catch t pid e v) = false).
  { apply rejected_preserved. intros t'. apply Hstep. }
  destruct (tick_catch_frame t pid e v)
    as (_ & _ & _ & Hex1 & Hsh1 & Hto1 & Hhb1 & Hres1 & _ & Hc1 & _ & _ & Hw1 & _ & Hcase).
  unfold stopping, closes in *. rewrite Hex1, Hsh1, Hto1, Hhb1, Hres1, Hc1, Hw1.
  split; [done|]. split; [done|].
  destruct (shutdown v) as [|ts'| | |e0] eqn:Hsh; try done.
  - destruct Hphase as (-> & Hcl & Hto & Hr & Hfail).
    repeat (split; [done|]).
    destruct Hcase as [(_ & _ & _ & _ & Hf)|(Hl & Hts & Him & Hrj)].
    + rewrite Hf. intros Hsome. apply Hrej. by apply Hfail.
    + intros Hsome. unfold tick_catch in Hsome |- *. simpl in Hsome |- *.
      rewrite Hl in Hsome |- *. unfold rejectTick in Hsome |- *. simpl in Hsome |- *.
      rewrite Hsh in Hsome |- *.
      destruct (failure v) as [e1|] eqn:Hfv; simpl in Hsome |- *.
      * assert (Hold' : noneRejected ts v = false) by (apply Hfail; eauto).
        apply not_true_iff_false. apply not_true_iff_false in Hold'.
        intros Hall. apply Hold'. rewrite noneRejected_spec in Hall.
        apply noneRejected_spec. intros t' Hin. specialize (Hall t' Hin).
        simpl in Hall. destruct (decide (t = t')) as [->|Hne].
        -- by rewrite lookup_insert_eq in Hall.
        -- by rewrite lookup_insert_ne in Hall.
      * case_bool_decide as Hin; simpl in Hsome |- *;
          [|unfold tick_finally in Hsome; simpl in Hsome; rewrite Hfv in Hsome;
            by destruct Hsome].
        apply not_true_iff_false. rewrite noneRejected_spec.
        intros Hall. apply list_elem_of_In in Hin. specialize (Hall t Hin).
        simpl in Hall. by rewrite lookup_insert_eq in Hall.
  - destruct Hphase as (? & ? & ? & ?). auto.
  - destruct Hphase as (? & ? & ? & ?). auto.
  - destruct Hphase as (? & ? & ? & [[? ?]|[? ?]]); auto 10.
Qed.

Lemma step_stopping this client base res ts l w w' :
  stopping base res ts w →
  l ≠ LTimeout →
  step this client l w = Some w' →
  stopping base res ts w'.
Proof.
  intros Hinv Hl Hstep.
  pose proof (step_fulfilled _ _ _ _ _ ts Hstep) as [Hful Hrej].
  revert Hstep. destruct Hinv as (Hhb & Hex & Hphase).
  unfold step. rewrite Hex.
  assert (Hslot : ∀ v, shutdown v = shutdown w → closes v = closes w →
    timeout v = timeout w → resolved v = resolved w → heartbeat v = heartbeat w →
    exited v = exited w → warnings v = warnings w → failure v = failure w →
    w' = v → stopping base res ts w').
  { intros v Hsh Hcl Hto Hres Hhbv Hexv Hwv Hfv ->.
    unfold stopping. rewrite Hsh, Hcl, Hto, Hres, Hhbv, Hexv, Hwv, Hfv.
    split; [done|]. split; [done|].
    destruct (shutdown w) as [|ts'| | |e0]; try done.
    - destruct Hphase as (? & ? & ? & ? & Hfail). repeat (split; [done|]).
      intros Hsome. apply Hrej. by apply Hfail.
    - destruct Hphase as (? & ? & ? & ?). auto.
    - destruct Hphase as (? & ? & ? & ?). auto.
    - destruct Hphase as (? & ? & ? & [[? ?]|[? ?]]); auto 10. }
  destruct l as [| |t|t|t| | | | | | | | |]; try done.
  - destruct (starting w) as [|p0 rest]; [done|]. intros; simplify_eq.
    destruct (setTick_settled this p0 (set_starting rest w) 0)
      as (_ & _ & ? & ? & ? & ? & ? & ? & ? & ?).
    eapply Hslot; [..|reflexivity]; done.
  - destruct (immediates w) as [|p0 rest]; [done|]. intros; simplify_eq.
    destruct (setTick_settled this p0 (set_immediates rest w) 0)
      as (_ & _ & ? & ? & ? & ? & ? & ? & ? & ?).
    eapply Hslot; [..|reflexivity]; done.
  - destruct (tasks w !! t) as [[p|p j|p|]|] eqn:Ht; try done.
    destruct (fetch_ client (calls w) (queues this)) as [[j|]|e];
      intros; simplify_eq.
    + eapply Hslot; [..|reflexivity]; done.
    + eapply Hslot; [..|reflexivity]; done.
    + by apply (tick_catch_stopping _ _ _ _ _ _ _ (AwaitFetch p)).
  - destruct (tasks w !! t) as [[p|p j|p|]|] eqn:Ht; try done.
    destruct (handle this client j w) as [r w1] eqn:Hh.
    destruct (handle_frame _ _ _ _ _ _ Hh)
      as (_ & Ht1 & _ & _ & _ & Hex1 & Hsh1 & Hto1 & Hhb1 & Hres1 & _ & _ & Hcl1
          & _ & Hrj1 & Hf1 & Hw1).
    destruct r as [marker|e]; intros; simplify_eq.
    + eapply Hslot; [..|reflexivity]; done.
    + apply (tick_catch_stopping _ _ _ _ _ _ _ (AwaitHandle p j)); [by rewrite Ht1|done|].
      unfold stopping, fulfilled, allSettled, noneRejected.
      rewrite Hhb1, Hex1, Hsh1, Hto1, Hres1, Hcl1, Hf1, Hw1, Ht1, Hrj1.
      split; [done|]. by split.
  - destruct (tasks w !! t) as [[p|p j|p|]|] eqn:Ht; try done.
    intros; simplify_eq. eapply Hslot; [..|reflexivity]; done.
  - intros; simplify_eq. eapply Hslot; [..|reflexivity]; done.
  - by rewrite Hhb.
  - by destruct (shutdown w).
  - destruct (shutdown w) as [|ts'| | |] eqn:Hsh; try done.
    destruct (allSettled ts' w && noneRejected ts' w) eqn:Hall; [|done].
    intros; simplify_eq. destruct Hphase as (-> & Hcl & Hto & Hres & _).
    apply andb_true_iff in Hall as [Hall Hnone].
    unfold stopping, closes, fulfilled, allSettled, noneRejected in *. simpl.
    rewrite count_snoc. simpl.
    split; [done|]. split; [done|]. split; [lia|]. by split; [|split].
  - destruct (shutdown w) eqn:Hsh; try done.
    destruct Hphase as (Hcl & Hto & Hres & Hf).
    destruct (close_ client (calls w)) as [[]|e]; intros; simplify_eq;
      unfold stopping, closes, fulfilled, allSettled, noneRejected in *; simpl.
    + by split; [|split; [|split; [|split; [|split]]]].
    + split; [done|]. split; [done|]. split; [done|]. split; [done|].
      split; [apply elem_of_app; right; by left|]. right. by split.
  - destruct (shutdown w) as [|ts'| | |] eqn:Hsh; try done.
    destruct (failure w) as [e|] eqn:Hfw; [|done]. intros; simplify_eq.
    destruct Hphase as (-> & Hcl & Hto & Hres & Hfail).
    unfold stopping, closes, fulfilled, allSettled, noneRejected in *. simpl.
    split; [done|]. split; [done|]. split; [done|]. split; [done|].
    split; [apply elem_of_app; right; by left|]. left. split; [done|].
    apply Hfail. eauto.
  - intros; simplify_eq. eapply Hslot; [..|reflexivity]; done.
  - intros; simplify_eq. eapply Hslot; [..|reflexivity]; done.
Qed.

Lemma steps_stopping this client base res ts ls : ∀ w w',
  stopping base res ts w →
  LTimeout ∉ ls →
  steps this client ls w = Some w' →
  stopping base res ts w'.
Proof.
  induction ls as [|l ls IH]; intros w w' Hinv Hno Hrun; simpl in Hrun.
  - by simplify_eq.
  - destruct (step this client l w) as [w1|] eqn:Hstep; [|done].
    apply not_elem_of_cons in Hno as [Hl Hno].
    eapply IH; [|done..]. eapply step_stopping; eauto.
Qed.

Lemma stop_stopping w :
  shutdown w = NotStopping → exited w = None →
  stopping (closes w) (resolved w) (inProgress w) (stop w)
  ∧ shutdown (stop w) = Draining (inProgress w)
  ∧ quieted (stop w) = true ∧ stopped (stop w) = true
  ∧ timeout (stop w) = true.
Proof.
  intros Hsh Hex. unfold stopping, stop. simpl.
  split; [|done]. split; [done|]. split; [done|]. repeat (split; [done|]).
  intros Hsome. by apply (awaitedFailure_rejected w).
Qed.

(** C4 — stop drains or forcibly exits (as amended).  [stop()] quiets the
    worker, arms the shutdown timer and awaits the promises of
    [this.inProgress].  Until the timer fires, the process has not exited
    and the client has been closed at most once.  The drain path waits:
    it closes the client only when every awaited promise is settled, none
    by a rejection, and it does so then; if that close resolves before the
    timer fires, the client has been closed exactly once, the promise of
    [stop] is resolved and the timer is cleared.  As long as an awaited
    promise is unsettled the client has not been closed and [stop] has
    resolved nothing.  When an awaited promise is rejected the drain path
    only logs the rejection, and so it does when the close rejects: the
    timer stays armed.  If the timer fires first — promises unsettled or
    rejected, the close still pending or rejected — the worker calls
    [close] on the client, resolves, and the process exits with status 1:
    nothing happens after that. *)
Theorem stop_drains_or_exits this client w :
  shutdown w = NotStopping →
  exited w = None →
  (step this client LStop w = Some (stop w)
   ∧ shutdown (stop w) = Draining (inProgress w)
   ∧ quieted (stop w) = true
   ∧ timeout (stop w) = true)
  ∧ (∀ ls w1, steps this client (LStop :: ls) w = Some w1 → LTimeout ∉ ls →
       exited w1 = None
       ∧ shutdown w1 ≠ NotStopping
       ∧ (closes w1 ≤ closes w + 1)%nat
       ∧ (∀ w2, step this client LDrained w1 = Some w2 →
          shutdown w1 = Draining (inProgress w)
          ∧ allSettled (inProgress w) w1 = true
          ∧ noneRejected (inProgress w) w1 = true
          ∧ calls w2 = calls w1 ++ [CClose]
          ∧ closes w2 = closes w + 1)
       ∧ (closes w1 = closes w + 1 →
          allSettled (inProgress w) w1 = true
          ∧ noneRejected (inProgress w) w1 = true)
       ∧ (allSettled (inProgress w) w1 = false →
          shutdown w1 ≠ Stopped
          ∧ closes w1 = closes w ∧ resolved w1 = resolved w ∧ timeout w1 = true
          ∧ step this client LDrained w1 = None)
       ∧ (shutdown w1 = Stopped →
          closes w1 = closes w + 1 ∧ resolved w1 = true ∧ timeout w1 = false)
       ∧ (shutdown w1 ≠ Stopped → timeout w1 = true ∧ resolved w1 = resolved w)
       ∧ (shutdown w1 = Draining (inProgress w) →
          allSettled (inProgress w) w1 = true →
          noneRejected (inProgress w) w1 = true →
          ∃ w2, step this client LDrained w1 = Some w2
            ∧ shutdown w2 = Closing
            ∧ calls w2 = calls w1 ++ [CClose]
            ∧ (close_ client (calls w2) = Normal tt →
               ∃ w3, step this client LClosed w2 = Some w3
                 ∧ shutdown w3 = Stopped
                 ∧ closes w3 = closes w + 1
                 ∧ resolved w3 = true
                 ∧ timeout w3 = false
                 ∧ exited w3 = None)
            ∧ (∀ e, close_ client (calls w2) = Throw e →
               ∃ w3, step this client LClosed w2 = Some w3
                 ∧ shutdown w3 = Warned e
                 ∧ warnings w3 = warnings w2 ++ [e]
                 ∧ resolved w3 = resolved w
                 ∧ timeout w3 = true))
       ∧ (∀ e, shutdown w1 = Draining (inProgress w) → failure w1 = Some e →
          noneRejected (inProgress w) w1 = false
          ∧ step this client LDrained w1 = None
          ∧ ∃ w2, step this client LDrainFailed w1 = Some w2
              ∧ shutdown w2 = Warned e
              ∧ warnings w2 = warnings w1 ++ [e]
              ∧ calls w2 = calls w1
              ∧ resolved w2 = resolved w
              ∧ timeout w2 = true)
       ∧ (shutdown w1 ≠ Stopped →
          ∃ w2, step this client LTimeout w1 = Some w2
            ∧ calls w2 = calls w1 ++ [CClose]
            ∧ resolved w2 = true
            ∧ exited w2 = Some 1%Z
            ∧ ∀ l, step this client l w2 = None)).
Proof.
  intros Hsh Hex.
  destruct (stop_stopping w Hsh Hex) as (Hinv & Hdr & Hq & _ & Hto0).
  split.
  { unfold step. by rewrite Hex, Hsh. }
  intros ls w1 Hrun Hno. simpl in Hrun.
  assert (Hstep : step this client LStop w = Some (stop w))
    by (unfold step; by rewrite Hex, Hsh).
  rewrite Hstep in Hrun.
  pose proof (steps_stopping _ _ _ _ _ _ _ _ Hinv Hno Hrun) as (Hhb1 & Hex1 & Hph1).
  assert (Hnotdone : ∀ ts, allSettled ts w1 = false → ¬ fulfilled ts w1).
  { intros ts Hf [Hall _]. congruence. }
  split; [done|].
  split; [by destruct (shutdown w1)|].
  split.
  { destruct (shutdown w1); [done|lia..]. }
  split.
  { intros w2 Hd. unfold step in Hd. rewrite Hex1 in Hd.
    destruct (shutdown w1) as [|ts| | |]; try done.
    destruct Hph1 as (-> & Hcl & _).
    destruct (allSettled _ w1 && noneRejected _ w1) eqn:Hall; simplify_eq.
    apply andb_true_iff in Hall as [Hall Hnone]. simpl.
    split; [done|]. split; [done|]. split; [done|]. split; [done|].
    unfold closes in *. simpl. rewrite count_snoc. simpl. lia. }
  split.
  { intros Hcl. destruct (shutdown w1) as [|ts| | |e0]; try done.
    - destruct Hph1 as (_ & Hcl1 & _). lia.
    - by destruct Hph1 as (_ & _ & _ & ?).
    - by destruct Hph1 as (_ & _ & _ & ?).
    - destruct Hph1 as (_ & _ & _ & [[? ?]|[? ?]]); [lia|done]. }
  split.
  { intros Hun. apply Hnotdone in Hun.
    assert (Hns : shutdown w1 ≠ Stopped).
    { intros Hst. rewrite Hst in Hph1. by destruct Hph1 as (_ & _ & _ & ?). }
    split; [exact Hns|]. clear Hns.
    unfold step. rewrite Hex1.
    destruct (shutdown w1) as [|ts| | |e0]; try done.
    - destruct Hph1 as (-> & Hcl & Hto & Hres & _).
      split; [done|]. split; [done|]. split; [done|].
      destruct (allSettled _ w1 && noneRejected _ w1) eqn:Hall; [|done].
      apply andb_true_iff in Hall as [Hall Hnone]. by destruct Hun.
    - by destruct Hph1 as (_ & _ & _ & ?).
    - by destruct Hph1 as (_ & _ & _ & ?).
    - destruct Hph1 as (? & ? & _ & [[? ?]|[? ?]]); done. }
  split.
  { intros Hst. rewrite Hst in Hph1. destruct Hph1 as (? & ? & ? & _).
    split; [lia|done]. }
  split.
  { intros Hst. destruct (shutdown w1); try done.
    - by destruct Hph1 as (_ & _ & ? & ? & _).
    - by destruct Hph1 as (_ & ? & ? & _).
    - by destruct Hph1 as (? & ? & _). }
  split.
  { intros Hts Hall Hnone. rewrite Hts in Hph1.
    destruct Hph1 as (_ & Hcl & Hto & Hres & _).
    unfold step. rewrite Hex1, Hts, Hall, Hnone.
    eexists. split; [reflexivity|]. simpl. split; [done|]. split; [done|]. split.
    - intros Hclose. rewrite Hclose, Hex1.
      eexists. split; [reflexivity|]. simpl.
      split; [done|]. split; [counters|]. done.
    - intros e Hclose. rewrite Hclose, Hex1.
      eexists. split; [reflexivity|]. simpl. done. }
  split.
  { intros e Hts Hf. rewrite Hts in Hph1.
    destruct Hph1 as (_ & Hcl & Hto & Hres & Hfail).
    assert (Hrej : noneRejected (inProgress w) w1 = false) by (apply Hfail; eauto).
    split; [done|]. unfold step. rewrite Hex1, Hts, Hf, Hrej, andb_false_r.
    split; [done|]. eexists. split; [reflexivity|]. by simpl. }
  intros Hst.
  assert (Hto : timeout w1 = true).
  { destruct (shutdown w1); try done.
    - by destruct Hph1 as (_ & _ & ? & _).
    - by destruct Hph1 as (_ & ? & _).
    - by destruct Hph1 as (? & _). }
  unfold step at 1. rewrite Hex1, Hto.
  eexists. split; [reflexivity|]. simpl.
  split; [done|]. split; [done|]. split; [done|].
  intros l. unfold step. by simpl.
Qed.

(** *** The statements at the sample inputs *)

Lemma middleware_onion_order_witness :
  ∃ x, execute sampleRegistry
         [onion ["m1 enter"] ["m1 exit"]; onion ["m2 enter"] ["m2 exit"]]
         sampleJob
       = (Normal tt, x)
    ∧ observed x
      = [OUser "m1 enter"; OUser "m2 enter"; OLookup "Noop"; OCall [];
         OUser "m2 exit"; OUser "m1 exit"].
Proof.
  destruct (middleware_onion_order sampleRegistry sampleJob
              ["m1 enter"] ["m1 exit"] ["m2 enter"] ["m2 exit"])
    as ((x & Hrun & _ & Hobs) & _).
  exists x. split; [exact Hrun|exact Hobs].
Defined.

Lemma quiet_halts_acquisition_witness :
  quieted (quiet sampleMidJob) = true
  ∧ exited (quiet sampleMidJob) = None
  ∧ ∃ w', steps (sampleWorker []) (sampleClient true true)
            [LHandle 0; LImmediate] (quiet sampleMidJob) = Some w'
      ∧ quieted w' = true
      ∧ fetches w' = fetches (quiet sampleMidJob).
Proof.
  split; [reflexivity|]. split; [reflexivity|].
  destruct (quiet_halts_acquisition (sampleWorker []) (sampleClient true true)
              (quiet sampleMidJob) eq_refl eq_refl) as (_ & Hall & _).
  eexists. split; [vm_compute; reflexivity|].
  destruct (Hall [LHandle 0; LImmediate] _ ltac:(vm_compute; reflexivity))
    as (Hq & Hf & _).
  split; [exact Hq|exact Hf].
Defined.

(** C3, as stated, fails.  The slot [p1] is inside [handle] when [quiet()]
    is called.  It completes the job (the ack is sent); then its [finally]
    block has rescheduled it, and [tick] is called for it once more. *)
Lemma quiet_counterexample :
  tasks (quiet sampleMidJob) !! 0 = Some (AwaitHandle "p1" sampleJob)
  ∧ ticked (quiet sampleMidJob) = ["p1"]
  ∧ ∃ w1 w2,
      step (sampleWorker []) (sampleClient true true) (LHandle 0) (quiet sampleMidJob)
      = Some w1
      ∧ calls w1 = calls (quiet sampleMidJob) ++ [CAck "abc"]
      ∧ tasks w1 !! 0 = Some Settled
      ∧ immediates w1 = ["p1"]
      ∧ step (sampleWorker []) (sampleClient true true) LImmediate w1 = Some w2
      ∧ ticked w2 = ["p1"; "p1"].
Proof.
  split; [reflexivity|]. split; [reflexivity|].
  eexists _, _. split; [vm_compute; reflexivity|].
  split; [reflexivity|]. split; [reflexivity|]. split; [reflexivity|].
  split; [vm_compute; reflexivity|]. reflexivity.
Qed.

Lemma stop_drains_or_exits_witness :
  shutdown sampleMidJob = NotStopping
  ∧ exited sampleMidJob = None
  ∧ ∃ w1, steps (sampleWorker []) (sampleClient true true)
            [LStop; LHandle 0; LDrained; LClosed] sampleMidJob = Some w1
      ∧ shutdown w1 = Stopped
      ∧ closes w1 = closes sampleMidJob + 1
      ∧ resolved w1 = true
      ∧ timeout w1 = false
      ∧ exited w1 = None.
Proof.
  split; [reflexivity|]. split; [reflexivity|].
  destruct (stop_drains_or_exits (sampleWorker []) (sampleClient true true)
              sampleMidJob eq_refl eq_refl) as (_ & Hall).
  eexists. split; [vm_compute; reflexivity|].
  destruct (Hall [LHandle 0; LDrained; LClosed] _ ltac:(vm_compute; reflexivity))
    as (Hex & _ & _ & _ & _ & _ & Hstopped & _).
  { intros Hin. by repeat (apply elem_of_cons in Hin as [Hin|Hin]; [done|]);
      apply elem_of_nil in Hin. }
  split; [reflexivity|].
  destruct (Hstopped eq_refl) as (Hcl & Hres & Hto).
  split; [exact Hcl|]. split; [exact Hres|]. split; [exact Hto|exact Hex].
Defined.

(** C4, as stated, fails.  The one slot is inside [handle] when [stop()]
    is called; its task settles while the timer is still armed, and the
    drain path calls [close]; the timer fires before that close settles:
    the client is closed a second time and the process exits with 1.
    And on a worker with no ["error"] listener whose fetch rejects, the
    one awaited promise settles, by a rejection, before the timer fires:
    the drain path logs the rejection and closes nothing, [stop] stays
    unresolved, and the timer ends the process with 1. *)
Lemma stop_counterexample :
  (∃ w1 w2,
    steps (sampleWorker []) (sampleClient true true) [LStop; LHandle 0] sampleMidJob
    = Some w1
    ∧ shutdown w1 = Draining [0]
    ∧ allSettled [0] w1 = true
    ∧ timeout w1 = true
    ∧ steps (sampleWorker []) (sampleClient true true) [LDrained; LTimeout] w1
      = Some w2
    ∧ closes w2 = closes sampleMidJob + 2
    ∧ exited w2 = Some 1%Z)
  ∧ ∃ v1 v2 v3,
      listeners WorkerRuns.sampleStarted = 0
      ∧ steps (sampleWorker []) WorkerRuns.failingFetchClient [LStop; LFetch 0]
          WorkerRuns.sampleStarted
        = Some v1
      ∧ shutdown v1 = Draining [0]
      ∧ allSettled [0] v1 = true
      ∧ rejections v1 !! 0 = Some sampleError
      ∧ step (sampleWorker []) WorkerRuns.failingFetchClient LDrained v1 = None
      ∧ step (sampleWorker []) WorkerRuns.failingFetchClient LDrainFailed v1 = Some v2
      ∧ shutdown v2 = Warned sampleError
      ∧ closes v2 = 0
      ∧ resolved v2 = false
      ∧ timeout v2 = true
      ∧ step (sampleWorker []) WorkerRuns.failingFetchClient LTimeout v2 = Some v3
      ∧ closes v3 = 1
      ∧ exited v3 = Some 1%Z.
Proof.
  split.
  - eexists _, _. split; [vm_compute; reflexivity|].
    split; [reflexivity|]. split; [reflexivity|]. split; [reflexivity|].
    split; [vm_compute; reflexivity|]. split; reflexivity.
  - eexists _, _, _. split; [reflexivity|].
    split; [vm_compute; reflexivity|].
    split; [reflexivity|]. split; [reflexivity|]. split; [reflexivity|].
    split; [reflexivity|]. split; [vm_compute; reflexivity|].
    split; [reflexivity|]. split; [reflexivity|]. split; [reflexivity|].
    split; [reflexivity|]. split; [vm_compute; reflexivity|].
    split; reflexivity.
Qed.

Lemma handle_unregistered_jobtype_witness :
  own sampleRegistry !! jobtype strayJob = None
  ∧ inherited sampleRegistry (jobtype strayJob) = None
  ∧ handle (sampleWorker (onions [(["enter"], ["exit"])])) (sampleClient true true)
      strayJob initial
    = (Normal "fail",
       emit (EmFail strayJob (ThrownError (MkError "Error" "No jobtype registered: Missing")))
         (call (CFail "ghi" (MkError "Error" "No jobtype registered: Missing")) initial)).
Proof.
  split; [reflexivity|]. split; [reflexivity|].
  destruct (handle_unregistered_jobtype
              (sampleWorker (onions [(["enter"], ["exit"])])) (sampleClient true true)
              strayJob initial [(["enter"], ["exit"])] eq_refl eq_refl eq_refl)
    as (_ & _ & _ & Hfail).
  exact (Hfail eq_refl).
Defined.

(** C6, as stated, fails: when the fail report rejects, [handle] rejects
    instead of returning the marker; behind a middleware that returns
    without calling [next] the lookup never runs and the job is acked; and
    a job whose type has no entry of its own in the registry but names a
    method the registry object inherits, here [toString], is run with that
    method and acked. *)
Lemma handle_unregistered_counterexample :
  own sampleRegistry !! jobtype strayJob = None
  ∧ inherited sampleRegistry (jobtype strayJob) = None
  ∧ (handle (sampleWorker []) (sampleClient true false) strayJob initial).1
    = Throw sampleError
  ∧ handle (sampleWorker [shortCircuit]) (sampleClient true true) strayJob initial
    = (Normal "ack", call (CAck "ghi") initial)
  ∧ own sampleRegistry !! jobtype inheritedJob = None
  ∧ handle (sampleWorker []) (sampleClient true true) inheritedJob initial
    = (Normal "ack", call (CAck "jkl") initial).
Proof.
  split; [reflexivity|]. split; [reflexivity|]. split; [reflexivity|].
  split; [reflexivity|]. split; reflexivity.
Qed.

Lemma handle_acks_completed_job_witness :
  (execute sampleRegistry [] sampleJob).1 = Normal tt
  ∧ handle (sampleWorker []) (sampleClient true true) sampleJob initial
    = (Normal "ack", call (CAck "abc") initial).
Proof.
  split; [reflexivity|].
  destruct (handle_acks_completed_job (sampleWorker []) (sampleClient true true)
              sampleJob initial eq_refl) as (_ & Hack).
  exact (Hack eq_refl).
Defined.

(** C7, as stated, fails: the job completes, the ack call rejects, and
    [handle] returns ["fail"]. *)
Lemma handle_acks_counterexample :
  (execute sampleRegistry [] sampleJob).1 = Normal tt
  ∧ handle (sampleWorker []) (sampleClient false true) sampleJob initial
    = (Normal "fail",
       emit (EmFail sampleJob sampleError)
         (call (CFail "abc" (MkError "Error" "Connection closed"))
            (call (CAck "abc") initial))).
Proof. split; reflexivity. Qed.

Lemma handle_catches_job_errors_witness :
  (execute sampleRegistry [] failingJob).1 = Throw (ThrownValue "boom" "'boom'")
  ∧ handle (sampleWorker []) (sampleClient true true) failingJob initial
    = (Normal "fail",
       emit (EmFail failingJob (ThrownValue "boom" "'boom'"))
         (call (CFail "def" (MkError "Error" "boom")) initial)).
Proof.
  split; [reflexivity|].
  destruct (handle_catches_job_errors (sampleWorker []) (sampleClient true true)
              failingJob initial (ThrownValue "boom" "'boom'") eq_refl)
    as (_ & _ & Hfail & _).
  exact (proj1 (Hfail eq_refl)).
Defined.

(** C8, as stated, fails: the job function throws, the fail report
    rejects, and [handle] rejects with the error of the report; no
    ["fail"] event is emitted and no marker returned. *)
Lemma handle_catches_counterexample :
  (execute sampleRegistry [] failingJob).1 = Throw (ThrownValue "boom" "'boom'")
  ∧ handle (sampleWorker []) (sampleClient true false) failingJob initial
    = (Throw sampleError, call (CFail "def" (MkError "Error" "boom")) initial)
  ∧ emitted (handle (sampleWorker []) (sampleClient true false) failingJob initial).2
    = [].
Proof. split; [reflexivity|]. split; reflexivity. Qed.

Lemma handle_fails_job_when_ack_rejects_witness :
  (execute sampleRegistry [] sampleJob).1 = Normal tt
  ∧ ack_ (sampleClient false true) (calls initial) (jid sampleJob) = Throw sampleError
  ∧ handle (sampleWorker []) (sampleClient false true) sampleJob initial
    = (Normal "fail",
       emit (EmFail sampleJob sampleError)
         (call (CFail "abc" (MkError "Error" "Connection closed"))
            (call (CAck "abc") initial))).
Proof.
  split; [reflexivity|]. split; [reflexivity|].
  destruct (handle_fails_job_when_ack_rejects (sampleWorker []) (sampleClient false true)
              sampleJob initial sampleError eq_refl eq_refl) as (_ & Hfail & _).
  exact (Hfail eq_refl).
Defined.

(** C10, as stated, fails: the ack rejects and the fail report rejects
    too; [handle] rejects, with no ["fail"] event and no marker. *)
Lemma handle_ack_rejects_counterexample :
  (execute sampleRegistry [] sampleJob).1 = Normal tt
  ∧ ack_ (sampleClient false false) (calls initial) (jid sampleJob) = Throw sampleError
  ∧ handle (sampleWorker []) (sampleClient false false) sampleJob initial
    = (Throw sampleError,
       call (CFail "abc" (MkError "Error" "Connection closed"))
         (call (CAck "abc") initial))
  ∧ emitted (handle (sampleWorker []) (sampleClient false false) sampleJob initial).2
    = [].
Proof. split; [reflexivity|]. split; [reflexivity|]. split; reflexivity. Qed.

End WorkerSpec.

(** * Further properties of the Connection *)

Module ConnectionApiSpec.

Import Connection ConnectionApi ConnectionSpec.

Section WithGreeting.

Context {Greeting : Type} (parseGreeting : string → JsError + Greeting).

Implicit Types (c : @Conn Greeting) (h : Handler) (q : list Handler).
Implicit Types (s st : @PromiseState Greeting) (p : nat) (e : JsError).

(** *** What the listeners leave alone *)

#[local] Arguments settle : simpl never.

Lemma settle_written p s c : written (settle p s c) = written c.
Proof. unfold settle. by destruct (promises c !! p) as [[]|]. Qed.

Lemma settle_flags p s c :
  connected (settle p s c) = connected c ∧ closing (settle p s c) = closing c
  ∧ onceErrored (settle p s c) = onceErrored c.
Proof. unfold settle. by destruct (promises c !! p) as [[]|]. Qed.

Lemma invoke_keeps h err r c c' x :
  invoke parseGreeting h err r c = (c', x) →
  written c' = written c ∧ connected c' = connected c ∧ closing c' = closing c
  ∧ length (promises c') = length (promises c)
  ∧ ∀ p, p ≠ promiseOf h → promises c' !! p = promises c !! p.
Proof.
  unfold invoke, resolve, reject. intros Hinv.
  assert (Hone : ∀ s c0,
    written c0 = written c → connected c0 = connected c → closing c0 = closing c →
    promises c0 = promises c →
    written (settle (promiseOf h) s c0) = written c
    ∧ connected (settle (promiseOf h) s c0) = connected c
    ∧ closing (settle (promiseOf h) s c0) = closing c
    ∧ length (promises (settle (promiseOf h) s c0)) = length (promises c)
    ∧ ∀ p, p ≠ promiseOf h → promises (settle (promiseOf h) s c0) !! p = promises c !! p).
  { intros s c0 Hw Hc Hcl Hps.
    destruct (settle_frame (promiseOf h) s c0) as (_ & _ & _ & _ & Hw' & _ & Hl').
    destruct (settle_flags (promiseOf h) s c0) as (Hc' & Hcl' & _).
    rewrite Hw', Hc', Hcl', Hl', Hw, Hc, Hcl, Hps. repeat split; auto.
    intros p Hp. rewrite settle_lookup_ne by done. by rewrite Hps. }
  destruct h as [p0|p0 cmd], err as [e|]; simplify_eq; try (by apply Hone).
  destruct r as [r|]; [|by simplify_eq].
  destruct (parseGreeting r); simplify_eq; [done|]. by apply Hone.
Qed.

Lemma forEach_keeps q (f : Handler → Conn → Conn * option JsError) :
  (∀ h c c' x, f h c = (c', x) →
     written c' = written c ∧ connected c' = connected c ∧ closing c' = closing c
     ∧ length (promises c') = length (promises c)
     ∧ ∀ p, p ≠ promiseOf h → promises c' !! p = promises c !! p) →
  ∀ c c' x, forEach q f c = (c', x) →
    written c' = written c ∧ connected c' = connected c ∧ closing c' = closing c
    ∧ length (promises c') = length (promises c)
    ∧ ∀ p, p ∉ promiseOf <$> q → promises c' !! p = promises c !! p.
Proof.
  intros Hf. induction q as [|h q IH]; intros c c' x Hrun; simpl in Hrun.
  - by simplify_eq.
  - destruct (f h c) as [c1 [x1|]] eqn:Hh.
    + simplify_eq. destruct (Hf _ _ _ _ Hh) as (? & ? & ? & ? & Hp).
      repeat split; auto. intros p Hnot. apply Hp. intros ->.
      apply Hnot. simpl. by left.
    + destruct (Hf _ _ _ _ Hh) as (Hw1 & Hc1 & Hcl1 & Hl1 & Hp1).
      destruct (IH _ _ _ Hrun) as (Hw & Hc & Hcl & Hl & Hp).
      rewrite Hw, Hc, Hcl, Hl. repeat split; auto.
      intros p Hnot. simpl in Hnot. apply not_elem_of_cons in Hnot as [Hne Hnot].
      rewrite Hp by done. by apply Hp1.
Qed.

Lemma onClose_keeps c c' x :
  onClose parseGreeting c = (c', x) →
  written c' = written c ∧ connected c' = false ∧ closing c' = Some false
  ∧ length (promises c') = length (promises c)
  ∧ ∀ p, (∀ q, pending c = Some q → p ∉ promiseOf <$> q) →
      promises c' !! p = promises c !! p.
Proof.
  unfold onClose, clearPending. simpl.
  destruct (pending c) as [q|] eqn:Hq.
  - intros Hrun.
    apply (forEach_keeps q) in Hrun as (Hw & Hc & Hcl & Hl & Hp).
    + simpl in *. repeat split; auto.
    + intros h c0 c1 x1. apply invoke_keeps.
  - intros; simplify_eq. simpl. repeat split; auto.
Qed.

Lemma step_written ev c c' r x :
  step parseGreeting ev c = (c', r, x) →
  written c'
  = written c ++ match ev with
                 | EvSend command => [join command +:+ CRLF]
                 | _ => []
                 end
  ∧ (match ev with EvSend _ => x = None ∧ is_Some r | _ => r = None end).
Proof.
  destruct ev as [command|m|e|e| | |]; simpl.
  - unfold send. simpl. destruct (pending c); intros; simplify_eq; simpl.
    + eauto.
    + unfold reject. rewrite settle_written. simpl. eauto.
  - unfold onMessage. destruct (pending c) as [[|h q]|].
    + intros; simplify_eq. simpl. by rewrite app_nil_r.
    + destruct (invoke _ _ _ _ _) as [c1 x1] eqn:Hinv. intros; simplify_eq.
      apply invoke_keeps in Hinv as (-> & _). simpl. by rewrite app_nil_r.
    + intros; simplify_eq. by rewrite app_nil_r.
  - unfold onMessage. destruct (pending c) as [[|h q]|].
    + intros; simplify_eq. simpl. by rewrite app_nil_r.
    + destruct (invoke _ _ _ _ _) as [c1 x1] eqn:Hinv. intros; simplify_eq.
      apply invoke_keeps in Hinv as (-> & _). simpl. by rewrite app_nil_r.
    + intros; simplify_eq. by rewrite app_nil_r.
  - unfold socketError, onError. simpl. destruct (listeners c); simpl.
    + intros; simplify_eq. simpl. by rewrite app_nil_r.
    + destruct (onceErrored c); intros; simplify_eq; simpl; rewrite app_nil_r; [|done].
      split; [|done]. unfold reject. by rewrite settle_written.
  - destruct (onClose parseGreeting c) as [c1 x1] eqn:Hclose. intros; simplify_eq.
    apply onClose_keeps in Hclose as (-> & _). by rewrite app_nil_r.
  - intros; simplify_eq. simpl. by rewrite app_nil_r.
  - intros; simplify_eq. simpl. by rewrite app_nil_r.
Qed.

Lemma run_written tr : ∀ c c' ps x,
  run parseGreeting tr c = (c', ps, x) →
  written c' = written c ++ frames (take (length ps) (commands tr))
  ∧ (length ps ≤ length (commands tr))%nat.
Proof.
  induction tr as [|ev tr IH]; intros c c' ps x Hrun; simpl in Hrun.
  - simplify_eq. simpl. by rewrite app_nil_r.
  - destruct (step parseGreeting ev c) as [[c1 r] x1] eqn:Hstep.
    destruct (step_written _ _ _ _ _ Hstep) as (Hw & Hr).
    destruct x1 as [x1|].
    + simplify_eq. destruct ev; try (destruct Hr; done); subst r; simpl;
        rewrite Hw, ?app_nil_r; (split; [done|lia]).
    + destruct (run parseGreeting tr c1) as [[c2 ps2] x2] eqn:Hrest.
      simplify_eq. destruct (IH _ _ _ _ Hrest) as (Hw2 & Hlen).
      rewrite Hw2, Hw.
      destruct ev; try (subst r; simpl; rewrite app_nil_r; by split).
      destruct Hr as (_ & [p ->]). simpl. rewrite <- app_assoc. split; [done|lia].
Qed.

(** X1 — framing.  Through any run of sends, messages, parser errors,
    socket errors and closes of the socket, what is written to the socket
    is, in order, the command string of every [send] made, each followed
    by CRLF, and nothing else — also on a connection that was never
    opened.  (An exception that escapes a listener of the socket — a
    handler that throws, an ['error'] emitted on a connection that has no
    listener for it — ends the run.) *)
Theorem send_writes_frames tr c :
  written (run parseGreeting tr c).1.1
  = written c ++ frames (take (length (run parseGreeting tr c).1.2) (commands tr))
  ∧ (length (run parseGreeting tr c).1.2 ≤ length (commands tr))%nat
  ∧ ((run parseGreeting tr c).2 = None →
     length (run parseGreeting tr c).1.2 = length (commands tr)).
Proof.
  destruct (run parseGreeting tr c) as [[c' ps] x] eqn:Hrun. simpl.
  destruct (run_written _ _ _ _ _ Hrun) as (Hw & Hlen).
  split; [done|]. split; [done|]. intros ->.
  clear Hw Hlen. revert c c' ps Hrun.
  induction tr as [|ev tr IH]; intros c c' ps Hrun; simpl in Hrun.
  - by simplify_eq.
  - destruct (step parseGreeting ev c) as [[c1 r] [x1|]] eqn:Hstep; [by simplify_eq|].
    destruct (run parseGreeting tr c1) as [[c2 ps2] x2] eqn:Hrest. simplify_eq.
    destruct (step_written _ _ _ _ _ Hstep) as (_ & Hr).
    rewrite length_app, (IH _ _ _ Hrest).
    destruct ev; try (by subst r). by destruct Hr as (_ & [p ->]).
Qed.

(** *** Every message is delivered once or dropped with a warning *)

Lemma step_conserves ev c c' r q :
  ev ≠ EvClose →
  pending c = Some q →
  step parseGreeting ev c = (c', r, None) →
  ∃ q', pending c' = Some q'
    ∧ length (invoked c') + length (warnings c')
      = length (invoked c) + length (warnings c) + inbound [ev]
    ∧ length q' + length (invoked c')
      = length q + length (invoked c) + length (commands [ev]).
Proof.
  intros Hev Hq. destruct ev as [command|m|e|e| | |]; simpl; try done.
  - destruct (send_spec command c q Hq) as (c1 & Hs & Hq1 & _ & Hi1 & _ & Hw1 & _).
    rewrite Hs. intros; simplify_eq. eexists. split; [done|].
    rewrite length_app, Hi1, Hw1. simpl. lia.
  - unfold onMessage. rewrite Hq. destruct q as [|h q].
    + intros; simplify_eq. exists []. simpl. rewrite length_app. simpl.
      split; [done|lia].
    + destruct (invoke _ _ _ _ _) as [c1 x1] eqn:Hinv. intros; simplify_eq.
      apply invoke_frame in Hinv as (Hp & Hw & Hi). simpl in *.
      exists q. rewrite Hp, Hw, Hi, length_app. simpl. split; [done|lia].
  - unfold onMessage. rewrite Hq. destruct q as [|h q].
    + intros; simplify_eq. exists []. simpl. rewrite length_app. simpl.
      split; [done|lia].
    + destruct (invoke _ _ _ _ _) as [c1 x1] eqn:Hinv. intros; simplify_eq.
      apply invoke_frame in Hinv as (Hp & Hw & Hi). simpl in *.
      exists q. rewrite Hp, Hw, Hi, length_app. simpl. split; [done|lia].
  - unfold socketError, onError. simpl. destruct (listeners c); simpl; [done|].
    destruct (onceErrored c); intros; simplify_eq; exists q; simpl;
      [|split; [done|lia]].
    match goal with |- context [reject ?p ?e ?c0] =>
      destruct (settle_frame p (Rejected e) c0) as (Hp & Hi & _ & Hw & _) end.
    unfold reject. rewrite Hp, Hi, Hw. simpl. split; [done|lia].
  - intros; simplify_eq. exists q. simpl. split; [done|lia].
  - intros; simplify_eq. exists q. simpl. split; [done|lia].
Qed.

(** X2 — conservation.  On an opened connection, as long as the socket
    stays open and no listener throws: every message or parser error is
    either handed to exactly one handler or dropped with one warning, and
    the handlers outstanding are those there were, plus one for each
    [send], minus one for each delivery. *)
Theorem messages_delivered_or_dropped tr : ∀ c c' ps q,
  staysOpen tr = true →
  pending c = Some q →
  run parseGreeting tr c = (c', ps, None) →
  ∃ q', pending c' = Some q'
    ∧ length (invoked c') + length (warnings c')
      = length (invoked c) + length (warnings c) + inbound tr
    ∧ length q' + length (invoked c')
      = length q + length (invoked c) + length (commands tr).
Proof.
  induction tr as [|ev tr IH]; intros c c' ps q Hopen Hq Hrun; simpl in Hrun.
  - simplify_eq. exists q. simpl. split; [done|lia].
  - simpl in Hopen. apply andb_true_iff in Hopen as [Hev Hopen].
    destruct (step parseGreeting ev c) as [[c1 r] [x1|]] eqn:Hstep; [by simplify_eq|].
    destruct (run parseGreeting tr c1) as [[c2 ps2] x2] eqn:Hrest. simplify_eq.
    destruct (step_conserves ev c c1 r q) as (q1 & Hq1 & Hd1 & Hl1); auto.
    { by intros ->. }
    destruct (IH _ _ _ _ Hopen Hq1 Hrest) as (q2 & Hq2 & Hd2 & Hl2).
    exists q2. split; [done|].
    destruct ev; simpl in *; lia.
Qed.

(** *** [open] *)

(** X3 — the greeting.  The first message after [open()], when it parses,
    resolves the promise of [open] with the greeting, which is also
    emitted; the handler is called once and nothing stays queued. *)
Theorem open_resolves_with_greeting c r g :
  parseGreeting r = inr g →
  ∃ c2, onMessage parseGreeting None (Some r) (open c).2 = (c2, None)
    ∧ (open c).1 = length (promises c)
    ∧ promises (open c).2 !! (open c).1 = Some Pending
    ∧ promises c2 !! (open c).1 = Some (Resolved (VGreeting g))
    ∧ emitted c2 = emitted c ++ [EmGreeting g]
    ∧ invoked c2 = invoked c ++ [(HOpen (open c).1, None, Some r)]
    ∧ pending c2 = Some [].
Proof.
  intros Hparse. unfold onMessage, open, invoke. simpl. rewrite Hparse.
  eexists. split; [reflexivity|]. split; [done|].
  assert (Hpen : (promises c ++ [Pending (Greeting:=Greeting)]) !! length (promises c)
                 = Some Pending).
  { by rewrite lookup_app_r, Nat.sub_diag. }
  split; [done|]. unfold resolve.
  destruct (settle_frame (length (promises c)) (Resolved (VGreeting g))
    (emit (EmGreeting g) (record (HOpen (length (promises c)), None, Some r)
      (set_pending (Some [])
        (set_onceErrored (Some (length (promises c)))
           (set_pending (Some [HOpen (length (promises c))])
              (set_promises (promises c ++ [Pending]) c)))))))
    as (Hp & Hi & _ & _ & _ & Hem & _).
  rewrite Hp, Hi, Hem. split; [|done].
  by apply settle_lookup_pending.
Qed.

(** X4 — a greeting that does not parse.  The handler of [open] has been
    shifted off the queue when the parse throws: the error leaves
    [onMessage] as an exception, the promise of [open] is still pending,
    nothing is emitted, and no handler is left for a later close to
    reject it with. *)
Theorem open_malformed_greeting c r e :
  parseGreeting r = inl e →
  ∃ c2, onMessage parseGreeting None (Some r) (open c).2 = (c2, Some e)
    ∧ promises c2 !! (open c).1 = Some Pending
    ∧ emitted c2 = emitted c
    ∧ pending c2 = Some []
    ∧ ∃ c3, onClose parseGreeting c2 = (c3, None)
        ∧ promises c3 !! (open c).1 = Some Pending.
Proof.
  intros Hparse. unfold onMessage, open, invoke. simpl. rewrite Hparse.
  eexists. split; [reflexivity|]. simpl.
  split; [by rewrite lookup_app_r, Nat.sub_diag|]. split; [done|]. split; [done|].
  unfold onClose, clearPending. simpl. eexists. split; [reflexivity|]. simpl.
  by rewrite lookup_app_r, Nat.sub_diag.
Qed.

(** X5 — errors while opening.  A parser error in place of the greeting
    rejects the promise of [open].  What a socket error does depends on
    the ['error'] listeners of the connection, of which the class attaches
    none.  With a listener attached: before the socket has connected the
    error rejects the promise of [open] (through [onceErrored]); once
    connected it is only remembered, the promise stays pending, and the
    close of the socket rejects it with that error.  With no listener:
    [onError] remembers the error and then throws it out of its
    [emit('error')], [onceErrored] does not run and the promise stays
    pending, connected or not; the close of the socket, where it is still
    delivered, rejects it with that error. *)
Theorem open_errors c e :
  (∃ c2, onMessage parseGreeting (Some e) None (open c).2 = (c2, None)
     ∧ promises c2 !! (open c).1 = Some (Rejected e)
     ∧ pending c2 = Some [])
  ∧ (listeners c ≠ 0 →
     (∃ c2, socketError e (open c).2 = (c2, None)
        ∧ promises c2 !! (open c).1 = Some (Rejected e)
        ∧ lastError c2 = Some e)
     ∧ ∃ c2, socketError e (onConnect (open c).2) = (c2, None)
         ∧ promises c2 !! (open c).1 = Some Pending
         ∧ lastError c2 = Some e
         ∧ ∃ c3, onClose parseGreeting c2 = (c3, None)
             ∧ promises c3 !! (open c).1 = Some (Rejected e))
  ∧ (listeners c = 0 →
     ∀ c1, c1 = (open c).2 ∨ c1 = onConnect (open c).2 →
     ∃ c2, onError e c1 = (c2, Some e)
       ∧ socketError e c1 = (c2, Some e)
       ∧ promises c2 !! (open c).1 = Some Pending
       ∧ lastError c2 = Some e
       ∧ ∃ c3, onClose parseGreeting c2 = (c3, None)
           ∧ promises c3 !! (open c).1 = Some (Rejected e)).
Proof.
  assert (Hpen : (promises c ++ [Pending (Greeting:=Greeting)]) !! length (promises c)
                 = Some Pending).
  { by rewrite lookup_app_r, Nat.sub_diag. }
  assert (Hclose : ∀ c2, pending c2 = Some [HOpen (length (promises c))] →
    promises c2 !! length (promises c) = Some Pending → lastError c2 = Some e →
    ∃ c3, onClose parseGreeting c2 = (c3, None)
      ∧ promises c3 !! length (promises c) = Some (Rejected e)).
  { intros c2 Hq Hp He.
    destruct (onClose_spec parseGreeting c2 [HOpen (length (promises c))] Hq)
      as (c3 & Hrun & _ & _ & _ & Hrej & _).
    exists c3. split; [exact Hrun|].
    specialize (Hrej (HOpen (length (promises c))) ltac:(by left) Hp).
    unfold closeError in Hrej. by rewrite He in Hrej. }
  split.
  { unfold onMessage, open, invoke. simpl. eexists. split; [reflexivity|].
    unfold reject.
    match goal with |- context [settle ?p ?s ?c0] =>
      destruct (settle_frame p s c0) as (Hp & _) end.
    rewrite Hp. split; [|done]. by apply settle_lookup_pending. }
  split.
  - intros Hl. destruct (listeners c) as [|n] eqn:Hn; [done|]. split.
    + unfold socketError, onError, open. simpl. rewrite Hn. simpl.
      eexists. split; [reflexivity|]. simpl. unfold reject.
      match goal with |- context [settle ?p ?s ?c0] =>
        destruct (settle_frame p s c0) as (_ & _ & Hle & _) end.
      rewrite Hle. split; [|done]. by apply settle_lookup_pending.
    + unfold socketError, onError, onConnect, open. simpl. rewrite Hn. simpl.
      eexists. split; [reflexivity|]. simpl. split; [done|]. split; [done|].
      by apply Hclose.
  - intros Hl c1 [->| ->].
    + unfold socketError, onError, open. simpl. rewrite Hl. simpl.
      eexists. split; [reflexivity|]. split; [reflexivity|]. simpl.
      split; [done|]. split; [done|]. by apply Hclose.
    + unfold socketError, onError, onConnect, open. simpl. rewrite Hl. simpl.
      eexists. split; [reflexivity|]. split; [reflexivity|]. simpl.
      split; [done|]. split; [done|]. by apply Hclose.
Qed.

(** X6 — opening again.  [open()] assigns a new queue: a handler that was
    outstanding is no longer reachable, and the close of the socket
    leaves its promise pending. *)
Theorem open_forgets_outstanding c q h :
  pending c = Some q →
  h ∈ q →
  promises c !! promiseOf h = Some Pending →
  pending (open c).2 = Some [HOpen (length (promises c))]
  ∧ ∃ c2, onClose parseGreeting (open c).2 = (c2, None)
      ∧ promises c2 !! promiseOf h = Some Pending
      ∧ invoked c2
        = invoked c
          ++ [(HOpen (length (promises c)), Some (closeError c), None)].
Proof.
  intros Hq Hh Hpen. split; [done|].
  destruct (onClose parseGreeting (open c).2) as [c2 x] eqn:Hclose.
  pose proof (onClose_keeps _ _ _ Hclose) as (_ & _ & _ & _ & Hother).
  destruct (onClose_spec parseGreeting (open c).2 [HOpen (length (promises c))] eq_refl)
    as (c2' & Hclose' & _ & Hinv & _).
  rewrite Hclose in Hclose'. simplify_eq.
  exists c2'. split; [done|]. split; [|exact Hinv].
  rewrite Hother.
  - unfold open. simpl. by apply lookup_app_l_Some.
  - intros q' Hq'. unfold open in Hq'. simpl in Hq'. simplify_eq. simpl.
    intros Hin. apply list_elem_of_singleton in Hin.
    apply lookup_lt_Some in Hpen. lia.
Qed.

(** X7 — sending before [open].  On a connection that was never opened
    the command is written to the socket all the same, nothing is queued,
    and the promise returned is already rejected with a [TypeError]; a
    message that arrives makes [onMessage] throw. *)
Theorem send_before_open command c :
  pending c = None →
  written (send command c).2 = written c ++ [join command +:+ CRLF]
  ∧ pending (send command c).2 = None
  ∧ promises (send command c).2 !! (send command c).1
    = Some (Rejected (undefinedProperty "push"))
  ∧ ∀ err m, onMessage parseGreeting err m (send command c).2
             = ((send command c).2, Some (undefinedProperty "shift")).
Proof.
  intros Hq. unfold send. simpl. rewrite Hq. simpl. unfold reject.
  match goal with |- context [settle ?p ?s ?c0] =>
    destruct (settle_frame p s c0) as (Hp & _);
    pose proof (settle_written p s c0) as Hw;
    pose proof (settle_lookup_pending p s c0) as Hl end.
  simpl in *. rewrite Hw. split; [done|]. split; [by rewrite Hp|].
  split; [apply Hl; by rewrite lookup_app_r, Nat.sub_diag|].
  intros err m. unfold onMessage. by rewrite Hp, Hq.
Qed.

(** *** [sendWithAssert] *)

(** X8 — asserted responses.  On a connection with nothing outstanding,
    the promise of [sendWithAssert] is pending until something arrives;
    the next message resolves it with that message when it is exactly the
    expected response, and otherwise rejects it with an assertion error
    that names both; a parser error rejects it with that error, and so
    does the close of the socket, with the connection's close error. *)
Theorem sendWithAssert_settles command expected c :
  pending c = Some [] →
  asserted (sendWithAssert command expected c).1 (sendWithAssert command expected c).2
  = Pending
  ∧ (∀ m, ∃ c2,
       onMessage parseGreeting None (Some m) (sendWithAssert command expected c).2
       = (c2, None)
       ∧ pending c2 = Some []
       ∧ asserted (sendWithAssert command expected c).1 c2
         = if decide (m = expected) then Resolved (VResponse (Some m))
           else Rejected (MkError "AssertionError"
                  ("expected " +:+ expected +:+ " response, but got " +:+ m)))
  ∧ (∀ e, ∃ c2,
       onMessage parseGreeting (Some e) None (sendWithAssert command expected c).2
       = (c2, None)
       ∧ asserted (sendWithAssert command expected c).1 c2 = Rejected e)
  ∧ (∃ c2, onClose parseGreeting (sendWithAssert command expected c).2 = (c2, None)
       ∧ asserted (sendWithAssert command expected c).1 c2 = Rejected (closeError c)).
Proof.
  intros Hq. unfold sendWithAssert.
  destruct (send_spec command c [] Hq) as (c1 & Hs & Hq1 & Hps1 & _ & Herr1 & _).
  rewrite Hs. simpl in *.
  assert (Hpen : promises c1 !! length (promises c) = Some Pending).
  { by rewrite Hps1, lookup_app_r, Nat.sub_diag. }
  unfold asserted. simpl.
  split; [by rewrite Hpen|].
  split.
  { intros m. unfold onMessage. rewrite Hq1, invoke_message.
    eexists. split; [reflexivity|]. unfold resolve.
    match goal with |- context [settle ?p ?s ?c0] =>
      destruct (settle_frame p s c0) as (Hp & _);
      pose proof (settle_lookup_pending p s c0 Hpen) as Hl end.
    rewrite Hp, Hl. split; [done|].
    destruct (decide (m = expected)) as [->|Hne].
    - by rewrite decide_True.
    - rewrite decide_False; [done|congruence]. }
  split.
  { intros e. unfold onMessage. rewrite Hq1, invoke_error.
    eexists. split; [reflexivity|]. unfold reject.
    match goal with |- context [settle ?p ?s ?c0] =>
      pose proof (settle_lookup_pending p s c0 Hpen) as Hl end.
    cbn [promiseOf] in *. by rewrite Hl. }
  destruct (onClose_spec parseGreeting c1 _ Hq1) as (c2 & Hclose & _ & _ & _ & Hrej & _).
  exists c2. split; [exact Hclose|].
  pose proof (Hrej (HSend (length (promises c)) (join command))
                ltac:(by left) Hpen) as Hrejected.
  cbn [promiseOf] in Hrejected. rewrite Hrejected.
  unfold closeError. by rewrite Herr1.
Qed.

(** *** [close] *)

Lemma resolve_listeners (l : list nat) : ∀ c,
  let c' := foldl (λ c p, resolve p (VResponse None) c) c l in
  stable c c'
  ∧ connected c' = connected c ∧ closing c' = closing c
  ∧ written c' = written c ∧ pending c' = pending c
  ∧ ∀ p, p ∈ l → promises c !! p = Some Pending →
      promises c' !! p = Some (Resolved (VResponse None)).
Proof.
  induction l as [|p0 l IH]; intros c; simpl.
  - repeat split; auto using stable_refl. intros p Hp. by apply elem_of_nil in Hp.
  - destruct (IH (resolve p0 (VResponse None) c)) as (Hst & Hc & Hcl & Hw & Hpe & Hres).
    unfold resolve in *.
    destruct (settle_flags p0 (Resolved (VResponse None)) c) as (Hc0 & Hcl0 & _).
    destruct (settle_frame p0 (Resolved (VResponse None)) c) as (Hpe0 & _).
    pose proof (settle_written p0 (Resolved (VResponse None)) c) as Hw0.
    split; [eapply stable_trans; [apply settle_is_stable|exact Hst]|].
    split; [congruence|]. split; [congruence|]. split; [congruence|].
    split; [congruence|].
    intros p Hp Hpen. destruct (decide (p = p0)) as [->|Hne].
    + apply Hst; [|done]. by apply settle_lookup_pending.
    + apply elem_of_cons in Hp as [->|Hp]; [done|].
      apply Hres; [done|]. by rewrite settle_lookup_ne.
Qed.

(** X9 — closing.  [close()] sets [closing], writes the terminal command
    [END] and returns a promise that stays pending until the socket
    closes.  The close of the socket then rejects every command still
    pending with the connection's close error, resolves the promise of
    [close], and leaves the connection neither connected nor closing. *)
Theorem close_resolves_when_socket_closes (sk : @Socket Greeting) q :
  pending (conn sk) = Some q →
  (∀ h, h ∈ q → promiseOf h < length (promises (conn sk))) →
  closing (conn (close sk).2) = Some true
  ∧ written (conn (close sk).2) = written (conn sk) ++ ["END" +:+ CRLF]
  ∧ pending (conn (close sk).2) = Some q
  ∧ promises (conn (close sk).2) !! (close sk).1 = Some Pending
  ∧ ∃ sk2, socketClose parseGreeting (close sk).2 = (sk2, None)
      ∧ promises (conn sk2) !! (close sk).1 = Some (Resolved (VResponse None))
      ∧ closing (conn sk2) = Some false
      ∧ connected (conn sk2) = false
      ∧ closeListeners sk2 = []
      ∧ written (conn sk2) = written (conn sk) ++ ["END" +:+ CRLF]
      ∧ ∀ h, h ∈ q → promises (conn sk) !! promiseOf h = Some Pending →
          promises (conn sk2) !! promiseOf h = Some (Rejected (closeError (conn sk))).
Proof.
  intros Hq Hwf. unfold close. simpl.
  assert (Hpen : (promises (conn sk) ++ [Pending (Greeting:=Greeting)])
                   !! length (promises (conn sk)) = Some Pending).
  { by rewrite lookup_app_r, Nat.sub_diag. }
  split; [done|]. split; [done|]. split; [done|]. split; [done|].
  unfold socketClose. simpl.
  match goal with |- context [onClose parseGreeting ?c0] => set (c1 := c0) end.
  destruct (onClose_spec parseGreeting c1 q Hq)
    as (c2 & Hclose & _ & _ & _ & Hrej & Hst & _).
  pose proof (onClose_keeps _ _ _ Hclose) as (Hw2 & Hc2 & Hcl2 & _ & Hother).
  rewrite Hclose.
  destruct (resolve_listeners (closeListeners sk ++ [length (promises (conn sk))]) c2)
    as (Hst3 & Hc3 & Hcl3 & Hw3 & _ & Hres).
  eexists. split; [reflexivity|]. simpl.
  split.
  { apply Hres; [apply elem_of_app; right; by left|].
    rewrite Hother; [done|].
    intros q' Hq'. subst c1. simpl in Hq'. rewrite Hq in Hq'. simplify_eq.
    intros Hin. apply list_elem_of_fmap in Hin as (h & Hph & Hh).
    apply Hwf in Hh. lia. }
  split; [congruence|]. split; [congruence|]. split; [done|].
  split; [by rewrite Hw3, Hw2|].
  intros h Hh Hp. apply Hst3; [|done].
  apply Hrej; [done|]. subst c1. simpl. by apply lookup_app_l_Some.
Qed.

End WithGreeting.

(** *** The statements at the sample inputs *)

Lemma messages_delivered_or_dropped_witness :
  staysOpen sampleExchange = true
  ∧ pending sampleReady = Some []
  ∧ ∃ q', pending (run sampleParse sampleExchange sampleReady).1.1 = Some q'
      ∧ length (invoked (run sampleParse sampleExchange sampleReady).1.1)
        + length (warnings (run sampleParse sampleExchange sampleReady).1.1)
        = length (invoked sampleReady) + length (warnings sampleReady) + 2.
Proof.
  split; [reflexivity|]. split; [reflexivity|].
  destruct (messages_delivered_or_dropped sampleParse sampleExchange sampleReady
              (run sampleParse sampleExchange sampleReady).1.1
              (run sampleParse sampleExchange sampleReady).1.2 []
              eq_refl eq_refl ltac:(vm_compute; reflexivity))
    as (q' & Hq' & Hd & _).
  exists q'. split; [exact Hq'|exact Hd].
Defined.

Lemma open_resolves_with_greeting_witness :
  sampleParse "HI" = inr 2
  ∧ ∃ c2, onMessage sampleParse None (Some "HI") (open (@constructor nat)).2 = (c2, None)
      ∧ promises c2 !! (open (@constructor nat)).1 = Some (Resolved (VGreeting 2))
      ∧ pending c2 = Some [].
Proof.
  split; [reflexivity|].
  destruct (open_resolves_with_greeting sampleParse (@constructor nat) "HI" 2 eq_refl)
    as (c2 & Hm & _ & _ & Hres & _ & _ & Hq).
  exists c2. split; [exact Hm|]. split; [exact Hres|exact Hq].
Defined.

Lemma open_malformed_greeting_witness :
  ∃ c2, onMessage (λ _ : string, inl (MkError "SyntaxError" "Unexpected token") : JsError + nat)
          None (Some "HI") (open (@constructor nat)).2
        = (c2, Some (MkError "SyntaxError" "Unexpected token"))
    ∧ promises c2 !! (open (@constructor nat)).1 = Some Pending
    ∧ pending c2 = Some [].
Proof.
  destruct (open_malformed_greeting
              (λ _ : string, inl (MkError "SyntaxError" "Unexpected token") : JsError + nat)
              (@constructor nat) "HI" (MkError "SyntaxError" "Unexpected token") eq_refl)
    as (c2 & Hm & Hpen & _ & Hq & _).
  exists c2. split; [exact Hm|]. split; [exact Hpen|exact Hq].
Defined.

Lemma open_forgets_outstanding_witness :
  pending (send ["BEAT"] sampleReady).2 = Some [HSend 1 "BEAT"]
  ∧ promises (send ["BEAT"] sampleReady).2 !! 1 = Some Pending
  ∧ ∃ c2, onClose sampleParse (open (send ["BEAT"] sampleReady).2).2 = (c2, None)
      ∧ promises c2 !! 1 = Some Pending.
Proof.
  split; [reflexivity|]. split; [reflexivity|].
  destruct (open_forgets_outstanding sampleParse (send ["BEAT"] sampleReady).2
              [HSend 1 "BEAT"] (HSend 1 "BEAT") eq_refl ltac:(by left) eq_refl)
    as (_ & c2 & Hclose & Hpen & _).
  exists c2. split; [exact Hclose|exact Hpen].
Defined.

Lemma send_before_open_witness :
  pending (@constructor nat) = None
  ∧ promises (send ["BEAT"] (@constructor nat)).2
      !! (send ["BEAT"] (@constructor nat)).1
    = Some (Rejected (undefinedProperty "push"))
  ∧ pending (send ["BEAT"] (@constructor nat)).2 = None.
Proof.
  split; [reflexivity|].
  destruct (send_before_open sampleParse ["BEAT"] (@constructor nat) eq_refl)
    as (_ & Hq & Hrej & _).
  split; [exact Hrej|exact Hq].
Defined.

Lemma sendWithAssert_settles_witness :
  pending sampleReady = Some []
  ∧ ∃ c2, onMessage sampleParse None (Some "OK")
            (sendWithAssert ["MUTATE"; "{}"] "OK" sampleReady).2 = (c2, None)
      ∧ asserted (sendWithAssert ["MUTATE"; "{}"] "OK" sampleReady).1 c2
        = Resolved (VResponse (Some "OK")).
Proof.
  split; [reflexivity|].
  destruct (sendWithAssert_settles sampleParse ["MUTATE"; "{}"] "OK" sampleReady eq_refl)
    as (_ & Hm & _).
  destruct (Hm "OK") as (c2 & Hmsg & _ & Hres).
  exists c2. split; [exact Hmsg|exact Hres].
Defined.

Lemma close_resolves_when_socket_closes_witness :
  pending (send ["BEAT"] sampleReady).2 = Some [HSend 1 "BEAT"]
  ∧ ∃ sk2, socketClose sampleParse (close (mkSocket (send ["BEAT"] sampleReady).2 [])).2
           = (sk2, None)
      ∧ promises (conn sk2) !! (close (mkSocket (send ["BEAT"] sampleReady).2 [])).1
        = Some (Resolved (VResponse None))
      ∧ closeListeners sk2 = [].
Proof.
  split; [reflexivity|].
  destruct (close_resolves_when_socket_closes sampleParse
              (mkSocket (send ["BEAT"] sampleReady).2 []) [HSend 1 "BEAT"] eq_refl)
    as (_ & _ & _ & _ & sk2 & Hclose & Hres & _ & _ & Hl & _).
  { intros h Hh. apply list_elem_of_singleton in Hh. subst h. vm_compute. lia. }
  exists sk2. split; [exact Hclose|]. split; [exact Hres|exact Hl].
Defined.

End ConnectionApiSpec.

(** * Further properties of the Worker *)

Module WorkerRunsSpec.

Import Worker WorkerRuns WorkerSpec.

(** *** The constructor *)

(** The loop of [work] runs the index [n] exactly when [n] is below the
    concurrency. *)
Lemma slots_spec this n :
  (n < slots this)%nat ↔ (inject_Z (Z.of_nat n) < concurrency this)%Q.
Proof.
  unfold slots. set (c := concurrency this).
  pose proof (Qle_ceiling c) as Hle. pose proof (Qceiling_lt c) as Hlt.
  split.
  - intros Hn. assert (Hz : (Z.of_nat n <= Qceiling c - 1)%Z) by lia.
    rewrite Zle_Qle in Hz.
    eapply Qle_lt_trans; [exact Hz|exact Hlt].
  - intros Hn. assert (Hz : (Z.of_nat n < Qceiling c)%Z).
    { rewrite Zlt_Qlt. eapply Qlt_le_trans; [exact Hn|exact Hle]. }
    lia.
Qed.

(** X10 — defaults.  Whatever the options, the worker has at least one
    queue: a queue list that is missing or empty becomes [default], any
    other is kept.  A concurrency that is missing or zero becomes 20, any
    other is kept, negative or fractional as it may be; the loop of
    [work] runs the indices below it, so a negative concurrency starts no
    slot and a positive one at least one.  A timeout or heartbeat
    interval that is missing, zero or NaN becomes 8 and 15 seconds, any
    other is kept; both are held in milliseconds, the product by 1000 as
    doubles give it.  The middleware default to none and the registry to
    a fresh plain object. *)
Theorem constructor_defaults `{realm : Realm} options :
  queues (constructor options) ≠ []
  ∧ (opt_queues options = None ∨ opt_queues options = Some [] →
     queues (constructor options) = ["default"])
  ∧ (∀ q qs, opt_queues options = Some (q :: qs) →
     queues (constructor options) = q :: qs)
  ∧ (opt_concurrency options = None →
     concurrency (constructor options) = 20%Q ∧ slots (constructor options) = 20)
  ∧ (∀ c, opt_concurrency options = Some c → (c == 0)%Q →
     concurrency (constructor options) = 20%Q ∧ slots (constructor options) = 20)
  ∧ (∀ c, opt_concurrency options = Some c → ¬ (c == 0)%Q →
     concurrency (constructor options) = c)
  ∧ (∀ n, (n < slots (constructor options))%nat
          ↔ (inject_Z (Z.of_nat n) < concurrency (constructor options))%Q)
  ∧ (∀ c, opt_concurrency options = Some c → (c < 0)%Q →
     slots (constructor options) = 0)
  ∧ (∀ c, opt_concurrency options = Some c → (0 < c)%Q →
     (0 < slots (constructor options))%nat)
  ∧ (opt_timeout options = None →
     shutdownTimeout (constructor options) = 8000%float)
  ∧ (∀ x, opt_timeout options = Some x → (is_zero x || is_nan x)%bool = true →
     shutdownTimeout (constructor options) = 8000%float)
  ∧ (∀ x, opt_timeout options = Some x → (is_zero x || is_nan x)%bool = false →
     shutdownTimeout (constructor options) = (x * 1000)%float)
  ∧ (opt_beatInterval options = None →
     beatInterval (constructor options) = 15000%float)
  ∧ (∀ x, opt_beatInterval options = Some x → (is_zero x || is_nan x)%bool = true →
     beatInterval (constructor options) = 15000%float)
  ∧ (∀ x, opt_beatInterval options = Some x → (is_zero x || is_nan x)%bool = false →
     beatInterval (constructor options) = (x * 1000)%float)
  ∧ middleware (constructor options) = default [] (opt_middleware options)
  ∧ registry (constructor options) = default plainObject (opt_registry options).
Proof.
  assert (Hpos : ∀ c, opt_concurrency options = Some c → ¬ (c == 0)%Q →
                      concurrency (constructor options) = c).
  { intros c Ho Hc. unfold constructor. cbn [concurrency]. rewrite Ho. simpl.
    destruct (Qeq_bool c 0) eqn:Hb; [|done]. by apply Qeq_bool_iff in Hb. }
  split.
  { unfold constructor. cbn [queues].
    destruct (opt_queues options) as [[|q qs]|]; simpl; repeat case_decide; done. }
  split.
  { unfold constructor. cbn [queues]. by intros [Ho|Ho]; rewrite Ho. }
  split.
  { unfold constructor. cbn [queues]. by intros q qs Ho; rewrite Ho. }
  split.
  { intros Ho. unfold slots, constructor. cbn [concurrency]. by rewrite Ho. }
  split.
  { intros c Ho Hc. unfold slots, constructor. cbn [concurrency]. rewrite Ho. simpl.
    apply Qeq_bool_iff in Hc. by rewrite Hc. }
  split; [exact Hpos|].
  split; [intros n; apply slots_spec|].
  split.
  { intros c Ho Hc.
    assert (Hne : ¬ (c == 0)%Q) by (intros Heq; rewrite Heq in Hc; by apply Qlt_irrefl in Hc).
    destruct (slots (constructor options)) as [|k] eqn:Hk; [done|exfalso].
    assert (Hin : (0 < slots (constructor options))%nat) by lia.
    apply slots_spec in Hin. rewrite (Hpos c Ho Hne) in Hin.
    change (inject_Z (Z.of_nat 0)) with 0%Q in Hin.
    apply (Qlt_irrefl 0). by eapply Qlt_trans. }
  split.
  { intros c Ho Hc.
    assert (Hne : ¬ (c == 0)%Q) by (intros Heq; rewrite Heq in Hc; by apply Qlt_irrefl in Hc).
    apply slots_spec. rewrite (Hpos c Ho Hne). exact Hc. }
  unfold constructor, orNumber.
  cbn [shutdownTimeout beatInterval middleware registry].
  split; [by intros ->|].
  split; [by intros x -> ->|].
  split; [by intros x -> ->|].
  split; [by intros ->|].
  split; [by intros x -> ->|].
  split; [by intros x -> ->|].
  done.
Qed.

Lemma tick_catch_forward t pid e v w :
  quieted v = quieted w → stopped v = stopped w → exited v = None →
  exited w = None → shutdown v = shutdown w →
  forward w (tick_catch t pid e v)
  ∧ ((stopped w = true → quieted w = true) →
     stopped (tick_catch t pid e v) = true → quieted (tick_catch t pid e v) = true).
Proof.
  intros Hq Hs He Hew Hsh.
  destruct (tick_catch_frame t pid e v)
    as (Hq1 & _ & _ & Hex1 & Hsh1 & _ & _ & _ & _ & _ & _ & _ & _ & Hst1 & _).
  unfold forward. rewrite Hq1, Hex1, Hsh1, Hst1, Hq, Hs, He, Hew, Hsh.
  repeat split; auto; done.
Qed.

(** *** The lifecycle only goes forward *)

Lemma handle_stopped this client j w :
  stopped (handle this client j w).2 = stopped w.
Proof.
  unfold handle, handle_catch.
  destruct (execute _ _ _).1; [destruct (ack_ _ _ _)|]; simpl;
    try destruct (fail_ _ _ _ _); done.
Qed.

Lemma step_forward this client l w w' :
  step this client l w = Some w' →
  forward w w' ∧ ((stopped w = true → quieted w = true) →
                  stopped w' = true → quieted w' = true).
Proof.
  unfold step. destruct (exited w) eqn:Hex; [done|].
  destruct l as [| |t|t|t| | | | | | | | |]; unfold forward.
  - destruct (starting w) as [|p0 rest]; [done|]. intros; simplify_eq.
    unfold setTick, tick. simpl. destruct (quieted w) eqn:Hq; simpl;
      rewrite ?Hex, ?Hq; repeat split; try done; try congruence; auto.
  - destruct (immediates w) as [|p0 rest]; [done|]. intros; simplify_eq.
    unfold setTick, tick. simpl. destruct (quieted w) eqn:Hq; simpl;
      rewrite ?Hex, ?Hq; repeat split; try done; try congruence; auto.
  - destruct (tasks w !! t) as [[p|p j|p|]|]; try done.
    destruct (fetch_ client (calls w) (queues this)) as [[j|]|e];
      intros; simplify_eq;
      [simpl; rewrite ?Hex; repeat split; auto; done..|].
    by apply tick_catch_forward.
  - destruct (tasks w !! t) as [[p|p j|p|]|]; try done.
    pose proof (handle_stopped this client j w) as Hst.
    destruct (handle this client j w) as [r w1] eqn:Hh.
    destruct (handle_frame _ _ _ _ _ _ Hh)
      as (Hq1 & _ & _ & _ & _ & Hex1 & Hsh1 & _).
    simpl in Hst.
    destruct r as [marker|e]; intros; simplify_eq.
    + simpl. rewrite Hq1, Hex1, Hsh1, Hst, Hex. repeat split; auto; done.
    + apply tick_catch_forward; congruence.
  - destruct (tasks w !! t) as [[p|p j|p|]|]; try done.
    intros; simplify_eq; simpl; rewrite ?Hex; repeat split; auto; done.
  - intros; simplify_eq; simpl; rewrite ?Hex; repeat split; auto; done.
  - destruct (heartbeat w); [|done]. unfold beat. intros; simplify_eq.
    destruct (beat_ client (calls w)) as [response|e]; simpl;
      repeat case_decide; simpl; rewrite ?Hex; repeat split; auto; done.
  - destruct (shutdown w); try done. intros; simplify_eq; simpl.
    rewrite ?Hex; repeat split; auto; done.
  - destruct (shutdown w) as [|ts| | |] eqn:Hsh; try done.
    destruct (allSettled ts w && noneRejected ts w); [|done].
    intros; simplify_eq; simpl.
    rewrite ?Hex; repeat split; auto; done.
  - destruct (shutdown w) eqn:Hsh; try done.
    destruct (close_ client (calls w)); intros; simplify_eq; simpl;
      rewrite ?Hex; repeat split; auto; done.
  - destruct (timeout w); [|done]. intros; simplify_eq; simpl.
    rewrite ?Hex; repeat split; auto; done.
  - destruct (shutdown w) eqn:Hsh; try done.
    destruct (failure w); [|done]. intros; simplify_eq; simpl.
    rewrite ?Hex; repeat split; auto; done.
  - intros; simplify_eq; simpl; rewrite ?Hex; repeat split; auto; done.
  - intros; simplify_eq; simpl; rewrite ?Hex; repeat split; auto; done.
Qed.

(** X11 — the lifecycle is monotonic.  Through any run of the worker the
    quieted flag, once set, stays set; so does the stopped flag; a worker
    that is stopped is quieted; a shutdown under way is never undone; and
    a process that has exited takes no step. *)
Theorem lifecycle_only_goes_forward this client ls : ∀ w w',
  steps this client ls w = Some w' →
  forward w w'
  ∧ ((stopped w = true → quieted w = true) →
     stopped w' = true → quieted w' = true)
  ∧ (∀ status, exited w = Some status → w' = w ∧ ls = []).
Proof.
  induction ls as [|l ls IH]; intros w w' Hrun; simpl in Hrun.
  - simplify_eq. unfold forward. repeat split; auto.
  - destruct (step this client l w) as [w1|] eqn:Hstep; [|done].
    destruct (step_forward _ _ _ _ _ Hstep) as ((Hq & Hs & He & Hsh) & Himp).
    destruct (IH _ _ Hrun) as ((Hq' & Hs' & He' & Hsh') & Himp' & _).
    split; [unfold forward; repeat split; auto|].
    split; [auto|].
    intros status Hex. unfold step in Hstep. by rewrite Hex in Hstep.
Qed.

(** *** After [quiet] the slots run out of steps *)

Lemma sum_weight_insert (l : list Task) i old new :
  l !! i = Some old →
  sum_list_with weight (<[i := new]> l) + weight old
  = sum_list_with weight l + weight new.
Proof.
  revert i. induction l as [|x l IH]; intros [|i] Hi; simpl in Hi;
    simplify_eq; simpl.
  - lia.
  - specialize (IH i Hi). lia.
Qed.

Lemma sum_weight_snoc (l : list Task) t :
  sum_list_with weight (l ++ [t]) = sum_list_with weight l + weight t.
Proof. rewrite sum_list_with_app. simpl. lia. Qed.

Lemma tick_catch_backlog t p e v old :
  tasks v !! t = Some old → (3 ≤ weight old)%nat →
  (1 + backlog (tick_catch t p e v) ≤ backlog v)%nat.
Proof.
  intros Ht Hw.
  destruct (tick_catch_frame t p e v)
    as (_ & _ & Hs & _ & _ & _ & _ & _ & _ & _ & _ & _ & _ & _ & Hcase).
  unfold backlog. rewrite Hs.
  destruct Hcase as [(_ & Hts & Him & _)|(_ & Hts & Him & _)]; rewrite Hts, Him.
  - pose proof (sum_weight_insert _ _ _ (AwaitSleep p) Ht). simpl in *. lia.
  - pose proof (sum_weight_insert _ _ _ Settled Ht). simpl in *.
    rewrite length_app. simpl. lia.
Qed.

Lemma step_backlog this client l w w' :
  step this client l w = Some w' →
  quieted w = true →
  ((if slotStep l then 1 else 0) + backlog w' ≤ backlog w)%nat.
Proof.
  unfold step. destruct (exited w); [done|]. intros Hstep Hq.
  destruct l as [| |t|t|t| | | | | | | | |]; simpl.
  - unfold backlog. destruct (starting w) as [|p0 rest] eqn:Hs; simplify_eq.
    rewrite setTick_quieted by done. simpl. rewrite sum_weight_snoc. simpl. lia.
  - unfold backlog. destruct (immediates w) as [|p0 rest] eqn:Hs; simplify_eq.
    rewrite setTick_quieted by done. simpl. rewrite sum_weight_snoc. simpl. lia.
  - destruct (tasks w !! t) as [[p|p j|p|]|] eqn:Ht; simplify_eq.
    destruct (fetch_ client (calls w) (queues this)) as [[j|]|e]; simplify_eq.
    + unfold backlog. simpl.
      pose proof (sum_weight_insert _ _ _ (AwaitHandle p j) Ht). simpl in *. lia.
    + unfold backlog. simpl. pose proof (sum_weight_insert _ _ _ Settled Ht).
      simpl in *. rewrite length_app. simpl. lia.
    + apply (tick_catch_backlog _ _ _ _ (AwaitFetch p)); [done|simpl; lia].
  - destruct (tasks w !! t) as [[p|p j|p|]|] eqn:Ht; simplify_eq.
    destruct (handle this client j w) as [r w1] eqn:Hh.
    destruct (handle_frame _ _ _ _ _ _ Hh) as (_ & Ht1 & Hi1 & _ & Hs1 & _).
    rewrite <- Ht1 in Ht.
    assert (Hb : backlog w1 = backlog w) by (unfold backlog; by rewrite Ht1, Hi1, Hs1).
    destruct r as [marker|e]; simplify_eq.
    + rewrite <- Hb. unfold backlog. simpl.
      pose proof (sum_weight_insert _ _ _ Settled Ht). simpl in *.
      rewrite length_app. simpl. lia.
    + rewrite <- Hb. apply (tick_catch_backlog _ _ _ _ (AwaitHandle p j)); [done|simpl; lia].
  - destruct (tasks w !! t) as [[p|p j|p|]|] eqn:Ht; simplify_eq.
    unfold backlog. simpl.
    pose proof (sum_weight_insert _ _ _ Settled Ht). simpl in *.
    rewrite length_app. simpl. lia.
  - simplify_eq. unfold backlog. simpl. lia.
  - destruct (heartbeat w); simplify_eq. unfold beat, backlog.
    destruct (beat_ client (calls w)) as [response|e]; simpl;
      repeat case_decide; simpl; lia.
  - destruct (shutdown w); simplify_eq. unfold backlog. simpl. lia.
  - destruct (shutdown w) as [|ts| | |]; simplify_eq.
    destruct (allSettled ts w && noneRejected ts w); simplify_eq.
    unfold backlog. simpl. lia.
  - destruct (shutdown w); simplify_eq.
    destruct (close_ client (calls w)); simplify_eq; unfold backlog; simpl; lia.
  - destruct (timeout w); simplify_eq. unfold backlog. simpl. lia.
  - destruct (shutdown w), (failure w); simplify_eq; unfold backlog; simpl; lia.
  - simplify_eq. unfold backlog. simpl. lia.
  - simplify_eq. unfold backlog. simpl. lia.
Qed.

(** X12 — quiet winds the slots down.  Once the worker is quieted, every
    step of a slot's loop uses up some of a finite backlog that nothing
    refills: a run has no more such steps than the backlog it started
    with, which is at most four for each suspended tick and one for each
    tick still scheduled. *)
Theorem quiet_winds_down this client ls : ∀ w w',
  quieted w = true →
  steps this client ls w = Some w' →
  (count slotStep ls + backlog w' ≤ backlog w)%nat
  ∧ (backlog w ≤ length (starting w) + length (immediates w) + 4 * length (tasks w))%nat.
Proof.
  assert (Hbound : ∀ l : list Task, (sum_list_with weight l ≤ 4 * length l)%nat).
  { induction l as [|[] l IH]; simpl; lia. }
  induction ls as [|l ls IH]; intros w w' Hq Hrun; simpl in Hrun.
  - simplify_eq. rewrite count_nil. split; [lia|].
    unfold backlog. specialize (Hbound (tasks w')). lia.
  - destruct (step this client l w) as [w1|] eqn:Hstep; [|done].
    destruct (step_after_quiet _ _ _ _ _ Hstep Hq) as (Hq1 & _).
    destruct (IH _ _ Hq1 Hrun) as (Hle & _).
    pose proof (step_backlog _ _ _ _ _ Hstep Hq).
    rewrite count_cons. split; [destruct (slotStep l); lia|].
    unfold backlog. specialize (Hbound (tasks w)). lia.
Qed.

(** *** One call of [tick] at a time for each slot *)

Lemma running_counted (l : list Task) t task pid :
  l !! t = Some task → running pid task = true → (1 ≤ count (running pid) l)%nat.
Proof.
  intros Ht Hr. pose proof (count_insert (running pid) l t task Settled Ht) as Hc.
  rewrite Hr in Hc. simpl in Hc. lia.
Qed.

Lemma running_pid pid task : running pid task = true → task ≠ Settled.
Proof. by destruct task. Qed.

Lemma sound_same w w' :
  starting w' = starting w → immediates w' = immediates w →
  tasks w' = tasks w → processors w' = processors w →
  slotsSound w → slotsSound w'.
Proof.
  unfold slotsSound, due. intros -> -> -> ->. done.
Qed.

Lemma insert_keeps (l : list Task) (m : gmap string nat) t old :
  l !! t = Some old →
  (∀ t' task pid, l !! t' = Some task → running pid task = true → m !! pid = Some t') →
  ∀ new t' task pid,
    <[t := new]> l !! t' = Some task → running pid task = true →
    (∀ pid, running pid new = true → running pid old = true) →
    m !! pid = Some t'.
Proof.
  intros Ht Hproc new t' task pid Hl Hr Hnew.
  apply list_lookup_insert_Some in Hl as [(-> & -> & _)|[Hne Hl]]; eauto.
Qed.

(** What [setTick] does to the slots, given that a tick was due for it. *)
Lemma setTick_sound this p0 w :
  (∀ pid, due pid w + (if bool_decide (p0 = pid) then 1 else 0) ≤ 1)%nat →
  (∀ t task pid, tasks w !! t = Some task → running pid task = true →
     processors w !! pid = Some t) →
  slotsSound (setTick this p0 w).
Proof.
  intros Hdue Hproc. unfold setTick, tick. simpl. split.
  - intros pid. specialize (Hdue pid).
    destruct (quieted w); simpl; unfold due in *; simpl;
      rewrite count_snoc; simpl; repeat case_bool_decide; simplify_eq; lia.
  - intros t task pid Ht Hr.
    assert (Hcases : tasks w !! t = Some task
                     ∨ (t = length (tasks w) ∧ task = AwaitFetch p0)).
    { destruct (quieted w); simpl in Ht;
        apply lookup_app_Some in Ht as [Ht|[Hlen Ht]]; auto;
        apply list_lookup_singleton_Some in Ht as [Hk <-]; [done|].
      right. split; [lia|done]. }
    assert (Hproc' : processors (let '(t0, w0) :=
                (if quieted w then (Settled, set_ticked (ticked w ++ [p0]) w)
                 else (AwaitFetch p0, call (CFetch (queues this))
                         (set_ticked (ticked w ++ [p0]) w))) in
              set_processors (<[p0 := length (tasks w0)]> (processors w0))
                (set_tasks (tasks w0 ++ [t0]) w0))
            = <[p0 := length (tasks w)]> (processors w)).
    { by destruct (quieted w). }
    destruct (quieted w) eqn:Hq; simpl;
      (destruct Hcases as [Hold|[-> ->]];
       [ destruct (decide (p0 = pid)) as [->|Hne];
         [ exfalso; specialize (Hdue pid);
           pose proof (running_counted _ _ _ _ Hold Hr);
           rewrite bool_decide_eq_true_2 in Hdue by done; unfold due in Hdue; lia
         | rewrite lookup_insert_ne by done; eauto ]
       | simpl in Hr; apply bool_decide_eq_true_1 in Hr; subst;
         by rewrite lookup_insert_eq ]).
Qed.

Lemma tick_catch_sound t p e v old :
  tasks v !! t = Some old →
  (∀ pid, running pid old = bool_decide (p = pid)) →
  slotsSound v → slotsSound (tick_catch t p e v).
Proof.
  intros Ht Hr [Hdue Hproc]. split.
  - intros pid. destruct (tick_catch_due t p e v pid old Ht (Hr pid)) as [_ ->].
    apply Hdue.
  - destruct (tick_catch_frame t p e v)
      as (_ & _ & _ & _ & _ & _ & _ & _ & Hp & _ & _ & _ & _ & _ & Hcase).
    pose proof (insert_keeps _ _ _ _ Ht Hproc) as Hkeep.
    intros t' task pid Hl Hrun. rewrite Hp.
    destruct Hcase as [(_ & Hts & _)|(_ & Hts & _)]; rewrite Hts in Hl;
      eapply (Hkeep _ _ _ _ Hl Hrun); intros pid'; simpl; by rewrite ?Hr.
Qed.

Lemma step_sound this client l w w' :
  step this client l w = Some w' →
  slotsSound w →
  slotsSound w'.
Proof.
  unfold step. destruct (exited w); [done|]. intros Hstep Hsound.
  pose proof Hsound as [Hdue Hproc].
  destruct l as [| |t|t|t| | | | | | | | |].
  - destruct (starting w) as [|p0 rest] eqn:Hs; simplify_eq.
    apply setTick_sound; [|done].
    intros pid. specialize (Hdue pid). unfold due in *. simpl.
    rewrite Hs in Hdue. unfold occurrences in *. rewrite count_cons in Hdue.
    repeat case_bool_decide; simplify_eq; lia.
  - destruct (immediates w) as [|p0 rest] eqn:Hs; simplify_eq.
    apply setTick_sound; [|done].
    intros pid. specialize (Hdue pid). unfold due in *. simpl.
    rewrite Hs in Hdue. unfold occurrences in *. rewrite count_cons in Hdue.
    repeat case_bool_decide; simplify_eq; lia.
  - destruct (tasks w !! t) as [[p|p j|p|]|] eqn:Ht; simplify_eq.
    pose proof (insert_keeps _ _ _ _ Ht Hproc) as Hkeep.
    destruct (fetch_ client (calls w) (queues this)) as [[j|]|e]; simplify_eq;
      [split; simpl..|].
    + intros pid. specialize (Hdue pid).
      pose proof (count_insert (running pid) _ _ _ (AwaitHandle p j) Ht).
      unfold due in *. simpl in *. lia.
    + intros t' task pid Hl Hr. by eapply (Hkeep _ _ _ _ Hl Hr).
    + intros pid. specialize (Hdue pid).
      pose proof (count_insert (running pid) _ _ _ Settled Ht).
      unfold due, occurrences in *. simpl in *. rewrite count_snoc.
      repeat case_bool_decide; simplify_eq; lia.
    + intros t' task pid Hl Hr. by eapply (Hkeep _ _ _ _ Hl Hr).
    + by apply (tick_catch_sound _ _ _ _ (AwaitFetch p)).
  - destruct (tasks w !! t) as [[p|p j|p|]|] eqn:Ht; simplify_eq.
    destruct (handle this client j w) as [r w1] eqn:Hh.
    destruct (handle_frame _ _ _ _ _ _ Hh)
      as (_ & Ht1 & Hi1 & _ & Hs1 & _ & _ & _ & _ & _ & Hp1 & _).
    pose proof (insert_keeps _ _ _ _ Ht Hproc) as Hkeep.
    destruct r as [marker|e]; simplify_eq; [split; simpl; rewrite ?Hp1, ?Ht1|].
    + intros pid. specialize (Hdue pid).
      pose proof (count_insert (running pid) _ _ _ Settled Ht).
      unfold due, occurrences in *. simpl in *. rewrite Hs1, Hi1, Ht1, count_snoc.
      repeat case_bool_decide; simplify_eq; lia.
    + intros t' task pid Hl Hr. by eapply (Hkeep _ _ _ _ Hl Hr).
    + apply (tick_catch_sound _ _ _ _ (AwaitHandle p j)); [by rewrite Ht1|done|].
      by apply (sound_same w).
  - destruct (tasks w !! t) as [[p|p j|p|]|] eqn:Ht; simplify_eq. split; simpl.
    + intros pid. specialize (Hdue pid).
      pose proof (count_insert (running pid) _ _ _ Settled Ht).
      unfold due, occurrences in *. simpl in *. rewrite count_snoc.
      repeat case_bool_decide; simplify_eq; lia.
    + intros t' task pid Hl Hr.
      apply list_lookup_insert_Some in Hl as [(-> & <- & _)|[Hne Hl]]; [done|eauto].
  - simplify_eq. by apply (sound_same w).
  - destruct (heartbeat w); simplify_eq. unfold beat.
    destruct (beat_ client (calls w)) as [response|e]; simpl;
      repeat case_decide; by apply (sound_same w).
  - destruct (shutdown w); simplify_eq. by apply (sound_same w).
  - destruct (shutdown w) as [|ts| | |]; simplify_eq.
    destruct (allSettled ts w && noneRejected ts w); simplify_eq.
    by apply (sound_same w).
  - destruct (shutdown w); simplify_eq.
    destruct (close_ client (calls w)); simplify_eq; by apply (sound_same w).
  - destruct (timeout w); simplify_eq. by apply (sound_same w).
  - destruct (shutdown w), (failure w); simplify_eq. by apply (sound_same w).
  - simplify_eq. by apply (sound_same w).
  - simplify_eq. by apply (sound_same w).
Qed.

Lemma steps_sound this client ls : ∀ w w',
  steps this client ls w = Some w' → slotsSound w → slotsSound w'.
Proof.
  induction ls as [|l ls IH]; intros w w' Hrun Hs; simpl in Hrun.
  - by simplify_eq.
  - destruct (step this client l w) as [w1|] eqn:Hstep; [|done].
    eapply IH; [done|]. by eapply step_sound.
Qed.

Lemma labels_NoDup n : NoDup (labels n).
Proof.
  unfold labels. apply NoDup_fmap_2_strong; [|apply NoDup_seq].
  intros i k _ _ Heq. simpl in Heq. injection Heq as Heq.
  apply pretty_nat_inj in Heq. clear -Heq. lia.
Qed.

Lemma occurrences_NoDup pid l : NoDup l → (occurrences pid l ≤ 1)%nat.
Proof.
  unfold occurrences. induction 1 as [|x l Hx Hl IH]; [by rewrite count_nil; lia|].
  rewrite count_cons. case_bool_decide; [|lia]. subst x.
  assert (Hzero : count (λ p, bool_decide (p = pid)) l = 0).
  { clear IH Hl. induction l as [|y l IH]; [done|].
    rewrite count_cons. apply not_elem_of_cons in Hx as [Hne Hx].
    rewrite bool_decide_eq_false_2 by done. by rewrite IH. }
  lia.
Qed.

Lemma work_sound this client : slotsSound (work this client initial).2.
Proof.
  assert (Hstart : ∀ w, starting w = labels (slots this) →
                        immediates w = [] → tasks w = [] → slotsSound w).
  { intros w Hs Hi Ht. split.
    - intros pid. unfold due. rewrite Hs, Hi, Ht.
      pose proof (occurrences_NoDup pid _ (labels_NoDup (slots this))).
      unfold occurrences in *. rewrite !count_nil. lia.
    - intros t task pid Hl. by rewrite Ht in Hl. }
  assert (Hnone : ∀ w, starting w = [] → immediates w = [] → tasks w = [] → slotsSound w).
  { intros w Hs Hi Ht. split.
    - intros pid. unfold due, occurrences. rewrite Hs, Hi, Ht, !count_nil. lia.
    - intros t task pid Hl. by rewrite Ht in Hl. }
  unfold work, beat. destruct (beat_ client (calls initial)) as [response|e]; simpl.
  - repeat case_decide; simpl; by apply Hstart.
  - by apply Hnone.
Qed.

Lemma sound_inProgress w t task :
  slotsSound w → tasks w !! t = Some task → task ≠ Settled → t ∈ inProgress w.
Proof.
  intros [_ Hproc] Ht Hne.
  assert (Hpid : ∃ pid, running pid task = true).
  { destruct task as [p|p j|p|]; try done; exists p; simpl; by case_bool_decide. }
  destruct Hpid as [pid Hr]. specialize (Hproc _ _ _ Ht Hr).
  unfold inProgress. apply list_elem_of_fmap. exists (pid, t).
  split; [done|]. by apply elem_of_map_to_list.
Qed.

(** X13 — one tick at a time.  In every state a worker reaches from
    [work()], each slot has at most one call of [tick] that is scheduled
    or suspended, and a suspended call is the one [this.processors] holds
    for its slot: [inProgress] contains every call of [tick] that has not
    returned. *)
Theorem inProgress_holds_every_running_tick this client ls w :
  steps this client ls (work this client initial).2 = Some w →
  (∀ pid, due pid w ≤ 1)%nat
  ∧ ∀ t task, tasks w !! t = Some task → task ≠ Settled → t ∈ inProgress w.
Proof.
  intros Hrun.
  pose proof (steps_sound _ _ _ _ _ Hrun (work_sound this client)) as Hsound.
  split; [apply Hsound|]. intros t task. by apply sound_inProgress.
Qed.

(** *** The drain of [stop] *)

Lemma stop_draining w : slotsSound w → draining (stop w).
Proof.
  intros Hsound. unfold draining, stop. simpl. repeat split; [done|].
  intros ts Hts t task Ht Hne. simplify_eq.
  by apply (sound_inProgress w t task).
Qed.

Lemma step_draining this client l w w' :
  step this client l w = Some w' → draining w → draining w'.
Proof.
  unfold step. destruct (exited w); [done|].
  intros Hstep (Hq & Hb & Hn & Hts).
  assert (Hins : ∀ t old new (v : State),
    tasks w !! t = Some old → old ≠ Settled →
    quieted v = true → heartbeat v = false → shutdown v = shutdown w →
    tasks v = <[t := new]> (tasks w) → draining v).
  { intros t old new v Ht Hold Hqv Hbv Hsv Htv. unfold draining.
    rewrite Hqv, Hbv, Hsv, Htv. repeat split; [done|].
    intros ts Hd t' task Hl Hne.
    apply list_lookup_insert_Some in Hl as [(-> & _ & _)|[_ Hl]]; eauto. }
  assert (Htick : ∀ p0 v, quieted v = true → heartbeat v = false →
    shutdown v = shutdown w → tasks v = tasks w → draining (setTick this p0 v)).
  { intros p0 v Hqv Hbv Hsv Htv. unfold draining, setTick, tick. simpl.
    rewrite Hqv. simpl. rewrite Hqv, Hbv, Hsv, Htv. repeat split; [done|].
    intros ts Hd t' task Hl Hne.
    apply lookup_app_Some in Hl as [Hl|[_ Hl]]; [eauto|].
    apply list_lookup_singleton_Some in Hl as [_ <-]. done. }
  assert (Hcatch : ∀ t p e old (v : State),
    tasks w !! t = Some old → old ≠ Settled →
    quieted v = true → heartbeat v = false → shutdown v = shutdown w →
    tasks v = tasks w → draining (tick_catch t p e v)).
  { intros t p e old v Ht Hold Hqv Hbv Hsv Htv.
    destruct (tick_catch_frame t p e v)
      as (Hq1 & _ & _ & _ & Hsh1 & _ & Hhb1 & _ & _ & _ & _ & _ & _ & _ & Hcase).
    destruct Hcase as [(_ & Hts1 & _)|(_ & Hts1 & _)].
    - apply (Hins t old (AwaitSleep p)); congruence.
    - apply (Hins t old Settled); congruence. }
  destruct l as [| |t|t|t| | | | | | | | |].
  - destruct (starting w); simplify_eq. by apply Htick.
  - destruct (immediates w); simplify_eq. by apply Htick.
  - destruct (tasks w !! t) as [[p|p j|p|]|] eqn:Ht; simplify_eq.
    destruct (fetch_ client (calls w) (queues this)) as [[j|]|e]; simplify_eq;
      [by eapply (Hins t (AwaitFetch p))..|].
    by eapply (Hcatch t p e (AwaitFetch p)).
  - destruct (tasks w !! t) as [[p|p j|p|]|] eqn:Ht; simplify_eq.
    destruct (handle this client j w) as [r w1] eqn:Hh.
    destruct (handle_frame _ _ _ _ _ _ Hh)
      as (Hq1 & Ht1 & _ & _ & _ & _ & Hs1 & _ & Hb1 & _).
    destruct r as [marker|e]; simplify_eq.
    + eapply (Hins t (AwaitHandle p j)); simpl; rewrite ?Ht1; try done; congruence.
    + eapply (Hcatch t p e (AwaitHandle p j)); try done; congruence.
  - destruct (tasks w !! t) as [[p|p j|p|]|] eqn:Ht; simplify_eq.
    by eapply (Hins t (AwaitSleep p)).
  - by simplify_eq.
  - by rewrite Hb in Hstep.
  - by destruct (shutdown w).
  - destruct (shutdown w) as [|ts| | |]; simplify_eq.
    destruct (allSettled ts w && noneRejected ts w); by simplify_eq.
  - destruct (shutdown w); simplify_eq.
    destruct (close_ client (calls w)); by simplify_eq.
  - destruct (timeout w); by simplify_eq.
  - destruct (shutdown w), (failure w); by simplify_eq.
  - by simplify_eq.
  - by simplify_eq.
Qed.

Lemma steps_draining this client ls : ∀ w w',
  steps this client ls w = Some w' → draining w → draining w'.
Proof.
  induction ls as [|l ls IH]; intros w w' Hrun Hd; simpl in Hrun.
  - by simplify_eq.
  - destruct (step this client l w) as [w1|] eqn:Hstep; [|done].
    eapply IH; [done|]. by eapply step_draining.
Qed.

(** X14 — the drain waits for every tick.  Take a worker that is working,
    call [stop()], and let anything happen until the [Promise.all] of
    [stop] fulfils: at that moment no call of [tick] is suspended — no
    fetch is outstanding, no job is being handled — although slots may
    have been rescheduled and started in between; this is when the drain
    path calls [close], once. *)
Theorem stop_closes_only_when_idle this client before after w w' :
  steps this client (before ++ LStop :: after) (work this client initial).2 = Some w →
  step this client LDrained w = Some w' →
  idle w ∧ idle w' ∧ calls w' = calls w ++ [CClose] ∧ quieted w' = true.
Proof.
  intros Hrun Hdrained.
  assert (Hd : draining w).
  { clear Hdrained. revert Hrun.
    generalize (work_sound this client).
    generalize ((work this client initial).2).
    induction before as [|l ls IH]; intros v Hsound Hrun; simpl in Hrun.
    - destruct (step this client LStop v) as [v1|] eqn:Hstop; [|done].
      eapply steps_draining; [done|].
      unfold step in Hstop. destruct (exited v); [done|].
      destruct (shutdown v); simplify_eq. by apply stop_draining.
    - destruct (step this client l v) as [v1|] eqn:Hstep; [|done].
      eapply (IH v1); [|done]. by eapply step_sound. }
  destruct Hd as (Hq & _ & _ & Hts).
  unfold step in Hdrained. destruct (exited w); [done|].
  destruct (shutdown w) as [|ts| | |] eqn:Hs; simplify_eq.
  destruct (allSettled ts w) eqn:Hall; [|done].
  destruct (noneRejected ts w); simpl in Hdrained; simplify_eq.
  assert (Hidle : idle w).
  { intros t task Ht. destruct task as [p|p j|p|]; [| | |done]; exfalso.
    all: unfold allSettled in Hall; rewrite forallb_forall in Hall.
    all: specialize (Hts ts eq_refl t _ Ht ltac:(done)).
    all: apply list_elem_of_In in Hts; specialize (Hall _ Hts); by rewrite Ht in Hall. }
  done.
Qed.

(** *** What [handle] tells the server *)

(** X15 — one report for each job.  [handle(job)] calls the client once or
    twice and only about that job: an ack, a fail, or an ack that rejected
    followed by a fail.  It returns "ack" exactly when the ack is all it
    sent, it emits "fail" exactly when it returns "fail", and when it
    rejects it has emitted nothing. *)
Theorem handle_reports_once this client j w :
  ∃ cs, calls (handle this client j w).2 = calls w ++ cs
    ∧ (cs = [CAck (jid j)]
       ∨ ∃ error, cs = [CFail (jid j) error] ∨ cs = [CAck (jid j); CFail (jid j) error])
    ∧ ((handle this client j w).1 = Normal "ack" ↔ cs = [CAck (jid j)])
    ∧ ((handle this client j w).1 = Normal "fail"
       ↔ ∃ e, emitted (handle this client j w).2 = emitted w ++ [EmFail j e])
    ∧ ((handle this client j w).1 ≠ Normal "fail"
       → emitted (handle this client j w).2 = emitted w).
Proof.
  assert (Hne : ∀ (l : list Emitted) x, l ≠ l ++ [x]).
  { intros l x Heq. apply (f_equal length) in Heq. rewrite length_app in Heq.
    simpl in Heq. lia. }
  unfold handle. destruct (execute _ _ _).1 as [[]|e].
  - destruct (ack_ _ _ _) as [[]|e]; simpl.
    + exists [CAck (jid j)]. split; [done|]. split; [by left|].
      split; [done|]. split; [|done]. split; [done|].
      intros [e He]. by apply Hne in He.
    + unfold handle_catch. simpl.
      exists [CAck (jid j); CFail (jid j) (wrapNonErrors e)]. split.
      { destruct (fail_ _ _ _ _); simpl; by rewrite <- app_assoc. }
      split; [right; eauto|].
      destruct (fail_ _ _ _ _) as [[]|e']; simpl.
      * split; [done|]. split; [|done]. split; [eauto|done].
      * split; [done|]. split; [|done]. split; [done|].
        intros [e0 He]. by apply Hne in He.
  - unfold handle_catch. exists [CFail (jid j) (wrapNonErrors e)]. split.
    { by destruct (fail_ _ _ _ _). }
    split; [right; eauto|].
    destruct (fail_ _ _ _ _) as [[]|e']; simpl.
    + split; [done|]. split; [|done]. split; [eauto|done].
    + split; [done|]. split; [|done]. split; [done|].
      intros [e0 He]. by apply Hne in He.
Qed.

(** *** Starting and rescheduling slots *)

Lemma setTick_fetches this pid w :
  quieted w = false →
  setTick this pid w
  = set_processors (<[pid := length (tasks w)]> (processors w))
      (set_tasks (tasks w ++ [AwaitFetch pid])
         (call (CFetch (queues this)) (set_ticked (ticked w ++ [pid]) w))).
Proof. intros Hq. unfold setTick, tick. simpl. by rewrite Hq. Qed.

Lemma start_all this client : ∀ ps w,
  starting w = ps → quieted w = false → exited w = None →
  ∃ w', steps this client (replicate (length ps) LStart) w = Some w'
    ∧ tasks w' = tasks w ++ (AwaitFetch <$> ps)
    ∧ calls w' = calls w ++ replicate (length ps) (CFetch (queues this))
    ∧ ticked w' = ticked w ++ ps
    ∧ starting w' = [] ∧ immediates w' = immediates w
    ∧ quieted w' = false ∧ exited w' = None ∧ emitted w' = emitted w.
Proof.
  induction ps as [|p ps IH]; intros w Hs Hq Hx.
  - exists w. simpl. rewrite !app_nil_r. auto 10.
  - simpl. unfold step at 1. rewrite Hx, Hs, setTick_fetches by done.
    edestruct IH as (w' & -> & Ht & Hc & Hk & Hs' & Hi & Hq' & Hx' & He);
      [| | |exists w'; split; [done|]]; simpl; try done.
    rewrite Ht, Hc, Hk, Hs', Hi, Hq', Hx', He. simpl.
    rewrite <- !app_assoc. auto 10.
Qed.

Lemma immediates_all this client : ∀ ps w,
  immediates w = ps → quieted w = false → exited w = None →
  ∃ w', steps this client (replicate (length ps) LImmediate) w = Some w'
    ∧ tasks w' = tasks w ++ (AwaitFetch <$> ps)
    ∧ calls w' = calls w ++ replicate (length ps) (CFetch (queues this))
    ∧ ticked w' = ticked w ++ ps
    ∧ immediates w' = [] ∧ starting w' = starting w
    ∧ quieted w' = false ∧ exited w' = None ∧ emitted w' = emitted w.
Proof.
  induction ps as [|p ps IH]; intros w Hs Hq Hx.
  - exists w. simpl. rewrite !app_nil_r. auto 10.
  - simpl. unfold step at 1. rewrite Hx, Hs, setTick_fetches by done.
    edestruct IH as (w' & -> & Ht & Hc & Hk & Hs' & Hi & Hq' & Hx' & He);
      [| | |exists w'; split; [done|]]; simpl; try done.
    rewrite Ht, Hc, Hk, Hs', Hi, Hq', Hx', He. simpl.
    rewrite <- !app_assoc. auto 10.
Qed.

(** X16 — the slots of [work].  When the first heartbeat is answered with
    anything but "quiet" or "terminate", the loop of [work] starts the
    slots [p1] to [pN], [N] the concurrency — with a concurrency that
    is not a natural number, the number of indices below it — in that
    order; each issues one fetch on the worker's queues and is suspended
    on it; and there is no further slot to start. *)
Theorem work_starts_every_slot this client response :
  beat_ client [] = Normal response →
  response ≠ "quiet" → response ≠ "terminate" →
  (work this client initial).1 = Normal tt
  ∧ ∃ w, steps this client (replicate (slots this) LStart)
           (work this client initial).2 = Some w
    ∧ tasks w = AwaitFetch <$> labels (slots this)
    ∧ ticked w = labels (slots this)
    ∧ calls w = CBeat :: replicate (slots this) (CFetch (queues this))
    ∧ length (labels (slots this)) = slots this
    ∧ (∀ t pid, labels (slots this) !! t = Some pid → processors w !! pid = Some t)
    ∧ step this client LStart w = None
    ∧ ∀ n, (concurrency this == inject_Z (Z.of_nat n))%Q → slots this = n.
Proof.
  intros Hbeat Hq Ht.
  assert (Hlen : length (labels (slots this)) = slots this).
  { unfold labels. by rewrite length_fmap, length_seq. }
  assert (Hwork : work this client initial
    = (Normal tt, set_starting (labels (slots this))
        (set_trapped true (set_heartbeat true (call CBeat initial))))).
  { unfold work, beat. simpl. rewrite Hbeat. by repeat case_decide. }
  split; [by rewrite Hwork|].
  pose proof (work_sound this client) as Hsound.
  rewrite Hwork in *. cbn [fst snd] in *.
  destruct (start_all this client (labels (slots this))
              (set_starting (labels (slots this))
                 (set_trapped true (set_heartbeat true (call CBeat initial))))
              eq_refl eq_refl eq_refl)
    as (w & Hrun & Htasks & Hcalls & Hticked & Hstart & _ & _ & Hx & _).
  rewrite Hlen in Hrun, Hcalls.
  change (tasks w = AwaitFetch <$> labels (slots this)) in Htasks.
  change (ticked w = labels (slots this)) in Hticked.
  change (calls w = CBeat :: replicate (slots this) (CFetch (queues this)))
    in Hcalls.
  exists w. split; [done|]. split; [done|]. split; [done|]. split; [done|].
  split; [done|]. split; [|split].
  - intros t pid Hl.
    destruct (steps_sound _ _ _ _ _ Hrun Hsound) as [_ Hproc].
    apply (Hproc t (AwaitFetch pid)).
    + rewrite Htasks. by rewrite list_lookup_fmap, Hl.
    + simpl. by case_bool_decide.
  - unfold step. by rewrite Hx, Hstart.
  - intros n Hn. unfold slots. rewrite (Qceiling_comp _ _ Hn), Qceiling_Z.
    apply Nat2Z.id.
Qed.

Lemma tick_finally_frame t pid w :
  tasks (tick_finally t pid w) = <[t := Settled]> (tasks w)
  ∧ immediates (tick_finally t pid w) = immediates w ++ [pid]
  ∧ quieted (tick_finally t pid w) = quieted w
  ∧ exited (tick_finally t pid w) = exited w
  ∧ calls (tick_finally t pid w) = calls w
  ∧ emitted (tick_finally t pid w) = emitted w.
Proof. done. Qed.

(** X17 — a slot and its errors.  When the fetch of a slot rejects, or its
    [handle] does (the fail report was rejected), on a worker that is not
    quieted, the error is emitted as "error" and the step fetches nothing.
    With an ["error"] listener on the worker the slot survives: its call
    of [tick] sleeps, nothing is fetched until the sleep is over, then the
    slot is rescheduled, and once the [setImmediate] callbacks queued by
    then have run it is suspended on a new fetch.  With no listener the
    emit throws: there is no sleep, the promise of the call is rejected
    with what the emit threw, and the [finally] block has queued the
    [setImmediate] callback of the slot at once. *)
Theorem tick_survives_errors this client l t pid e w :
  exited w = None → quieted w = false →
  (l = LFetch t ∧ tasks w !! t = Some (AwaitFetch pid)
   ∧ fetch_ client (calls w) (queues this) = Throw e)
  ∨ (∃ j, l = LHandle t ∧ tasks w !! t = Some (AwaitHandle pid j)
     ∧ (handle this client j w).1 = Throw e) →
  ∃ w1,
    step this client l w = Some w1
    ∧ last (emitted w1) = Some (EmError e)
    ∧ fetches w1 = fetches w
    ∧ (listeners w ≠ 0 →
       tasks w1 !! t = Some (AwaitSleep pid)
       ∧ immediates w1 = immediates w
       ∧ rejections w1 = rejections w
       ∧ ∃ w2 w3,
           step this client (LSleep t) w1 = Some w2
           ∧ fetches w2 = fetches w
           ∧ immediates w2 = immediates w ++ [pid]
           ∧ steps this client (replicate (S (length (immediates w))) LImmediate) w2
             = Some w3
           ∧ last (tasks w3) = Some (AwaitFetch pid)
           ∧ last (calls w3) = Some (CFetch (queues this))
           ∧ emitted w3 = emitted w1)
    ∧ (listeners w = 0 →
       tasks w1 !! t = Some Settled
       ∧ rejections w1 !! t = Some (unhandled e)
       ∧ immediates w1 = immediates w ++ [pid]
       ∧ step this client (LSleep t) w1 = None).
Proof.
  intros Hx Hq Hcase.
  assert (Hfirst : ∃ v, step this client l w = Some (tick_catch t pid e v)
            ∧ tasks v = tasks w ∧ immediates v = immediates w
            ∧ fetches v = fetches w ∧ quieted v = false ∧ exited v = None
            ∧ listeners v = listeners w ∧ rejections v = rejections w
            ∧ t < length (tasks w)).
  { destruct Hcase as [(-> & Ht & Hf)|(j & -> & Ht & Hh)].
    - exists w. unfold step. rewrite Hx, Ht, Hf.
      apply lookup_lt_Some in Ht. auto 10.
    - destruct (handle this client j w) as [r v] eqn:Hhandle. simpl in Hh. subst r.
      destruct (handle_frame _ _ _ _ _ _ Hhandle)
        as (Hq1 & Ht1 & Hi1 & _ & _ & Hx1 & _ & _ & _ & _ & _ & Hf1 & _
            & Hl1 & Hr1 & _).
      exists v. unfold step. rewrite Hx, Ht, Hhandle.
      apply lookup_lt_Some in Ht. split; [done|].
      rewrite Hq1, Hx1. auto 10. }
  destruct Hfirst as (v & Hstep & Htv & Hiv & Hfv & Hqv & Hxv & Hlv & Hrv & Hlt).
  destruct (tick_catch_frame t pid e v)
    as (Hq1 & _ & _ & Hx1 & _ & _ & _ & _ & _ & Hc1 & He1 & _ & _ & _ & Hcase1).
  remember (tick_catch t pid e v) as w1 eqn:Hw1. clear Hw1.
  exists w1. split; [done|].
  split; [by rewrite He1, last_snoc|].
  split; [unfold fetches in *; by rewrite Hc1|].
  split.
  - intros Hl. destruct Hcase1 as [(_ & Hts & Him & Hrj & _)|(Hl0 & _)]; [|congruence].
    split; [rewrite Hts, Htv; by apply list_lookup_insert_eq|].
    split; [congruence|]. split; [congruence|].
    destruct (tick_finally_frame t pid w1) as (Ht2 & Hi2 & Hq2 & Hx2 & Hc2 & He2).
    assert (Hs2 : step this client (LSleep t) w1 = Some (tick_finally t pid w1)).
    { unfold step. rewrite Hx1, Hxv, Hts, Htv.
      by rewrite list_lookup_insert_eq by done. }
    remember (tick_finally t pid w1) as w2 eqn:Hw2. clear Hw2.
    edestruct (immediates_all this client (immediates w ++ [pid]) w2)
      as (w3 & Hrun2 & Htasks & Hcalls & _ & _ & _ & _ & _ & Hem);
      [congruence..|].
    rewrite length_app, Nat.add_comm in Hrun2, Hcalls.
    change (length [pid] + length (immediates w)) with (S (length (immediates w)))
      in Hrun2, Hcalls.
    exists w2, w3. split; [done|].
    split; [unfold fetches in *; congruence|].
    split; [congruence|]. split; [done|].
    split; [|split; [|congruence]].
    + rewrite Htasks, fmap_app, app_assoc.
      change (AwaitFetch <$> [pid]) with [AwaitFetch pid]. by rewrite last_snoc.
    + rewrite Hcalls, replicate_S_end, app_assoc. by rewrite last_snoc.
  - intros Hl. destruct Hcase1 as [(Hn & _)|(_ & Hts & Him & Hrj)]; [congruence|].
    split; [rewrite Hts, Htv; by apply list_lookup_insert_eq|].
    split; [rewrite Hrj; by rewrite lookup_insert_eq|].
    split; [congruence|].
    unfold step. rewrite Hx1, Hxv, Hts, Htv.
    by rewrite list_lookup_insert_eq by done.
Qed.

(** *** The first heartbeat *)

Lemma work_terminate_state this client :
  beat_ client [] = Normal "terminate" →
  work this client initial
  = (Normal tt, mkState true true true true (labels (slots this)) [] ∅ [] []
                  [CBeat] [] (Draining []) true false None [] 0 ∅ None).
Proof.
  intros Hbeat. unfold work, beat. cbn [calls initial]. rewrite Hbeat.
  rewrite decide_False by done. rewrite decide_True by done.
  assert (Hnone : ∀ w, processors w = ∅ → inProgress w = []).
  { intros w Hp. unfold inProgress. by rewrite Hp, map_to_list_empty. }
  unfold stop, quiet. rewrite Hnone by done. reflexivity.
Qed.

(** X18 — "terminate" on the first heartbeat.  [work] calls [beat] before it
    sets anything up, and [beat] calls [stop()] without awaiting it: the
    drain awaits nothing and can close the client at once, yet [work]
    goes on — it resolves, installs the heartbeat timer and the signal
    handlers that [stop] had just removed, and starts its slots, none of
    which ever fetches. *)
Theorem work_terminated_by_first_beat this client :
  beat_ client [] = Normal "terminate" →
  (work this client initial).1 = Normal tt
  ∧ stopped (work this client initial).2 = true
  ∧ shutdown (work this client initial).2 = Draining []
  ∧ timeout (work this client initial).2 = true
  ∧ heartbeat (work this client initial).2 = true
  ∧ trapped (work this client initial).2 = true
  ∧ starting (work this client initial).2 = labels (slots this)
  ∧ (∃ w, step this client LDrained (work this client initial).2 = Some w
          ∧ calls w = [CBeat; CClose])
  ∧ ∀ ls w, steps this client ls (work this client initial).2 = Some w →
      fetches w = 0.
Proof.
  intros Hbeat. rewrite (work_terminate_state _ _ Hbeat). cbn [fst snd].
  split; [done|]. split; [done|]. split; [done|]. split; [done|].
  split; [done|]. split; [done|]. split; [done|]. split.
  - eexists. split; reflexivity.
  - intros ls w Hrun. by apply steps_after_quiet in Hrun as (_ & -> & _).
Qed.

(** X19 — a first heartbeat that fails.  When the first [beat] rejects,
    [work] rejects with its error before anything is set up: no heartbeat
    timer, no signal handlers, no slot; and whatever is called on that
    worker afterwards, it never ticks and never fetches. *)
Theorem work_rejected_by_first_beat this client e :
  beat_ client [] = Throw e →
  work this client initial = (Throw e, call CBeat initial)
  ∧ ∀ ls w, steps this client ls (call CBeat initial) = Some w →
      ticked w = [] ∧ tasks w = [] ∧ fetches w = 0
      ∧ heartbeat w = false ∧ trapped w = false.
Proof.
  intros Hbeat. split.
  { unfold work, beat. simpl. by rewrite Hbeat. }
  assert (Hinv : ∀ ls v w, steps this client ls v = Some w →
    starting v = [] → immediates v = [] → tasks v = [] → heartbeat v = false →
    trapped v = false →
    ticked w = ticked v ∧ tasks w = [] ∧ fetches w = fetches v
    ∧ heartbeat w = false ∧ trapped w = false).
  { induction ls as [|l ls IH]; intros v w Hrun Hs Hi Ht Hb Htr; simpl in Hrun.
    - simplify_eq. auto.
    - destruct (step this client l v) as [v1|] eqn:Hstep; [|done].
      assert (Hone : starting v1 = [] ∧ immediates v1 = [] ∧ tasks v1 = []
                     ∧ heartbeat v1 = false ∧ trapped v1 = false
                     ∧ ticked v1 = ticked v ∧ fetches v1 = fetches v).
      { unfold step in Hstep. destruct (exited v); [done|].
        destruct l as [| |t|t|t| | | | | | | | |].
        - by rewrite Hs in Hstep.
        - by rewrite Hi in Hstep.
        - by rewrite Ht in Hstep.
        - by rewrite Ht in Hstep.
        - by rewrite Ht in Hstep.
        - simplify_eq. auto 10.
        - by rewrite Hb in Hstep.
        - destruct (shutdown v); simplify_eq. auto 10.
        - destruct (shutdown v) as [|ts| | |]; simplify_eq.
          destruct (allSettled ts v && noneRejected ts v); simplify_eq.
          unfold fetches, fetchCount. simpl. rewrite count_snoc. simpl.
          rewrite Nat.add_0_r. auto 10.
        - destruct (shutdown v); simplify_eq.
          destruct (close_ client (calls v)); simplify_eq; auto 10.
        - destruct (timeout v); simplify_eq.
          unfold fetches, fetchCount. simpl. rewrite count_snoc. simpl.
          rewrite Nat.add_0_r. auto 10.
        - destruct (shutdown v), (failure v); simplify_eq. auto 10.
        - simplify_eq. auto 10.
        - simplify_eq. auto 10. }
      destruct Hone as (Hs1 & Hi1 & Ht1 & Hb1 & Htr1 & Hk1 & Hf1).
      destruct (IH _ _ Hrun Hs1 Hi1 Ht1 Hb1 Htr1) as (? & ? & ? & ? & ?).
      repeat split; congruence. }
  intros ls w Hrun. by apply Hinv in Hrun.
Qed.

(** *** The statements at the sample inputs *)

Lemma lifecycle_only_goes_forward_witness :
  ∃ w', steps (sampleWorker []) (sampleClient true true) [LQuiet; LHandle 0; LStop]
          sampleMidJob = Some w'
    ∧ forward sampleMidJob w'.
Proof.
  eexists. split; [vm_compute; reflexivity|].
  exact (proj1 (lifecycle_only_goes_forward (sampleWorker []) (sampleClient true true)
                  [LQuiet; LHandle 0; LStop] sampleMidJob _
                  ltac:(vm_compute; reflexivity))).
Defined.

Lemma quiet_winds_down_witness :
  quieted (quiet sampleMidJob) = true
  ∧ ∃ w', steps (sampleWorker []) (sampleClient true true) [LHandle 0; LImmediate]
            (quiet sampleMidJob) = Some w'
      ∧ (2 + backlog w' ≤ backlog (quiet sampleMidJob))%nat.
Proof.
  split; [reflexivity|].
  eexists. split; [vm_compute; reflexivity|].
  exact (proj1 (quiet_winds_down (sampleWorker []) (sampleClient true true)
                  [LHandle 0; LImmediate] (quiet sampleMidJob) _ eq_refl
                  ltac:(vm_compute; reflexivity))).
Defined.

Lemma inProgress_holds_every_running_tick_witness :
  steps (sampleWorker []) (sampleClient true true) [LStart; LFetch 0]
    (work (sampleWorker []) (sampleClient true true) initial).2 = Some sampleMidJob
  ∧ tasks sampleMidJob !! 0 = Some (AwaitHandle "p1" sampleJob)
  ∧ 0 ∈ inProgress sampleMidJob.
Proof.
  split; [vm_compute; reflexivity|]. split; [reflexivity|].
  destruct (inProgress_holds_every_running_tick (sampleWorker []) (sampleClient true true)
              [LStart; LFetch 0] sampleMidJob ltac:(vm_compute; reflexivity))
    as (_ & Hin).
  by apply (Hin 0 (AwaitHandle "p1" sampleJob)).
Defined.

Lemma stop_closes_only_when_idle_witness :
  ∃ w w',
    steps (sampleWorker []) (sampleClient true true)
      ([LStart; LFetch 0] ++ LStop :: [LHandle 0; LImmediate])
      (work (sampleWorker []) (sampleClient true true) initial).2 = Some w
    ∧ step (sampleWorker []) (sampleClient true true) LDrained w = Some w'
    ∧ idle w
    ∧ calls w' = calls w ++ [CClose].
Proof.
  eexists _, _. split; [vm_compute; reflexivity|]. split; [vm_compute; reflexivity|].
  destruct (stop_closes_only_when_idle (sampleWorker []) (sampleClient true true)
              [LStart; LFetch 0] [LHandle 0; LImmediate] _ _
              ltac:(vm_compute; reflexivity) ltac:(vm_compute; reflexivity))
    as (Hidle & _ & Hcalls & _).
  split; [exact Hidle|exact Hcalls].
Defined.

Lemma work_starts_every_slot_witness :
  beat_ (sampleClient true true) [] = Normal EmptyString
  ∧ ∃ w, steps (sampleWorker []) (sampleClient true true) [LStart]
           (work (sampleWorker []) (sampleClient true true) initial).2 = Some w
      ∧ tasks w = [AwaitFetch "p1"]
      ∧ calls w = [CBeat; CFetch ["default"]]
      ∧ step (sampleWorker []) (sampleClient true true) LStart w = None.
Proof.
  split; [reflexivity|].
  destruct (work_starts_every_slot (sampleWorker []) (sampleClient true true) EmptyString
              eq_refl ltac:(discriminate) ltac:(discriminate))
    as (_ & w & Hrun & Htasks & _ & Hcalls & _ & _ & Hlast & _).
  exists w. split; [exact Hrun|]. split; [exact Htasks|]. split; [exact Hcalls|exact Hlast].
Defined.

Lemma tick_survives_errors_witness :
  exited sampleListening = None
  ∧ quieted sampleListening = false
  ∧ tasks sampleListening !! 0 = Some (AwaitFetch "p1")
  ∧ fetch_ failingFetchClient (calls sampleListening) ["default"] = Throw sampleError
  ∧ listeners sampleListening ≠ 0
  ∧ ∃ w1 w2 w3,
      step (sampleWorker []) failingFetchClient (LFetch 0) sampleListening = Some w1
      ∧ last (emitted w1) = Some (EmError sampleError)
      ∧ step (sampleWorker []) failingFetchClient (LSleep 0) w1 = Some w2
      ∧ steps (sampleWorker []) failingFetchClient [LImmediate] w2 = Some w3
      ∧ last (tasks w3) = Some (AwaitFetch "p1").
Proof.
  split; [reflexivity|]. split; [reflexivity|]. split; [reflexivity|].
  split; [reflexivity|]. split; [discriminate|].
  destruct (tick_survives_errors (sampleWorker []) failingFetchClient (LFetch 0) 0 "p1"
              sampleError sampleListening eq_refl eq_refl
              (or_introl (conj eq_refl (conj eq_refl eq_refl))))
    as (w1 & Hstep & Hem & _ & Hlisten & _).
  destruct (Hlisten ltac:(discriminate))
    as (_ & _ & _ & w2 & w3 & Hsleep & _ & _ & Hrun & Htask & _).
  exists w1, w2, w3. split; [exact Hstep|]. split; [exact Hem|].
  split; [exact Hsleep|]. split; [exact Hrun|exact Htask].
Defined.

Lemma work_terminated_by_first_beat_witness :
  beat_ terminatingClient [] = Normal "terminate"
  ∧ (work (sampleWorker []) terminatingClient initial).1 = Normal tt
  ∧ heartbeat (work (sampleWorker []) terminatingClient initial).2 = true
  ∧ shutdown (work (sampleWorker []) terminatingClient initial).2 = Draining [].
Proof.
  split; [reflexivity|].
  destruct (work_terminated_by_first_beat (sampleWorker []) terminatingClient eq_refl)
    as (Hr & _ & Hsh & _ & Hb & _).
  split; [exact Hr|]. split; [exact Hb|exact Hsh].
Defined.

Lemma work_rejected_by_first_beat_witness :
  beat_ unreachableClient [] = Throw sampleError
  ∧ work (sampleWorker []) unreachableClient initial = (Throw sampleError, call CBeat initial)
  ∧ ∃ w, steps (sampleWorker []) unreachableClient [LQuiet; LStop; LDrained]
           (call CBeat initial) = Some w
      ∧ ticked w = [] ∧ fetches w = 0.
Proof.
  split; [reflexivity|].
  destruct (work_rejected_by_first_beat (sampleWorker []) unreachableClient sampleError
              eq_refl) as (Hwork & Hall).
  split; [exact Hwork|].
  eexists. split; [vm_compute; reflexivity|].
  destruct (Hall [LQuiet; LStop; LDrained] _ ltac:(vm_compute; reflexivity))
    as (Ht & _ & Hf & _).
  split; [exact Ht|exact Hf].
Defined.

End WorkerRunsSpec.

(** * Mutation *)

Module MutationSpec.

Import Mutation.

Section WithEncode.

Context (encode : option Verb * option Target * Filter → string).

Lemma latest_nil {A} (f : Call → option A) d : latest f [] d = d.
Proof. done. Qed.

Lemma latest_cons {A} (f : Call → option A) c calls d :
  latest f (c :: calls) d
  = latest f calls (match f c with Some a => Some a | None => d end).
Proof.
  unfold latest.
  assert (Ho : omap f (c :: calls)
               = match f c with Some a => a :: omap f calls | None => omap f calls end)
    by reflexivity.
  rewrite Ho. destruct (f c) as [a|]; [|reflexivity].
  destruct (omap f calls) as [|b l] eqn:Hl; [reflexivity|].
  change (last (a :: b :: l)) with (last (b :: l)).
  destruct (last (b :: l)) eqn:Hlast; [reflexivity|].
  by apply last_None in Hlast.
Qed.

Lemma chain_app calls1 : ∀ calls2 m m1 sent1,
  chain encode calls1 m = (m1, sent1, None) →
  chain encode (calls1 ++ calls2) m
  = let '(m2, sent2, x) := chain encode calls2 m1 in (m2, sent1 ++ sent2, x).
Proof.
  induction calls1 as [|c calls1 IH]; intros calls2 m m1 sent1 Hc; simpl in Hc.
  - simplify_eq. simpl. by destruct (chain encode calls2 m1) as [[? ?] ?].
  - simpl. destruct c as [a|l|a|v].
    + destruct (ofType a m) as [e|m']; [done|]. by apply IH.
    + by apply IH.
    + destruct (matching a m) as [e|m']; [done|]. by apply IH.
    + simpl in *.
      destruct (chain encode calls1 _) as [[m'' more] x] eqn:Hrest.
      simplify_eq. rewrite (IH calls2 _ _ _ Hrest).
      by destruct (chain encode calls2 m1) as [[? ?] ?].
Qed.

(** X20 — filters compose, last call wins.  On a chain of calls that are
    all accepted, each of [jobtype], [jids] and [regexp] of the filter is
    what the last [ofType], [withJids] or [matching] of the chain gave it
    (for [withJids], the array given first or else the arguments), or
    what it was before; [cmd] is the verb executed last; no call touches
    [target] or the filter's [pattern]; and every verb executed sends one
    [MUTATE] with the encoding of the verb, the target and the filter as
    set by the calls before it — also [clear], and also a verb that
    follows another on the same mutation — expecting "OK". *)
Theorem chain_last_call_wins calls : ∀ m m' sent,
  chain encode calls m = (m', sent, None) →
  jobtype (filter m') = latest jobtypeOf calls (jobtype (filter m))
  ∧ jids (filter m') = latest jidsOf calls (jids (filter m))
  ∧ regexp (filter m') = latest regexpOf calls (regexp (filter m))
  ∧ cmd m' = latest verbOf calls (cmd m)
  ∧ pattern (filter m') = pattern (filter m)
  ∧ target m' = target m
  ∧ length sent = length (omap verbOf calls)
  ∧ ∀ i command, sent !! i = Some command →
      ∃ before v after_ m0 sent0,
        calls = before ++ Execute v :: after_
        ∧ length (omap verbOf before) = i
        ∧ chain encode before m = (m0, sent0, None)
        ∧ command = (["MUTATE"; encode (Some v, target m, filter m0)], "OK").
Proof.
  induction calls as [|c calls IH]; intros m m' sent Hc; simpl in Hc.
  - simplify_eq. rewrite !latest_nil. repeat split; done.
  - rewrite !latest_cons.
    assert (Hshift : ∀ m1 (sent1 : list (list string * string)),
      target m1 = target m →
      (∃ m2, chain encode [c] m = (m2, [], None) ∧ filter m2 = filter m1
             ∧ target m2 = target m1) →
      (∀ i command, sent1 !! i = Some command →
        ∃ before v after_ m0 sent0,
          calls = before ++ Execute v :: after_
          ∧ length (omap verbOf before) = i
          ∧ chain encode before m1 = (m0, sent0, None)
          ∧ command = (["MUTATE"; encode (Some v, target m1, filter m0)], "OK")) →
      verbOf c = None →
      ∀ i command, sent1 !! i = Some command →
        ∃ before v after_ m0 sent0,
          c :: calls = before ++ Execute v :: after_
          ∧ length (omap verbOf before) = i
          ∧ chain encode before m = (m0, sent0, None)
          ∧ command = (["MUTATE"; encode (Some v, target m, filter m0)], "OK")).
    { intros m1 sent1 Htm (m2 & Hone & Hf2 & Ht2) Hall Hv i command Hl.
      destruct (Hall i command Hl) as (before & v & after_ & m0 & sent0 & -> & Hlen & Hb & ->).
      exists (c :: before), v, after_. 
      assert (Hb2 : ∃ m0' sent0', chain encode before m2 = (m0', sent0', None)
                                  ∧ filter m0' = filter m0).
      { clear -Hb Hf2 Ht2. revert m1 m2 m0 sent0 Hb Hf2 Ht2.
        induction before as [|b before IHb]; intros m1 m2 m0 sent0 Hb Hf2 Ht2; simpl in *.
        - simplify_eq. eauto.
        - destruct b as [a|l|a|v]; simpl in *.
          + destruct a as [s0| |]; simpl in *; try done.
            eapply IHb; [exact Hb| |]; simpl; by rewrite ?Hf2, ?Ht2.
          + eapply IHb; [exact Hb| |]; simpl; by rewrite ?Hf2, ?Ht2.
          + destruct a as [s0| |]; simpl in *; try done.
            eapply IHb; [exact Hb| |]; simpl; by rewrite ?Hf2, ?Ht2.
          + destruct (chain encode before (mkMutation (target m1) (filter m1) (Some v)))
              as [[m'' more] x] eqn:Hrest. simplify_eq.
            edestruct (IHb _ (mkMutation (target m2) (filter m2) (Some v)) _ _ Hrest)
              as (m0' & sent0' & Hb' & Hf'); [done|done|].
            rewrite Hb'. eauto. }
      destruct Hb2 as (m0' & sent0' & Hb2 & Hf0).
      exists m0', sent0'. split; [done|]. split.
      { simpl. by rewrite Hv. }
      split.
      { change (c :: before) with ([c] ++ before).
        by rewrite (chain_app [c] before m m2 [] Hone), Hb2. }
      by rewrite Hf0, Htm. }
    destruct c as [a|l|a|v]; simpl.
    + destruct a as [s0| |]; simpl in Hc; try done.
      destruct (IH _ _ _ Hc) as (H1 & H2 & H3 & H4 & H5 & H6 & H7 & H8).
      simpl in *. repeat split; try done.
      eapply Hshift; [| |exact H8|done]; [done|]. eexists. split; [reflexivity|done].
    + destruct (IH _ _ _ Hc) as (H1 & H2 & H3 & H4 & H5 & H6 & H7 & H8).
      simpl in *. repeat split; try done.
      * rewrite H2. by destruct l as [|[]].
      * eapply Hshift; [| |exact H8|done]; [done|]. eexists. split; [reflexivity|done].
    + destruct a as [s0| |]; simpl in Hc; try done.
      destruct (IH _ _ _ Hc) as (H1 & H2 & H3 & H4 & H5 & H6 & H7 & H8).
      simpl in *. repeat split; try done.
      eapply Hshift; [| |exact H8|done]; [done|]. eexists. split; [reflexivity|done].
    + simpl in Hc.
      destruct (chain encode calls (mkMutation (target m) (filter m) (Some v)))
        as [[m'' more] x] eqn:Hrest. simplify_eq.
      destruct (IH _ _ _ Hrest) as (H1 & H2 & H3 & H4 & H5 & H6 & H7 & H8).
      simpl in *. repeat split; try done; [by rewrite H7|].
      intros [|i] command Hl; simpl in Hl.
      * simplify_eq. exists [], v, calls, m, []. done.
      * destruct (H8 i command Hl)
          as (before & v' & after_ & m0 & sent0 & -> & Hlen & Hb & ->).
        exists (Execute v :: before), v', after_, m0, (send encode (mkMutation (target m) (filter m) (Some v)) :: sent0).
        split; [done|]. split; [by (simpl; f_equal)|]. split; [|done].
        simpl. by rewrite Hb.
Qed.

(** X21 — a refused argument.  When a chain breaks off with an error, the
    error is that of the first call whose argument is not a string; the
    mutation is as the calls before it left it — the refused call sets
    nothing — and nothing is sent by the calls after it. *)
Theorem chain_refused_call_changes_nothing calls : ∀ m m' sent e,
  chain encode calls m = (m', sent, Some e) →
  ∃ before c after_,
    calls = before ++ c :: after_
    ∧ refused c = true
    ∧ forallb (λ c, negb (refused c)) before = true
    ∧ chain encode before m = (m', sent, None)
    ∧ chain encode [c] m' = (m', [], Some e).
Proof.
  induction calls as [|c calls IH]; intros m m' sent e Hc; simpl in Hc; [done|].
  assert (Hcons : ∀ m1 sent1, chain encode [c] m = (m1, sent1, None) →
    refused c = false →
    ∀ sent2, chain encode calls m1 = (m', sent2, Some e) → sent = sent1 ++ sent2 →
    ∃ before c0 after_,
      c :: calls = before ++ c0 :: after_ ∧ refused c0 = true
      ∧ forallb (λ c, negb (refused c)) before = true
      ∧ chain encode before m = (m', sent, None)
      ∧ chain encode [c0] m' = (m', [], Some e)).
  { intros m1 sent1 Hone Hr sent2 Hrest ->.
    destruct (IH _ _ _ _ Hrest) as (before & c0 & after_ & -> & Hr0 & Hall & Hb & He).
    exists (c :: before), c0, after_. split; [done|]. split; [done|].
    split; [by (simpl; rewrite Hr, Hall)|]. split; [|done].
    change (c :: before) with ([c] ++ before).
    by rewrite (chain_app [c] before m m1 sent1 Hone), Hb. }
  destruct c as [a|l|a|v].
  - destruct a as [s0|items|]; simpl in Hc.
    + by eapply (Hcons _ []).
    + simplify_eq. by exists [], (OfType (JArray items)), calls.
    + simplify_eq. by exists [], (OfType JOther), calls.
  - by eapply (Hcons _ []).
  - destruct a as [s0|items|]; simpl in Hc.
    + by eapply (Hcons _ []).
    + simplify_eq. by exists [], (Matching (JArray items)), calls.
    + simplify_eq. by exists [], (Matching JOther), calls.
  - simpl in Hc.
    destruct (chain encode calls (mkMutation (target m) (filter m) (Some v)))
      as [[m'' more] x] eqn:Hrest. simplify_eq.
    by eapply (Hcons _ [_]).
Qed.

End WithEncode.

(** *** The statements at the sample inputs *)

Lemma chain_last_call_wins_witness :
  ∃ m' sent, chain sampleEncode sampleChain constructor = (m', sent, None)
    ∧ jobtype (filter m') = Some "SendEmail"
    ∧ jids (filter m') = Some [JString "a"; JString "b"]
    ∧ cmd m' = Some KILL
    ∧ length sent = 1.
Proof.
  eexists _, _. split; [vm_compute; reflexivity|].
  destruct (chain_last_call_wins sampleEncode sampleChain constructor _ _
              ltac:(vm_compute; reflexivity))
    as (H1 & H2 & _ & H4 & _ & _ & H7 & _).
  split; [exact H1|]. split; [exact H2|]. split; [exact H4|exact H7].
Defined.

Lemma chain_refused_call_changes_nothing_witness :
  ∃ m' sent e before c after_,
    chain sampleEncode [OfType (JString "SendEmail"); Matching JOther; Execute KILL]
      constructor = (m', sent, Some e)
    ∧ [OfType (JString "SendEmail"); Matching JOther; Execute KILL]
      = before ++ c :: after_
    ∧ refused c = true
    ∧ chain sampleEncode before constructor = (m', sent, None).
Proof.
  destruct (chain_refused_call_changes_nothing sampleEncode
              [OfType (JString "SendEmail"); Matching JOther; Execute KILL]
              constructor _ _ _ ltac:(vm_compute; reflexivity))
    as (before & c & after_ & Hcalls & Hc & _ & Hb & _).
  eexists _, _, _, before, c, after_. split; [vm_compute; reflexivity|].
  split; [exact Hcalls|]. split; [exact Hc|exact Hb].
Defined.

End MutationSpec.

(** * The faktory singleton *)

Module FaktorySpec.

Import Worker Faktory WorkerSpec.

Section WithRealm.

Context `{realm : Realm}.

(** X22 — one worker for each singleton.  Once [work] has been called the
    singleton holds its worker, also when that call rejected because the
    first heartbeat failed: every further [work] throws "can only call
    .work once per singleton" and changes nothing.  [stop] hands the
    worker its one call of [stop()] and forgets it: a second [stop] calls
    nothing, and [work] can be called again. *)
Theorem singleton_holds_one_worker client options f :
  worker f = None →
  (∃ this w, worker (work client options f).2 = Some (this, w)
     ∧ (work client options f).1 = (Worker.work this client initial).1
     ∧ (stop (work client options f).2).2 = Some (Worker.stop w))
  ∧ (∀ client' options',
       work client' options' (work client options f).2
       = (Throw (ThrownError (MkError "Error" "can only call .work once per singleton")),
          (work client options f).2))
  ∧ worker (stop (work client options f).2).1 = None
  ∧ (stop (stop (work client options f).2).1).2 = None
  ∧ (stop f).2 = None
  ∧ ∀ client' options',
      worker (work client' options' (stop (work client options f).2).1).2 ≠ None.
Proof.
  intros Hnone.
  assert (Hwork : ∀ client options g, worker g = None →
    ∃ this w, work client options g
      = ((Worker.work this client initial).1,
         mkSingleton (middleware_ g) (registry_ g) (Some (this, w)))
      ∧ w = (Worker.work this client initial).2).
  { intros c o g Hg. unfold work. rewrite Hg.
    destruct (Worker.work _ c initial) as [r w] eqn:Hw.
    eexists _, w. by rewrite Hw. }
  destruct (Hwork client options f Hnone) as (this & w & Heq & Hw).
  rewrite Heq. cbn [fst snd]. split; [|split; [|split; [|split; [|split]]]].
  - exists this, w. by unfold stop.
  - intros client' options'. by unfold work.
  - by unfold stop.
  - by unfold stop.
  - unfold stop. by rewrite Hnone.
  - intros client' options'. unfold stop. cbn [worker fst middleware_ registry_].
    destruct (Hwork client' options'
                (mkSingleton (middleware_ f) (registry_ f) None) eq_refl)
      as (this' & w' & Heq' & _).
    cbn [middleware_ registry_] in Heq'. by rewrite Heq'.
Qed.

Lemma registry_lookup_unfold (r : Registry) key :
  r !! key = match own r !! key with Some g => Some g | None => inherited r key end.
Proof. reflexivity. Qed.

(** The executor reads the registry under the job's type and nowhere
    else. *)
Lemma execute_reads_jobtype (r r' : Registry) specs j :
  r !! jobtype j = r' !! jobtype j →
  (execute r (onions specs) j).1 = (execute r' (onions specs) j).1.
Proof.
  intros Heq.
  destruct (execute_onions r specs j) as (x & -> & _).
  destruct (execute_onions r' specs j) as (x' & -> & _).
  unfold executorOutcome. by rewrite Heq.
Qed.

Lemma execute_found (r : Registry) specs j g :
  r !! jobtype j = Some g →
  (execute r (onions specs) j).1
  = match jobOutcome g j with Some e => Throw e | None => Normal tt end.
Proof.
  intros Hg. destruct (execute_onions r specs j) as (x & -> & _).
  unfold executorOutcome. by rewrite Hg.
Qed.

(** What the assignment does, by the cases of [setProperty]. *)
Lemma setProperty_writes name fn (r : Registry) :
  is_Some (own r !! name) ∨ (name ≠ "__proto__" ∧ refuses r name = None) →
  setProperty name fn r
  = inr (mkRegistry (<[name := fn]> (own r)) (inherited r) (refuses r)).
Proof.
  unfold setProperty. intros [[g Hg]|[Hne Href]].
  - by rewrite Hg.
  - destruct (own r !! name); [done|]. rewrite decide_False by done.
    by rewrite Href.
Qed.

Lemma setProperty_prototype fn (r : Registry) :
  own r !! "__proto__" = None →
  setProperty "__proto__" fn r
  = inr (mkRegistry (own r)
           (λ key, if decide (key = "__proto__") then Some fn
                   else functionPrototype fn key)
           (functionRefuses fn)).
Proof. unfold setProperty. intros ->. by rewrite decide_True. Qed.

Lemma setProperty_found name fn (r r' : Registry) :
  setProperty name fn r = inr r' → r' !! name = Some fn.
Proof.
  unfold setProperty. destruct (own r !! name) as [g|] eqn:Hg.
  - intros; simplify_eq. rewrite registry_lookup_unfold. cbn [own inherited].
    by rewrite lookup_insert_eq.
  - case_decide as Hn.
    + intros; simplify_eq. rewrite registry_lookup_unfold. cbn [own inherited].
      rewrite Hg. by rewrite decide_True.
    + destruct (refuses r name); intros; simplify_eq.
      rewrite registry_lookup_unfold. cbn [own inherited]. by rewrite lookup_insert_eq.
Qed.

(** X23 — registering a job function.  [register(name, fn)] with anything
    but a function throws the assertion and registers nothing.  With a
    function, under a name the registry has as a property of its own, or
    one other than [__proto__] that its prototype chain does not refuse,
    it makes the executor of a worker reading this registry run [fn] for
    the jobs of type [name], whatever was registered under that name
    before, and leaves the other jobtypes and the middleware as they
    were.  Under [__proto__], which a registry has not as its own unless
    it was given so, the function becomes the prototype of the registry:
    the jobs of type [__proto__] run [fn] and those of a type the registry
    has of its own run as before, but every other jobtype is now looked
    up along the function — what [Object.prototype] provided before is
    found only if the function's chain provides it — and the names that
    chain refuses can no longer be registered.  Under a name the chain
    refuses, the assignment throws and nothing is registered. *)
Theorem register_is_what_the_executor_runs name fn f specs j :
  register name None f = inl (assertion "a registered job must be a function")
  ∧ (is_Some (own (registry_ f) !! name)
     ∨ (name ≠ "__proto__" ∧ refuses (registry_ f) name = None) →
     ∃ f', register name (Some fn) f = inr f'
       ∧ middleware_ f' = middleware_ f ∧ worker f' = worker f
       ∧ (jobtype j = name →
            (execute (registry_ f') (onions specs) j).1
            = match jobOutcome fn j with Some e => Throw e | None => Normal tt end)
       ∧ (jobtype j ≠ name →
            (execute (registry_ f') (onions specs) j).1
            = (execute (registry_ f) (onions specs) j).1))
  ∧ (name = "__proto__" → own (registry_ f) !! name = None →
     ∃ f', register name (Some fn) f = inr f'
       ∧ middleware_ f' = middleware_ f ∧ worker f' = worker f
       ∧ own (registry_ f') = own (registry_ f)
       ∧ refuses (registry_ f') = functionRefuses fn
       ∧ (jobtype j = name →
            (execute (registry_ f') (onions specs) j).1
            = match jobOutcome fn j with Some e => Throw e | None => Normal tt end)
       ∧ (is_Some (own (registry_ f) !! jobtype j) →
            (execute (registry_ f') (onions specs) j).1
            = (execute (registry_ f) (onions specs) j).1)
       ∧ (own (registry_ f) !! jobtype j = None → jobtype j ≠ name →
          functionRefuses fn (jobtype j) = None →
            (execute (registry_ f') (onions specs) j).1
            = match functionPrototype fn (jobtype j) with
              | Some g =>
                  match jobOutcome g j with Some e => Throw e | None => Normal tt end
              | None => Throw (ThrownError (registryError (jobtype j)))
              end))
  ∧ (own (registry_ f) !! name = None → name ≠ "__proto__" →
     ∀ e, refuses (registry_ f) name = Some e →
       register name (Some fn) f = inl e).
Proof.
  split; [done|]. split; [|split].
  - intros Hcase. unfold register. rewrite (setProperty_writes _ _ _ Hcase).
    eexists. split; [reflexivity|]. cbn [middleware_ worker registry_].
    split; [done|]. split; [done|]. split.
    + intros <-. apply execute_found. rewrite registry_lookup_unfold. cbn [own inherited].
      by rewrite lookup_insert_eq.
    + intros Hne. apply execute_reads_jobtype.
      rewrite !registry_lookup_unfold. cbn [own inherited]. by rewrite lookup_insert_ne.
  - intros -> Hown. unfold register. rewrite (setProperty_prototype _ _ Hown).
    eexists. split; [reflexivity|]. cbn [middleware_ worker registry_ own refuses].
    split; [done|]. split; [done|]. split; [done|]. split; [done|]. split; [|split].
    + intros Hj. apply execute_found. rewrite registry_lookup_unfold. cbn [own inherited].
      rewrite Hj, Hown. by rewrite decide_True.
    + intros [g Hg]. apply execute_reads_jobtype.
      rewrite !registry_lookup_unfold. cbn [own inherited]. by rewrite Hg.
    + intros Hnone Hne _.
      destruct (execute_onions
                  (mkRegistry (own (registry_ f))
                     (λ key, if decide (key = "__proto__") then Some fn
                             else functionPrototype fn key)
                     (functionRefuses fn)) specs j) as (x & -> & _).
      unfold executorOutcome. rewrite registry_lookup_unfold. cbn [own inherited].
      rewrite Hnone. by rewrite decide_False.
  - intros Hown Hne e Href. unfold register, setProperty.
    rewrite Hown. rewrite decide_False by done. by rewrite Href.
Qed.

(** X24 — what a singleton's worker runs.  The worker that [work(options)]
    creates takes its middleware and its registry from the singleton,
    whatever [options] gives for them, and the rest from [options].  The
    registry is the singleton's own object: a function registered after
    [work] — under a name the registry takes: one of its own,
    [__proto__], or one its prototype chain does not refuse — is run by
    the working worker for the jobs of its type; under a name the chain
    refuses, [register] throws what the assignment throws.  The
    middleware were composed when [work] was called: one added by [use]
    afterwards is not part of that worker's executor. *)
Theorem worker_reads_the_singleton client options f name fn m :
  worker f = None →
  ∃ this w,
    worker (work client options f).2 = Some (this, w)
    ∧ middleware this = middleware_ f
    ∧ registry this = registry_ f
    ∧ concurrency this = concurrency (Worker.constructor options)
    ∧ queues this = queues (Worker.constructor options)
    ∧ shutdownTimeout this = shutdownTimeout (Worker.constructor options)
    ∧ beatInterval this = beatInterval (Worker.constructor options)
    ∧ (is_Some (own (registry_ f) !! name) ∨ name = "__proto__"
       ∨ refuses (registry_ f) name = None →
       ∃ f' this', register name (Some fn) (work client options f).2 = inr f'
         ∧ running f' = Some (this', w)
         ∧ registry this' !! name = Some fn
         ∧ middleware this' = middleware_ f)
    ∧ (own (registry_ f) !! name = None → name ≠ "__proto__" →
       ∀ e, refuses (registry_ f) name = Some e →
         register name (Some fn) (work client options f).2 = inl e)
    ∧ (∃ f' this', use (Some m) (work client options f).2 = inr f'
         ∧ middleware_ f' = middleware_ f ++ [m]
         ∧ running f' = Some (this', w)
         ∧ middleware this' = middleware_ f).
Proof.
  intros Hnone. unfold work. rewrite Hnone.
  destruct (Worker.work _ client initial) as [r w] eqn:Hw. cbn [snd worker].
  eexists _, w. split; [reflexivity|].
  split; [done|]. split; [done|]. split; [done|]. split; [done|].
  split; [done|]. split; [done|]. split.
  - intros Hcase. unfold register. cbn [registry_ middleware_ worker].
    destruct (setProperty name fn (registry_ f)) as [e|r'] eqn:Hset.
    + exfalso. unfold setProperty in Hset.
      destruct (own (registry_ f) !! name) as [g|] eqn:Hown; [done|].
      case_decide as Hn; [done|].
      destruct Hcase as [[g Hg]|[->|Href]]; [done|done|].
      by rewrite Href in Hset.
    + eexists _, _. split; [reflexivity|]. split; [reflexivity|].
      split; [|done]. cbn [registry registry_].
      by apply (setProperty_found _ _ _ _ Hset).
  - split.
    + intros Hown Hne e Href. unfold register, setProperty.
      cbn [registry_ middleware_ worker].
      rewrite Hown. rewrite decide_False by done. by rewrite Href.
    + eexists _, _. split; [reflexivity|]. split; [done|].
      split; [reflexivity|done].
Qed.

End WithRealm.

(** *** The statements at the sample inputs *)

#[local] Existing Instance sampleRealm.

Lemma singleton_holds_one_worker_witness :
  worker faktory = None
  ∧ work (sampleClient true true)
      (mkOptions None None None None None None)
      (work (sampleClient true true)
         (mkOptions (Some 1%Q) None None None None None) faktory).2
    = (Throw (ThrownError (MkError "Error" "can only call .work once per singleton")),
       (work (sampleClient true true)
          (mkOptions (Some 1%Q) None None None None None) faktory).2).
Proof.
  split; [reflexivity|].
  destruct (singleton_holds_one_worker (sampleClient true true)
              (mkOptions (Some 1%Q) None None None None None) faktory eq_refl)
    as (_ & Hagain & _).
  exact (Hagain (sampleClient true true) (mkOptions None None None None None None)).
Defined.

(** On the sample realm: a first registration under [Noop]; one under
    [__proto__], after which a job of type [call] finds the method of the
    function, whose call throws; and one under [name], which the function
    that is now the prototype refuses. *)
Lemma register_is_what_the_executor_runs_witness :
  (∃ f1, register "Noop" (Some (λ _, JobValue)) faktory = inr f1
     ∧ (execute (registry_ f1) (onions []) sampleJob).1 = Normal tt)
  ∧ ∃ f2, register "__proto__" (Some (λ _, JobValue)) faktory
          = inr f2
      ∧ (execute (registry_ faktory) (onions [])
           (mkJob "mno" "call" [])).1
        = Throw (ThrownError (registryError "call"))
      ∧ (execute (registry_ f2) (onions []) (mkJob "mno" "call" [])).1
        = Throw (ThrownError (MkError "TypeError"
            "Function.prototype.call was called on undefined, which is undefined and not a function"))
      ∧ register "name" (Some (λ _, JobValue)) f2
        = inl (MkError "TypeError"
                 "Cannot assign to read only property 'name' of object '#<Object>'").
Proof.
  assert (Hnoop : "Noop" ≠ "__proto__") by discriminate.
  assert (Hcall : jobtype (mkJob "mno" "call" []) ≠ "__proto__") by discriminate.
  assert (Hname : "name" ≠ "__proto__") by discriminate.
  assert (Hfree : refuses (registry_ faktory) "Noop" = None) by reflexivity.
  assert (Hown : own (registry_ faktory) !! "__proto__" = None) by reflexivity.
  assert (Hown' : own (registry_ faktory) !! jobtype (mkJob "mno" "call" []) = None)
    by reflexivity.
  assert (Hok : functionRefuses (λ _, JobValue) (jobtype (mkJob "mno" "call" [])) = None)
    by reflexivity.
  split.
  - destruct (register_is_what_the_executor_runs "Noop" (λ _, JobValue)
                faktory [] sampleJob) as (_ & Hwrite & _).
    destruct (Hwrite (or_intror (conj Hnoop Hfree)))
      as (f1 & Hreg & _ & _ & Hrun & _).
    exists f1. split; [exact Hreg|]. exact (Hrun eq_refl).
  - destruct (register_is_what_the_executor_runs "__proto__"
                (λ _, JobValue) faktory [] (mkJob "mno" "call" []))
      as (_ & _ & Hproto & _).
    destruct (Hproto eq_refl Hown)
      as (f2 & Hreg & _ & _ & Hsame & Href & _ & _ & Hother).
    exists f2. split; [exact Hreg|]. split; [vm_compute; reflexivity|].
    split; [exact (Hother Hown' Hcall Hok)|].
    destruct (register_is_what_the_executor_runs "name"
                (λ _, JobValue) f2 [] sampleJob) as (_ & _ & _ & Hrefused).
    apply Hrefused.
    + rewrite Hsame. reflexivity.
    + exact Hname.
    + rewrite Href. reflexivity.
Defined.

Lemma worker_reads_the_singleton_witness :
  worker faktory = None
  ∧ ∃ this w,
      worker (work (sampleClient true true)
                (mkOptions (Some 1%Q) None None None (Some [shortCircuit])
                   (Some sampleRegistry))
                faktory).2 = Some (this, w)
      ∧ middleware this = []
      ∧ registry this = plainObject
      ∧ concurrency this = 1%Q
      ∧ ∃ f' this',
          register "Noop" (Some (λ _, JobValue))
            (work (sampleClient true true)
               (mkOptions (Some 1%Q) None None None (Some [shortCircuit])
                  (Some sampleRegistry))
               faktory).2 = inr f'
          ∧ running f' = Some (this', w)
          ∧ registry this' !! "Noop" = Some (λ _, JobValue).
Proof.
  assert (Hfree : refuses (registry_ faktory) "Noop" = None) by reflexivity.
  split; [reflexivity|].
  destruct (worker_reads_the_singleton (sampleClient true true)
              (mkOptions (Some 1%Q) None None None (Some [shortCircuit])
                 (Some sampleRegistry))
              faktory "Noop" (λ _, JobValue) shortCircuit eq_refl)
    as (this & w & Hw & Hm & Hr & Hc & _ & _ & _ & Hreg & _ & _).
  destruct (Hreg (or_intror (or_intror Hfree))) as (f' & this' & Hf' & Hrun & Hlook & _).
  exists this, w. split; [exact Hw|]. split; [exact Hm|]. split; [exact Hr|].
  split; [exact Hc|]. exists f', this'.
  split; [exact Hf'|]. split; [exact Hrun|exact Hlook].
Defined.

End FaktorySpec.
